(** * Monte Carlo polygon area estimator (reqB2.c): geometry kernel,
      sampling workers and driver, with the properties of its specification.

    The C program works on [double]; the embedding uses Rocq's primitive
    binary64 floats, so every definition below evaluates exactly as the
    compiled code does under IEEE 754 round-to-nearest-even.

    An [int] is a [Z]; the three increments of the program wrap around as
    32-bit two's complement integers do. The threads are a machine that runs
    one statement of one thread at a time, in the order a schedule gives;
    [rand()] is the sequence of values the generator returns, call by call.
    The file is the sequence of chunks of bytes that [read] returns, and
    [sscanf] a function from a line to the point it scans, if any. *)

From Stdlib Require Import ZArith List Bool Lia Sorted Floats QArith Lqa Uint63.
From Stdlib Require Strings.Byte.
From stdpp Require Import base list.
Import ListNotations.

Open Scope Z_scope.

(** ** Geometry kernel *)

Module Geometry.

(** [typedef struct { double x; double y; } Point;] *)
Record Point : Set := mkPoint { px : float; py : float }.

(** The three results of [orientation], as the C code encodes them. *)
Definition COLINEAR : Z := 0.
Definition CLOCKWISE : Z := 1.
Definition COUNTERCLOCKWISE : Z := 2.

(** The double [val] of [orientation]:
    [(q.y - p.y) * (r.x - q.x) - (q.x - p.x) * (r.y - q.y)]. *)
Definition cross (p q r : Point) : float :=
  ((py q - py p) * (px r - px q) - (px q - px p) * (py r - py q))%float.

(** [int orientation(Point p, Point q, Point r)] *)
Definition orientation (p q r : Point) : Z :=
  let val := cross p q r in
  if (val =? 0)%float then 0
  else if (0 <? val)%float then 1 else 2.

(** [fmax] and [fmin] of <math.h> (C11 7.12.12): a NaN argument is treated
    as missing data, so the other argument is returned. *)
Definition fmax (x y : float) : float :=
  if is_nan x then y
  else if is_nan y then x
  else if (x <? y)%float then y else x.

Definition fmin (x y : float) : float :=
  if is_nan x then y
  else if is_nan y then x
  else if (y <? x)%float then y else x.

(** [bool onSegment(Point p, Point q, Point r)] *)
Definition onSegment (p q r : Point) : bool :=
  if (px q <=? fmax (px p) (px r))%float && (fmin (px p) (px r) <=? px q)%float &&
     (py q <=? fmax (py p) (py r))%float && (fmin (py p) (py r) <=? py q)%float
  then true
  else false.

(** [bool doIntersect(Point p1, Point q1, Point p2, Point q2)] *)
Definition doIntersect (p1 q1 p2 q2 : Point) : bool :=
  let o1 := orientation p1 q1 p2 in
  let o2 := orientation p1 q1 q2 in
  let o3 := orientation p2 q2 p1 in
  let o4 := orientation p2 q2 q1 in
  if negb (o1 =? o2) && negb (o3 =? o4) then true
  else if (o1 =? 0) && onSegment p1 p2 q1 then true
  else if (o2 =? 0) && onSegment p1 q2 q1 then true
  else if (o3 =? 0) && onSegment p2 p1 q2 then true
  else if (o4 =? 0) && onSegment p2 q1 q2 then true
  else false.

(** [polygon[i]]: the array is a list; the loop of [isInsidePolygon] only
    reads indices below [n]. *)
Definition origin : Point := mkPoint 0 0.
Definition vertex (polygon : list Point) (i : Z) : Point :=
  nth (Z.to_nat i) polygon origin.

(** The [do ... while (i != 0)] loop of [isInsidePolygon], one unfolding
    per iteration. [None] is running out of fuel. *)
Fixpoint edge_loop (fuel : nat) (polygon : list Point) (n : Z) (p extreme : Point)
         (count i : Z) : option bool :=
  match fuel with
  | O => None
  | S fuel' =>
      let next := Z.rem (i + 1) n in
      let hit := doIntersect (vertex polygon i) (vertex polygon next) p extreme in
      if hit && (orientation (vertex polygon i) p (vertex polygon next) =? 0) then
        Some (onSegment (vertex polygon i) p (vertex polygon next))
      else
        let count' := if hit then count + 1 else count in
        if next =? 0 then Some (negb (Z.land count' 1 =? 0))
        else edge_loop fuel' polygon n p extreme count' next
  end.

(** [Point extreme = {2.5, p.y};] *)
Definition extreme_of (p : Point) : Point := mkPoint 2.5 (py p).

(** [bool isInsidePolygon(Point polygon[], int n, Point p)]. The loop runs
    at most [n] times, so [n] units of fuel are enough (see
    [isInsidePolygon_fuel_total]). *)
Definition isInsidePolygon_fuel (fuel : nat) (polygon : list Point) (n : Z) (p : Point)
  : option bool :=
  if n <? 3 then Some false
  else edge_loop fuel polygon n p (extreme_of p) 0 0.

Definition isInsidePolygon (polygon : list Point) (n : Z) (p : Point) : bool :=
  match isInsidePolygon_fuel (Z.to_nat n) polygon n p with
  | Some b => b
  | None => false
  end.

End Geometry.
Import Geometry.

(** ** Machine integers and conversions *)

Module CInt.

Definition INT_MAX : Z := 2147483647.

(** Two's complement wrap-around of a 32-bit [int]: what [x++] leaves in the
    variable on the targets the program is built for. *)
Definition wrap_int (z : Z) : Z := (z + 2147483648) mod 4294967296 - 2147483648.

(** [(double)i] for an [int] i: the conversion is exact, every 32-bit
    integer being a binary64 value. *)
Definition double_of_int (z : Z) : float :=
  if z <? 0 then (- of_uint63 (Uint63.of_Z (- z)))%float
  else of_uint63 (Uint63.of_Z z).

End CInt.
Import CInt.

(** ** Sampling engine: shared data, worker threads, progress thread *)

Module Sampling.

Inductive thread : Set :=
| Worker (k : nat)   (* worker_threads[k] *)
| Progress.          (* progress_thread *)

(** [SharedData]. The mutex is its owner, if any. *)
Record SharedData : Set := mkSharedData {
  polygon : list Point;
  polygon_size : Z;
  total_points : Z;
  points_inside : Z;
  points_checked : Z;
  mutex : option thread
}.

Definition set_mutex (o : option thread) (d : SharedData) : SharedData :=
  mkSharedData (polygon d) (polygon_size d) (total_points d)
               (points_inside d) (points_checked d) o.
Definition set_checked (c : Z) (d : SharedData) : SharedData :=
  mkSharedData (polygon d) (polygon_size d) (total_points d)
               (points_inside d) c (mutex d).
Definition set_inside (c : Z) (d : SharedData) : SharedData :=
  mkSharedData (polygon d) (polygon_size d) (total_points d)
               c (points_checked d) (mutex d).

(** Program points of [worker_thread], between the statements that touch
    shared state. *)
Inductive worker_pc : Set :=
| WLoop                    (* loop test [i < points_per_thread], first rand() *)
| WDrawY (x : float)       (* second rand() *)
| WLock (p : Point)        (* pthread_mutex_lock *)
| WCount (p : Point)       (* data->points_checked++ *)
| WClassify (p : Point)    (* if (isInsidePolygon(...)) data->points_inside++ *)
| WUnlock                  (* pthread_mutex_unlock; i++ *)
| WExit.                   (* return NULL *)

Record worker : Set := mkWorker {
  w_pc : worker_pc;
  w_i : Z;
  points_per_thread : Z
}.

(** Program points of [progress_bar]. *)
Inductive progress_pc : Set :=
| PSleep                   (* sleep(1); pthread_mutex_lock *)
| PRead                    (* checked = data->points_checked *)
| PUnlock (checked : Z)    (* pthread_mutex_unlock *)
| PPrint (checked : Z)     (* progress, printf, exit test *)
| PExit.

Record machine : Set := mkMachine {
  data : SharedData;
  workers : list worker;
  progress : progress_pc;
  rand_calls : nat;        (* calls of rand() so far *)
  printed : list Z         (* percentages printed, oldest first *)
}.

Section Step.
(** <stdlib.h>: the constant [RAND_MAX] and the sequence of values
    returned by successive calls of [rand()] after [srand]. *)
Variable RAND_MAX : Z.
Variable rand : nat -> Z.

(** [(double)rand() / RAND_MAX * 2] for a value [r] returned by rand(). *)
Definition sample_coord (r : Z) : float :=
  (double_of_int r / double_of_int RAND_MAX * 2)%float.

Definition set_worker (k : nat) (w : worker) (m : machine) : machine :=
  mkMachine (data m) (<[k := w]> (workers m)) (progress m) (rand_calls m) (printed m).

Definition worker_step (k : nat) (w : worker) (m : machine) : option machine :=
  let d := data m in
  match w_pc w with
  | WLoop =>
      if w_i w <? points_per_thread w then
        let x := sample_coord (rand (rand_calls m)) in
        Some (mkMachine d (<[k := mkWorker (WDrawY x) (w_i w) (points_per_thread w)]> (workers m))
                        (progress m) (S (rand_calls m)) (printed m))
      else
        Some (set_worker k (mkWorker WExit (w_i w) (points_per_thread w)) m)
  | WDrawY x =>
      let y := sample_coord (rand (rand_calls m)) in
      Some (mkMachine d (<[k := mkWorker (WLock (mkPoint x y)) (w_i w) (points_per_thread w)]> (workers m))
                      (progress m) (S (rand_calls m)) (printed m))
  | WLock p =>
      match mutex d with
      | Some _ => None
      | None =>
          Some (mkMachine (set_mutex (Some (Worker k)) d)
                          (<[k := mkWorker (WCount p) (w_i w) (points_per_thread w)]> (workers m))
                          (progress m) (rand_calls m) (printed m))
      end
  | WCount p =>
      Some (mkMachine (set_checked (wrap_int (points_checked d + 1)) d)
                      (<[k := mkWorker (WClassify p) (w_i w) (points_per_thread w)]> (workers m))
                      (progress m) (rand_calls m) (printed m))
  | WClassify p =>
      let d' := if isInsidePolygon (polygon d) (polygon_size d) p
                then set_inside (wrap_int (points_inside d + 1)) d else d in
      Some (mkMachine d'
                      (<[k := mkWorker WUnlock (w_i w) (points_per_thread w)]> (workers m))
                      (progress m) (rand_calls m) (printed m))
  | WUnlock =>
      Some (mkMachine (set_mutex None d)
                      (<[k := mkWorker WLoop (wrap_int (w_i w + 1)) (points_per_thread w)]> (workers m))
                      (progress m) (rand_calls m) (printed m))
  | WExit => None
  end.

Definition progress_step (m : machine) : option machine :=
  let d := data m in
  match progress m with
  | PSleep =>
      match mutex d with
      | Some _ => None
      | None => Some (mkMachine (set_mutex (Some Progress) d) (workers m) PRead
                                (rand_calls m) (printed m))
      end
  | PRead =>
      Some (mkMachine d (workers m) (PUnlock (points_checked d)) (rand_calls m) (printed m))
  | PUnlock checked =>
      Some (mkMachine (set_mutex None d) (workers m) (PPrint checked)
                      (rand_calls m) (printed m))
  | PPrint checked =>
      let pct := Z.quot (wrap_int (checked * 100)) (total_points d) in
      Some (mkMachine d (workers m)
                      (if checked >=? total_points d then PExit else PSleep)
                      (rand_calls m) (printed m ++ [pct]))
  | PExit => None
  end.

(** One statement of thread [t]; [None] when [t] has returned, waits for
    the mutex, or was never created. *)
Definition step (t : thread) (m : machine) : option machine :=
  match t with
  | Worker k =>
      match workers m !! k with
      | Some w => worker_step k w m
      | None => None
      end
  | Progress => progress_step m
  end.

(** A schedule is the order in which the threads get to run a statement;
    a thread that cannot move when its turn comes just loses the turn. *)
Fixpoint run (schedule : list thread) (m : machine) : machine :=
  match schedule with
  | [] => m
  | t :: rest =>
      match step t m with
      | Some m' => run rest m'
      | None => run rest m
      end
  end.
End Step.

Definition worker_exited (w : worker) : bool :=
  match w_pc w with WExit => true | _ => false end.
Definition progress_exited (m : machine) : bool :=
  match progress m with PExit => true | _ => false end.

(** All the [pthread_join] calls of [main] return. *)
Definition all_joined (m : machine) : bool :=
  forallb worker_exited (workers m) && progress_exited m.

End Sampling.
Import Sampling.

(** ** The driver *)

Module Driver.

Definition MAX_POINTS : Z := 1000000.
Definition EXIT_SUCCESS : Z := 0.
Definition EXIT_FAILURE : Z := 1.

(** What the program is given: [argc], [atoi(argv[2])], [atoi(argv[3])],
    whether [open] and [malloc] succeed, and the points of the lines on which
    [sscanf] reads two numbers, in file order. *)
Record Input : Set := mkInput {
  argc : Z;
  num_threads : Z;
  num_pontos_aleatorios : Z;
  open_ok : bool;
  malloc_ok : bool;
  scanned : list Point
}.

(** The messages written to stderr, one per failing return. *)
Inductive error : Set :=
| Usage | InvalidCounts | OpenFailed | MallocFailed | TooManyPoints | InvalidPolygon.

Inductive event : Set :=
| Stderr (e : error)
| Create (t : thread)          (* pthread_create *)
| Progresso (pct : Z)          (* "\rProgresso: %d%%" *)
| AreaEstimada (a : float).    (* the estimate line *)

Record outcome : Set := mkOutcome {
  exit_status : Z;
  events : list event;          (* in program order *)
  final : option machine        (* the threads' machine, once [data] exists *)
}.

(** The read loop: [polygon[n]] is filled and [n] incremented per scanned
    point; reaching [capacity] aborts. *)
Fixpoint read_polygon (capacity : Z) (lines : list Point) (polygon : list Point) (n : Z)
  : option (list Point * Z) :=
  match lines with
  | [] => Some (polygon, n)
  | pt :: rest =>
      let n' := n + 1 in
      if n' >=? capacity then None
      else read_polygon capacity rest (polygon ++ [pt]) n'
  end.

Definition failure (e : error) : outcome :=
  mkOutcome EXIT_FAILURE [Stderr e] None.

(** The state in which the threads start: [data] initialised, every worker
    at the top of its loop with [points_per_thread = data->total_points]. *)
Definition spawn (polygon : list Point) (n : Z) (threads points : Z) : machine :=
  mkMachine (mkSharedData polygon n points 0 0 None)
            (replicate (Z.to_nat threads) (mkWorker WLoop 0 points))
            PSleep 0 [].

Definition created (threads : Z) : list event :=
  map (fun k => Create (Worker k)) (seq 0 (Z.to_nat threads)) ++ [Create Progress].

(** [estimated_area] of [main]. *)
Definition estimated_area (d : SharedData) (num_pontos : Z) : float :=
  let area_of_reference := 4%float in
  (double_of_int (points_inside d) / double_of_int num_pontos * area_of_reference)%float.

Section Main.
Variable RAND_MAX : Z.
Variable rand : nat -> Z.

(** [main]. [None]: the schedule ends before every thread is joined. *)
Definition main (inp : Input) (schedule : list thread) : option outcome :=
  if negb (argc inp =? 4) then Some (failure Usage)
  else if (num_threads inp <=? 0) || (num_pontos_aleatorios inp <=? 0)
  then Some (failure InvalidCounts)
  else if negb (open_ok inp) then Some (failure OpenFailed)
  else if negb (malloc_ok inp) then Some (failure MallocFailed)
  else
    match read_polygon MAX_POINTS (scanned inp) [] 0 with
    | None => Some (failure TooManyPoints)
    | Some (polygon, n) =>
        if n <? 3 then Some (failure InvalidPolygon)
        else
          let m0 := spawn polygon n (num_threads inp) (num_pontos_aleatorios inp) in
          let m := run RAND_MAX rand schedule m0 in
          if all_joined m then
            Some (mkOutcome EXIT_SUCCESS
                    (created (num_threads inp) ++ map Progresso (printed m) ++
                     [AreaEstimada (estimated_area (data m) (num_pontos_aleatorios inp))])
                    (Some m))
          else None
    end.
End Main.

End Driver.
Import Driver.

(** ** The read loop of [main] *)

(** The loop of [main] over [read], [strtok_r] and [sscanf]. A pointer into
    [buffer] is the list of the bytes from it up to the terminator
    [buffer[bytesRead] = '\0'] that [main] writes after each [read]; the
    results of the successive calls of [read] that return more than 0 are
    the [chunks]. *)
Module Loader.

Definition NUL : Byte.byte := Byte.x00.
Definition LF : Byte.byte := Byte.x0a.   (* the delimiter of [strtok_r] *)

(** [s + strspn(s, "\n")]. *)
Fixpoint skip_delim (s : list Byte.byte) : list Byte.byte :=
  match s with
  | b :: rest => if Byte.eqb b LF then skip_delim rest else s
  | [] => []
  end.

(** [s + strcspn(s, "\n")], with the bytes it steps over. *)
Fixpoint until_delim (s : list Byte.byte) : list Byte.byte * list Byte.byte :=
  match s with
  | b :: rest =>
      if Byte.eqb b LF || Byte.eqb b NUL then ([], s)
      else let (token, e) := until_delim rest in (b :: token, e)
  | [] => ([], [])
  end.

(** [strtok_r(s, "\n", &saveptr)], for the first call on [buffer] and the
    later ones on [saveptr]: the line returned ([None] for [NULL]) and the
    new [saveptr]. The delimiter that ends the line is overwritten with a
    terminator, so the line is the C string of the bytes before it. *)
Definition strtok_r (s : list Byte.byte) : option (list Byte.byte) * list Byte.byte :=
  let s1 := skip_delim s in
  match s1 with
  | [] => (None, s1)
  | b :: _ =>
      if Byte.eqb b NUL then (None, s1)
      else
        let (token, e) := until_delim s1 in
        match e with
        | [] => (Some token, e)
        | c :: rest =>
            if Byte.eqb c NUL then (Some token, e)
            else (Some token, rest)
        end
  end.

Section ReadLoop.
(** [sscanf(line, "%lf %lf", &x, &y)]: the two doubles when it returns 2. *)
Variable sscanf_point : list Byte.byte -> option Point.

(** The inner [while (line != NULL)]. Outer [None]: out of fuel; inner
    [None]: the [return EXIT_FAILURE] at [n >= capacity]. As in
    [read_polygon], [polygon] holds the entries [0 .. n - 1] of the array. *)
Fixpoint scan_lines (fuel : nat) (capacity : Z) (line : option (list Byte.byte))
    (saveptr : list Byte.byte) (polygon : list Point) (n : Z)
  : option (option (list Point * Z)) :=
  match line with
  | None => Some (Some (polygon, n))
  | Some l =>
      match fuel with
      | O => None
      | S fuel' =>
          match sscanf_point l with
          | Some pt =>
              let n' := n + 1 in
              if n' >=? capacity then Some None
              else
                let next := strtok_r saveptr in
                scan_lines fuel' capacity (fst next) (snd next) (polygon ++ [pt]) n'
          | None =>
              let next := strtok_r saveptr in
              scan_lines fuel' capacity (fst next) (snd next) polygon n
          end
      end
  end.

(** The outer [while ((bytesRead = read(...)) > 0)]. *)
Fixpoint read_loop (capacity : Z) (chunks : list (list Byte.byte))
    (polygon : list Point) (n : Z) : option (option (list Point * Z)) :=
  match chunks with
  | [] => Some (Some (polygon, n))
  | chunk :: rest =>
      let buffer := chunk ++ [NUL] in
      let first := strtok_r buffer in
      match scan_lines (length buffer) capacity (fst first) (snd first) polygon n with
      | Some (Some (polygon', n')) => read_loop capacity rest polygon' n'
      | stopped => stopped
      end
  end.
End ReadLoop.

End Loader.
Import Loader.

(** * Vocabulary of the properties *)

(** ** Polygons and the edge loop *)

(** The unit square, the polygon of the concrete runs below. *)
Definition unit_square : list Point :=
  [mkPoint 0 0; mkPoint 1 0; mkPoint 1 1; mkPoint 0 1].

(** The L-shaped hexagon: the square [0,2] x [0,2] without its upper right
    quarter. *)
Definition ell_hexagon : list Point :=
  [mkPoint 0 0; mkPoint 2 0; mkPoint 2 1; mkPoint 1 1; mkPoint 1 2; mkPoint 0 2].

(** The index after [i] on the closed loop of [n] vertices. *)
Definition next_index (n i : Z) : Z := Z.rem (i + 1) n.

(** Edge [i] is hit by the ray of [p] and has [p] on its supporting line: the
    condition under which the loop of [isInsidePolygon] returns early. *)
Definition colinear_hit (polygon : list Point) (n : Z) (p : Point) (i : Z) : bool :=
  doIntersect (vertex polygon i) (vertex polygon (next_index n i)) p (extreme_of p)
  && (orientation (vertex polygon i) p (vertex polygon (next_index n i)) =? 0).

(** ** Concrete schedules and random values *)

(** A sequence of values in [0, 32767] for concrete runs. *)
Definition lcg_rand (k : nat) : Z := (Z.of_nat k * 7919 + 13) mod 32768.

(** Worker [k] runs [n] iterations of its loop, six statements each, then
    the loop test that makes it return. *)
Definition worker_alone (k n : nat) : list thread :=
  concat (replicate n (replicate 6 (Worker k))) ++ [Worker k].

(** The progress thread locks, reads, unlocks and prints once. *)
Definition progress_alone : list thread := replicate 4 Progress.

(** ** Order of the binary64 values *)

(** A key for every float that is not a NaN: class (negative infinity,
    negative, zero, positive, positive infinity), then exponent and mantissa
    with the sign applied. The comparisons of IEEE 754 are the lexicographic
    order of the keys. *)
Definition SFkey (x : spec_float) : option (Z * Z * Z) :=
  match x with
  | S754_nan => None
  | S754_infinity true => Some (-2, 0, 0)
  | S754_finite true m e => Some (-1, - e, Zneg m)
  | S754_zero _ => Some (0, 0, 0)
  | S754_finite false m e => Some (1, e, Zpos m)
  | S754_infinity false => Some (2, 0, 0)
  end.

Definition key_compare (k1 k2 : Z * Z * Z) : comparison :=
  let '(c1, e1, m1) := k1 in
  let '(c2, e2, m2) := k2 in
  match c1 ?= c2 with
  | Eq => match e1 ?= e2 with
          | Eq => m1 ?= m2
          | c => c
          end
  | c => c
  end.

Definition key_le (k1 k2 : Z * Z * Z) : Prop :=
  let '(c1, e1, m1) := k1 in
  let '(c2, e2, m2) := k2 in
  c1 < c2 \/ (c1 = c2 /\ (e1 < e2 \/ (e1 = e2 /\ m1 <= m2))).

Definition key_lt (k1 k2 : Z * Z * Z) : Prop :=
  let '(c1, e1, m1) := k1 in
  let '(c2, e2, m2) := k2 in
  c1 < c2 \/ (c1 = c2 /\ (e1 < e2 \/ (e1 = e2 /\ m1 < m2))).

Definition fkey (x : float) : option (Z * Z * Z) := SFkey (Prim2SF x).

(** ** Bounding boxes *)

Definition no_nan (p : Point) : Prop :=
  is_nan (px p) = false /\ is_nan (py p) = false.

(** [x] lies between [a] and [b], whichever of the two is the smaller. *)
Definition between (a x b : float) : bool :=
  ((a <=? x)%float && (x <=? b)%float) || ((b <=? x)%float && (x <=? a)%float).

(** ** Exact values and collinearity *)

(** The rational number a finite float stands for. *)
Definition pow2 (e : Z) : Q :=
  match e with
  | Z0 => 1%Q
  | Zpos p => inject_Z (Z.pow_pos 2 p)
  | Zneg p => (1 # Pos.pow 2 p)%Q
  end.

Definition SF2Q (x : spec_float) : option Q :=
  match x with
  | S754_zero _ => Some 0%Q
  | S754_finite s m e => Some (inject_Z (cond_Zopp s (Zpos m)) * pow2 e)%Q
  | S754_infinity _ | S754_nan => None
  end.

Definition F2Q (x : float) : option Q := SF2Q (Prim2SF x).

(** The cross product of [orientation] over the rationals. *)
Definition Qcross (xp yp xq yq xr yr : Q) : Q :=
  ((yq - yp) * (xr - xq) - (xq - xp) * (yr - yq))%Q.

Definition exact_cross (p q r : Point) : option Q :=
  match F2Q (px p), F2Q (py p), F2Q (px q), F2Q (py q), F2Q (px r), F2Q (py r) with
  | Some xp, Some yp, Some xq, Some yq, Some xr, Some yr =>
      Some (Qcross xp yp xq yq xr yr)
  | _, _, _, _, _, _ => None
  end.

(** The double [val] of [orientation p q r] carries no rounding error. *)
Definition cross_exactb (p q r : Point) : bool :=
  match F2Q (cross p q r), exact_cross p q r with
  | Some v, Some e => Qeq_bool v e
  | _, _ => false
  end.

(** The three points lie on one line, in exact arithmetic. *)
Definition collinear (p q r : Point) : Prop :=
  exists e, exact_cross p q r = Some e /\ (e == 0)%Q.

(** ** Rounding *)

(** Nothing has been shifted out: both the round and the sticky bit are 0. *)
Definition exact_record (mrs : shr_record) : Prop :=
  shr_r mrs = false /\ shr_s mrs = false.

(** [m * 2 ^ e <= 2 ^ k], and [(m + 1) * 2 ^ e <= 2 ^ k], for a mantissa
    [m >= 0], without leaving the integers. *)
Definition below (m e k : Z) : Prop :=
  m = 0 \/ (e <= k /\ m <= 2 ^ (k - e)).

Definition strictly_below (m e k : Z) : Prop :=
  e <= k /\ m < 2 ^ (k - e).

(** ** The sampling domain *)

(** A coordinate in [0, 2], a point in the square [0,2] x [0,2]. *)
Definition in_range (x : float) : Prop :=
  (0 <=? x)%float = true /\ (x <=? 2)%float = true.

Definition in_domain (p : Point) : Prop := in_range (px p) /\ in_range (py p).

(** What a worker holds between drawing a sample and counting it. *)
Definition pending_ok (w : worker) : Prop :=
  match w_pc w with
  | WDrawY x => in_range x
  | WLock p | WCount p | WClassify p => in_domain p
  | WLoop | WUnlock | WExit => True
  end.

(** ** Progress of the workers *)

(** Samples a worker has added to [points_checked] so far. *)
Definition contributed (w : worker) : Z :=
  w_i w + match w_pc w with WClassify _ | WUnlock => 1 | _ => 0 end.

Definition total_contributed (ws : list worker) : Z :=
  fold_right (fun w acc => contributed w + acc) 0 ws.

(** Where a worker stands in its loop of [t] iterations. *)
Definition worker_ok (t : Z) (w : worker) : Prop :=
  points_per_thread w = t /\ 0 <= w_i w <= t /\
  match w_pc w with
  | WLoop => True
  | WExit => w_i w = t
  | _ => w_i w < t
  end.

Definition counters_inv (t : Z) (m : machine) : Prop :=
  Forall (worker_ok t) (workers m) /\
  points_checked (data m) = wrap_int (total_contributed (workers m)).

(** The polygon and the configured total are never written. *)
Definition same_config (m m' : machine) : Prop :=
  polygon (data m') = polygon (data m) /\
  polygon_size (data m') = polygon_size (data m) /\
  total_points (data m') = total_points (data m).

(** Samples of a worker whose classification is already in [points_inside]. *)
Definition classified (w : worker) : Z :=
  w_i w + match w_pc w with WUnlock => 1 | _ => 0 end.

Definition total_classified (ws : list worker) : Z :=
  fold_right (fun w acc => classified w + acc) 0 ws.

(** [0 <= points_inside <= points_checked], both within the samples the
    workers have dealt with so far. *)
Definition ordered_inv (m : machine) : Prop :=
  0 <= points_inside (data m) <= total_classified (workers m) /\
  points_checked (data m) = total_contributed (workers m).

(** A worker as [pthread_create] starts it, and once it has returned. *)
Definition fresh (t : Z) : worker := mkWorker WLoop 0 t.

Definition exited (t : Z) : worker := mkWorker WExit t t.

(** Worker 0 first, then the progress thread, then the other workers in
    turn: one order in which all joins return. *)
Definition sequential (threads : nat) (t : Z) : list thread :=
  worker_alone 0 (Z.to_nat t) ++ progress_alone ++
  concat (map (fun k => worker_alone k (Z.to_nat t)) (seq 1 (threads - 1))).

(** ** Crossings of the ray *)

(** Edge [i] is met by the ray from [p] to (2.5, p.y). *)
Definition ray_hit (polygon : list Point) (n : Z) (p : Point) (i : Z) : bool :=
  doIntersect (vertex polygon i) (vertex polygon (next_index n i)) p (extreme_of p).

(** The edges of the polygon the ray meets, by index. *)
Definition crossing_edges (polygon : list Point) (n : Z) (p : Point) : list nat :=
  List.filter (fun i => ray_hit polygon n p (Z.of_nat i)) (seq 0 (Z.to_nat n)).

(** ** The critical sections *)

(** A worker between its [pthread_mutex_lock] and [pthread_mutex_unlock]. *)
Definition in_critical (w : worker) : bool :=
  match w_pc w with
  | WCount _ | WClassify _ | WUnlock => true
  | WLoop | WDrawY _ | WLock _ | WExit => false
  end.

Definition progress_critical (pc : progress_pc) : bool :=
  match pc with
  | PRead | PUnlock _ => true
  | PSleep | PPrint _ | PExit => false
  end.

(** Thread [th] is inside its critical section. *)
Definition critical (m : machine) (th : thread) : bool :=
  match th with
  | Worker k => match workers m !! k with
                | Some w => in_critical w
                | None => false
                end
  | Progress => progress_critical (progress m)
  end.

(** The threads inside a critical section are the owner of the mutex. *)
Definition lock_inv (m : machine) : Prop :=
  forall th, critical m th = true <-> mutex (data m) = Some th.

(** ** Reachable states of the sampling engine *)

(** What every state reached from [spawn] satisfies when [threads * t] fits
    an [int]. *)
Definition engine_inv (threads t : Z) (m : machine) : Prop :=
  length (workers m) = Z.to_nat threads /\ counters_inv t m /\ ordered_inv m.

(** Calls of [rand()] a worker has made: two for each finished iteration,
    and those of the iteration under way. *)
Definition draws (w : worker) : Z :=
  2 * w_i w +
  match w_pc w with
  | WLoop | WExit => 0
  | WDrawY _ => 1
  | WLock _ | WCount _ | WClassify _ | WUnlock => 2
  end.

Definition worker_sum (f : worker -> Z) (ws : list worker) : Z :=
  fold_right (fun w acc => f w + acc) 0 ws.

(** ** The progress line *)

(** The percentages printed so far: all below 100 while the progress thread
    loops; once it has returned, the last one, and only that, is at least
    100. *)
Definition progress_log (finished : bool) (out : list Z) : Prop :=
  if finished
  then exists init last,
         out = init ++ [last] /\ Forall (fun p => p < 100) init /\ 100 <= last
  else Forall (fun p => p < 100) out.

(** The value of [points_checked] the progress thread works with: its local
    [checked] between the read and the test, the counter itself otherwise. *)
Definition seen (m : machine) : Z :=
  match progress m with
  | PUnlock c | PPrint c => c
  | PSleep | PRead | PExit => points_checked (data m)
  end.

Definition progress_inv (t : Z) (m : machine) : Prop :=
  total_points (data m) = t /\
  StronglySorted Z.le (printed m) /\
  progress_log (progress_exited m) (printed m) /\
  0 <= seen m <= points_checked (data m) /\
  Forall (fun p => 0 <= p <= Z.quot (seen m * 100) t) (printed m).

(** ** Lines of the polygon file *)

(** The C string at the start of [s]: the bytes before the first
    terminator. *)
Fixpoint c_string (s : list Byte.byte) : list Byte.byte :=
  match s with
  | [] => []
  | b :: rest => if Byte.eqb b NUL then [] else b :: c_string rest
  end.

(** The pieces of [s] between line feeds, empty ones included. *)
Fixpoint split_lf (s : list Byte.byte) : list (list Byte.byte) :=
  match s with
  | [] => [[]]
  | b :: rest =>
      if Byte.eqb b LF then [] :: split_lf rest
      else match split_lf rest with
           | l :: ls => (b :: l) :: ls
           | [] => [[b]]
           end
  end.

Definition nonempty (l : list Byte.byte) : bool :=
  match l with [] => false | _ :: _ => true end.

(** The non-empty lines of [s]. *)
Definition lines_of (s : list Byte.byte) : list (list Byte.byte) :=
  List.filter nonempty (split_lf s).

(** The points [sscanf] gets out of the lines of each chunk, chunk by
    chunk. *)
Definition scanned_points (sscanf_point : list Byte.byte -> option Point)
    (chunks : list (list Byte.byte)) : list Point :=
  concat (map (fun chunk => omap sscanf_point (lines_of (c_string chunk))) chunks).

(** The lines "0 0" and "2 0" of the concrete runs. *)
Definition line_0_0 : list Byte.byte := [Byte.x30; Byte.x20; Byte.x30].
Definition line_2_0 : list Byte.byte := [Byte.x32; Byte.x20; Byte.x30].

(** A stand-in for [sscanf] in the concrete runs: a line of two digits
    among 0, 1 and 2 with one space between them is the point they denote;
    nothing else is scanned. *)
Definition digit (b : Byte.byte) : option float :=
  match b with
  | Byte.x30 => Some 0%float
  | Byte.x31 => Some 1%float
  | Byte.x32 => Some 2%float
  | _ => None
  end.

Definition digit_point (line : list Byte.byte) : option Point :=
  match line with
  | [a; Byte.x20; b] =>
      match digit a, digit b with
      | Some x, Some y => Some (mkPoint x y)
      | _, _ => None
      end
  | _ => None
  end.

(** ** The samples of a single worker *)

(** The [i]-th point a lone worker draws: calls [2 i] and [2 i + 1] of
    [rand()]. *)
Definition sample_point (RAND_MAX : Z) (rand : nat -> Z) (i : nat) : Point :=
  mkPoint (sample_coord RAND_MAX (rand (2 * i)%nat))
          (sample_coord RAND_MAX (rand (2 * i + 1)%nat)).

(** How many of the first [k] of them [isInsidePolygon] accepts. *)
Definition inside_count (RAND_MAX : Z) (rand : nat -> Z) (poly : list Point) (size : Z)
    (k : nat) : Z :=
  Z.of_nat (length (List.filter
                      (fun i => isInsidePolygon poly size (sample_point RAND_MAX rand i))
                      (seq 0 k))).

Definition single_inv (RAND_MAX : Z) (rand : nat -> Z) (poly : list Point) (size t : Z)
    (m : machine) : Prop :=
  polygon (data m) = poly /\ polygon_size (data m) = size /\
  exists w,
    workers m = [w] /\ worker_ok t w /\
    rand_calls m = Z.to_nat (draws w) /\
    points_inside (data m) =
      inside_count RAND_MAX rand poly size (Z.to_nat (classified w)) /\
    match w_pc w with
    | WDrawY x => x = sample_coord RAND_MAX (rand (2 * Z.to_nat (w_i w))%nat)
    | WLock p | WCount p | WClassify p =>
        p = sample_point RAND_MAX rand (Z.to_nat (w_i w))
    | WLoop | WUnlock | WExit => True
    end.

(** ** Statements left to run *)

(** The statements a worker still has to run before it returns: six per
    iteration and the last test of its loop. *)
Definition remaining (w : worker) : Z :=
  let iterations := points_per_thread w - w_i w in
  match w_pc w with
  | WLoop => 6 * iterations + 1
  | WDrawY _ => 6 * iterations
  | WLock _ => 6 * iterations - 1
  | WCount _ => 6 * iterations - 2
  | WClassify _ => 6 * iterations - 3
  | WUnlock => 6 * iterations - 4
  | WExit => 0
  end.

(** What the threads keep, whatever the counters do. *)
Definition live_inv (threads t : Z) (m : machine) : Prop :=
  length (workers m) = Z.to_nat threads /\ counters_inv t m /\ lock_inv m /\
  total_points (data m) = t.

(** * Properties *)

(** ** Geometry kernel *)

Lemma next_index_step n i : 0 <= i -> i + 1 < n -> next_index n i = i + 1.
Proof. intros Hi Hn. unfold next_index. apply Z.rem_small. lia. Qed.

Lemma next_index_wrap n i : 0 < n -> i + 1 = n -> next_index n i = 0.
Proof.
  intros Hn Hi. unfold next_index. rewrite Hi. apply Z.rem_same. lia.
Qed.

(** The loop ends: from index [i] it needs [n - i] iterations at most. *)
Lemma edge_loop_total polygon n p e :
  forall fuel count i,
    0 <= i < n -> (Z.to_nat (n - i) <= fuel)%nat ->
    exists b, edge_loop fuel polygon n p e count i = Some b.
Proof.
  induction fuel as [|fuel IH]; intros count i Hi Hf.
  - lia.
  - cbn [edge_loop].
    destruct (doIntersect _ _ _ _ && _); [eauto|].
    destruct (Z.eq_dec (i + 1) n) as [Heq|Hne].
    + rewrite Heq, Z.rem_same by lia. cbn. eauto.
    + rewrite Z.rem_small by lia.
      destruct (i + 1 =? 0) eqn:E; [eauto|].
      apply IH; lia.
Qed.

Lemma isInsidePolygon_fuel_total polygon n p :
  exists b, isInsidePolygon_fuel (Z.to_nat n) polygon n p = Some b.
Proof.
  unfold isInsidePolygon_fuel. destruct (n <? 3) eqn:E; [eauto|].
  apply Z.ltb_ge in E. apply edge_loop_total; [lia|].
  replace (n - 0) with n by lia. lia.
Qed.

(** The first edge that is a colinear hit decides the loop. *)
Lemma edge_loop_first_colinear_hit polygon n p :
  forall fuel count i k,
    0 <= i <= k -> k < n -> (Z.to_nat (n - i) <= fuel)%nat ->
    colinear_hit polygon n p k = true ->
    (forall j, i <= j < k -> colinear_hit polygon n p j = false) ->
    edge_loop fuel polygon n p (extreme_of p) count i =
      Some (onSegment (vertex polygon k) p (vertex polygon (next_index n k))).
Proof.
  induction fuel as [|fuel IH]; intros count i k Hik Hk Hf Hhit Hbefore.
  - lia.
  - cbn [edge_loop].
    destruct (Z.eq_dec i k) as [->|Hne].
    + unfold colinear_hit, next_index in Hhit. rewrite Hhit. reflexivity.
    + assert (Hi : colinear_hit polygon n p i = false) by (apply Hbefore; lia).
      unfold colinear_hit, next_index in Hi. rewrite Hi.
      rewrite Z.rem_small by lia.
      destruct (i + 1 =? 0) eqn:E; [lia|].
      apply IH; try lia; auto.
      intros j Hj. apply Hbefore. lia.
Qed.

(** C4. A polygon of fewer than three vertices contains no point:
    [isInsidePolygon] returns false whatever the query point. *)
Theorem isInsidePolygon_fails_closed (polygon : list Point) (n : Z) (p : Point) :
  n < 3 -> isInsidePolygon polygon n p = false.
Proof.
  intros Hn. unfold isInsidePolygon, isInsidePolygon_fuel.
  apply Z.ltb_lt in Hn. rewrite Hn. reflexivity.
Qed.

Lemma isInsidePolygon_fails_closed_witness :
  isInsidePolygon [mkPoint 0 0; mkPoint 1 1] 2 (mkPoint 0.5 0.5) = false.
Proof. apply isInsidePolygon_fails_closed. lia. Defined.

(** C6. [doIntersect] does not depend on the order of its two segments. *)
Theorem doIntersect_symmetric (a b c d : Point) :
  doIntersect a b c d = doIntersect c d a b.
Proof.
  unfold doIntersect.
  destruct (orientation a b c =? orientation a b d),
           (orientation c d a =? orientation c d b),
           (orientation a b c =? 0), (orientation a b d =? 0),
           (orientation c d a =? 0), (orientation c d b =? 0),
           (onSegment a c b), (onSegment a d b),
           (onSegment c a d), (onSegment c b d); reflexivity.
Qed.

(** C3, as the claim states it, fails: in the L-shaped hexagon the point
    (1, 0.5) is colinear with the edge from (1,1) to (1,2) and outside that
    edge's bounding box, yet the ray does not meet the edge, no early return
    happens, and the crossing count classifies the point as inside. *)
Lemma colinear_edge_not_decisive :
  let p := mkPoint 1 0.5 in
  3 <= Z.of_nat (length ell_hexagon) /\
  orientation (vertex ell_hexagon 3) p (vertex ell_hexagon 4) = COLINEAR /\
  onSegment (vertex ell_hexagon 3) p (vertex ell_hexagon 4) = false /\
  isInsidePolygon ell_hexagon 6 p = true /\
  isInsidePolygon ell_hexagon 6 p <>
    onSegment (vertex ell_hexagon 3) p (vertex ell_hexagon 4).
Proof. vm_compute. repeat split; discriminate. Qed.

(** C3, amended. For a polygon of [n >= 3] vertices: if edge [k] is the
    first edge, in traversal order, that the ray from [p] to (2.5, p.y)
    intersects while [p] is colinear with its endpoints, then
    [isInsidePolygon] returns [onSegment] of [p] against that edge. *)
Theorem isInsidePolygon_first_colinear_hit
  (polygon : list Point) (n : Z) (p : Point) (k : Z) :
  n = Z.of_nat (length polygon) -> 3 <= n -> 0 <= k < n ->
  colinear_hit polygon n p k = true ->
  (forall j, 0 <= j < k -> colinear_hit polygon n p j = false) ->
  isInsidePolygon polygon n p =
    onSegment (vertex polygon k) p (vertex polygon (next_index n k)).
Proof.
  intros _ Hn Hk Hhit Hbefore.
  unfold isInsidePolygon, isInsidePolygon_fuel.
  destruct (n <? 3) eqn:E; [apply Z.ltb_lt in E; lia|].
  rewrite (edge_loop_first_colinear_hit polygon n p (Z.to_nat n) 0 0 k);
    auto; lia.
Qed.

(** On the unit square the point (1, 0.5) lies on the right-hand edge, the
    first edge its ray meets. *)
Lemma isInsidePolygon_first_colinear_hit_witness :
  isInsidePolygon unit_square 4 (mkPoint 1 0.5) =
    onSegment (vertex unit_square 1) (mkPoint 1 0.5) (vertex unit_square (next_index 4 1)).
Proof.
  apply isInsidePolygon_first_colinear_hit.
  - reflexivity.
  - lia.
  - lia.
  - vm_compute. reflexivity.
  - intros j Hj. assert (j = 0) as -> by lia. vm_compute. reflexivity.
Defined.

(** ** Binary64 comparisons *)

Lemma SFcompare_key (x y : spec_float) :
  SFcompare x y =
    match SFkey x, SFkey y with
    | Some k1, Some k2 => Some (key_compare k1 k2)
    | _, _ => None
    end.
Proof.
  destruct x as [[]|[]| |[] mx ex], y as [[]|[]| |[] my ey]; try reflexivity.
  cbn. rewrite Z.compare_opp, (Z.compare_antisym ex ey).
  destruct (ex ?= ey); reflexivity.
Qed.

Lemma key_compare_le k1 k2 : key_compare k1 k2 <> Gt <-> key_le k1 k2.
Proof.
  destruct k1 as [[c1 e1] m1], k2 as [[c2 e2] m2]. unfold key_compare, key_le.
  destruct (Z.compare_spec c1 c2), (Z.compare_spec e1 e2), (Z.compare_spec m1 m2);
    split; intros Hc; try lia; try discriminate; try congruence.
Qed.

Lemma key_compare_lt k1 k2 : key_compare k1 k2 = Lt <-> key_lt k1 k2.
Proof.
  destruct k1 as [[c1 e1] m1], k2 as [[c2 e2] m2]. unfold key_compare, key_lt.
  destruct (Z.compare_spec c1 c2), (Z.compare_spec e1 e2), (Z.compare_spec m1 m2);
    split; intros Hc; try lia; try discriminate; try congruence.
Qed.

Lemma key_compare_eq k1 k2 : key_compare k1 k2 = Eq <-> k1 = k2.
Proof.
  destruct k1 as [[c1 e1] m1], k2 as [[c2 e2] m2]. unfold key_compare.
  destruct (Z.compare_spec c1 c2), (Z.compare_spec e1 e2), (Z.compare_spec m1 m2);
    split; intros Hc; try discriminate; try congruence;
    injection Hc; intros; lia.
Qed.

Lemma leb_fkey (x y : float) :
  (x <=? y)%float = true <->
  exists k1 k2, fkey x = Some k1 /\ fkey y = Some k2 /\ key_le k1 k2.
Proof.
  rewrite FloatAxioms.leb_spec. unfold SFleb, fkey. rewrite SFcompare_key.
  destruct (SFkey (Prim2SF x)) as [k1|], (SFkey (Prim2SF y)) as [k2|].
  - pose proof (key_compare_le k1 k2) as Hle.
    split.
    + intros H. exists k1, k2. repeat split. apply Hle.
      destruct (key_compare k1 k2); congruence.
    + intros (k1' & k2' & H1 & H2 & H). injection H1 as <-. injection H2 as <-.
      apply Hle in H. destruct (key_compare k1 k2); congruence.
  - split; [discriminate|]. intros (? & ? & _ & H & _). discriminate.
  - split; [discriminate|]. intros (? & ? & H & _). discriminate.
  - split; [discriminate|]. intros (? & ? & H & _). discriminate.
Qed.

Lemma ltb_fkey (x y : float) :
  (x <? y)%float = true <->
  exists k1 k2, fkey x = Some k1 /\ fkey y = Some k2 /\ key_lt k1 k2.
Proof.
  rewrite FloatAxioms.ltb_spec. unfold SFltb, fkey. rewrite SFcompare_key.
  destruct (SFkey (Prim2SF x)) as [k1|], (SFkey (Prim2SF y)) as [k2|].
  - pose proof (key_compare_lt k1 k2) as Hlt.
    split.
    + intros H. exists k1, k2. repeat split. apply Hlt.
      destruct (key_compare k1 k2); congruence.
    + intros (k1' & k2' & H1 & H2 & H). injection H1 as <-. injection H2 as <-.
      apply Hlt in H. rewrite H. reflexivity.
  - split; [discriminate|]. intros (? & ? & _ & H & _). discriminate.
  - split; [discriminate|]. intros (? & ? & H & _). discriminate.
  - split; [discriminate|]. intros (? & ? & H & _). discriminate.
Qed.

Lemma eqb_fkey (x y : float) :
  (x =? y)%float = true <-> exists k, fkey x = Some k /\ fkey y = Some k.
Proof.
  rewrite FloatAxioms.eqb_spec. unfold SFeqb, fkey. rewrite SFcompare_key.
  destruct (SFkey (Prim2SF x)) as [k1|], (SFkey (Prim2SF y)) as [k2|].
  - pose proof (key_compare_eq k1 k2) as Heq.
    split.
    + intros H. exists k1. split; [reflexivity|]. f_equal. symmetry. apply Heq.
      destruct (key_compare k1 k2); congruence.
    + intros (k & H1 & H2). injection H1 as <-. injection H2 as <-.
      rewrite (proj2 Heq eq_refl). reflexivity.
  - split; [discriminate|]. intros (? & _ & H). discriminate.
  - split; [discriminate|]. intros (? & H & _). discriminate.
  - split; [discriminate|]. intros (? & H & _). discriminate.
Qed.

Lemma is_nan_fkey (x : float) : is_nan x = false <-> exists k, fkey x = Some k.
Proof.
  unfold is_nan. rewrite negb_false_iff, eqb_fkey.
  split; [intros (k & H & _); eauto|intros (k & H); eauto].
Qed.

Lemma leb_keys (x y : float) (k1 k2 : Z * Z * Z) :
  fkey x = Some k1 -> fkey y = Some k2 ->
  ((x <=? y)%float = true <-> key_le k1 k2).
Proof.
  intros H1 H2. rewrite leb_fkey. split.
  - intros (k1' & k2' & H1' & H2' & H). congruence.
  - intros H. exists k1, k2. auto.
Qed.

Lemma ltb_keys (x y : float) (k1 k2 : Z * Z * Z) :
  fkey x = Some k1 -> fkey y = Some k2 ->
  ((x <? y)%float = true <-> key_lt k1 k2).
Proof.
  intros H1 H2. rewrite ltb_fkey. split.
  - intros (k1' & k2' & H1' & H2' & H). congruence.
  - intros H. exists k1, k2. auto.
Qed.

Lemma leb_nan_l (x y : float) : fkey x = None -> (x <=? y)%float = false.
Proof.
  intros H. destruct (x <=? y)%float eqn:E; [|reflexivity].
  apply leb_fkey in E as (? & ? & E & _). congruence.
Qed.

Lemma leb_nan_r (x y : float) : fkey y = None -> (x <=? y)%float = false.
Proof.
  intros H. destruct (x <=? y)%float eqn:E; [|reflexivity].
  apply leb_fkey in E as (? & ? & _ & E & _). congruence.
Qed.

(** ** [onSegment] and the bounding box *)

Lemma fmax_fmin_between (a x b : float) :
  is_nan a = false -> is_nan b = false ->
  (x <=? fmax a b)%float && (fmin a b <=? x)%float = between a x b.
Proof.
  intros Ha Hb. unfold fmax, fmin, between. rewrite Ha, Hb.
  apply is_nan_fkey in Ha as [ka Ha], Hb as [kb Hb].
  destruct (fkey x) as [kx|] eqn:Hx.
  - pose proof (leb_keys a x _ _ Ha Hx) as Hax.
    pose proof (leb_keys x a _ _ Hx Ha) as Hxa.
    pose proof (leb_keys b x _ _ Hb Hx) as Hbx.
    pose proof (leb_keys x b _ _ Hx Hb) as Hxb.
    pose proof (ltb_keys a b _ _ Ha Hb) as Hab.
    pose proof (ltb_keys b a _ _ Hb Ha) as Hba.
    destruct ka as [[ca ea] ma], kb as [[cb eb] mb], kx as [[cx ex] mx].
    unfold key_le, key_lt in *.
    destruct (a <? b)%float, (b <? a)%float,
             (a <=? x)%float, (x <=? a)%float, (b <=? x)%float, (x <=? b)%float;
      try reflexivity; exfalso;
      repeat match goal with
             | H : true = true <-> _ |- _ => apply proj1 in H; specialize (H eq_refl)
             | H : false = true <-> ?P |- _ =>
                 assert (~ P) by (intros HP; apply H in HP; discriminate); clear H
             end; lia.
  - rewrite !(leb_nan_l x) by assumption. rewrite !(leb_nan_r _ x) by assumption.
    destruct (a <? b)%float, (b <? a)%float; reflexivity.
Qed.

(** C7. [onSegment p q r] is true exactly when [q] lies in the axis-aligned
    bounding box of [p] and [r]: between [fmin] and [fmax] of their
    coordinates, which for coordinates that are numbers means between the two
    coordinates in either order. The test does not look at colinearity:
    (1, 0) is in the box of (0, 0) and (1, 1) and off their line. *)
Theorem onSegment_bounding_box (p q r : Point) :
  (onSegment p q r = true <->
     (fmin (px p) (px r) <=? px q)%float = true /\
     (px q <=? fmax (px p) (px r))%float = true /\
     (fmin (py p) (py r) <=? py q)%float = true /\
     (py q <=? fmax (py p) (py r))%float = true) /\
  (no_nan p -> no_nan r ->
     (onSegment p q r = true <->
        between (px p) (px q) (px r) = true /\ between (py p) (py q) (py r) = true)) /\
  (exists p' q' r',
     onSegment p' q' r' = true /\ orientation p' q' r' <> COLINEAR).
Proof.
  split; [|split].
  - unfold onSegment.
    destruct (px q <=? fmax (px p) (px r))%float,
             (fmin (px p) (px r) <=? px q)%float,
             (py q <=? fmax (py p) (py r))%float,
             (fmin (py p) (py r) <=? py q)%float; cbn; intuition discriminate.
  - intros [Hpx Hpy] [Hrx Hry]. unfold onSegment.
    rewrite <- (fmax_fmin_between (px p) (px q) (px r) Hpx Hrx).
    rewrite <- (fmax_fmin_between (py p) (py q) (py r) Hpy Hry).
    destruct (px q <=? fmax (px p) (px r))%float,
             (fmin (px p) (px r) <=? px q)%float,
             (py q <=? fmax (py p) (py r))%float,
             (fmin (py p) (py r) <=? py q)%float; cbn; intuition discriminate.
  - exists (mkPoint 0 0), (mkPoint 1 0), (mkPoint 1 1).
    vm_compute. split; [reflexivity|discriminate].
Qed.

(** The centre of the square lies in the box of its diagonal. *)
Lemma onSegment_bounding_box_witness :
  onSegment (mkPoint 0 1) (mkPoint 0.5 0.5) (mkPoint 1 0) = true <->
  between 0 0.5 1 = true /\ between 1 0.5 0 = true.
Proof.
  apply (proj1 (proj2 (onSegment_bounding_box
                         (mkPoint 0 1) (mkPoint 0.5 0.5) (mkPoint 1 0))));
    split; reflexivity.
Defined.

Example onSegment_bounding_box_square :
  onSegment (mkPoint 0 1) (mkPoint 0.5 0.5) (mkPoint 1 0) = true /\
  between 0 0.5 1 = true /\ between 1 0.5 0 = true /\
  onSegment (mkPoint 0 1) (mkPoint 1.5 0.5) (mkPoint 1 0) = false /\
  between 0 1.5 1 = false.
Proof. vm_compute. repeat split. Qed.

(** ** [orientation] and the exact cross product *)

Lemma pow2_num_pos (e : Z) : 0 < Qnum (pow2 e).
Proof.
  destruct e as [|p|p]; cbn; lia.
Qed.

Lemma Qnum_sign (v : Q) :
  ((v == 0)%Q <-> Qnum v = 0) /\ ((0 < v)%Q <-> 0 < Qnum v) /\ ((v < 0)%Q <-> Qnum v < 0).
Proof. unfold Qeq, Qlt. cbn. repeat split; lia. Qed.

(** Comparing a finite float with zero compares the number it stands for. *)
Lemma F2Q_zero_tests (c : float) (v : Q) :
  F2Q c = Some v ->
  ((c =? 0)%float = true <-> (v == 0)%Q) /\
  ((0 <? c)%float = true <-> (0 < v)%Q).
Proof.
  unfold F2Q. intros Hv.
  rewrite FloatAxioms.eqb_spec, FloatAxioms.ltb_spec.
  change (Prim2SF 0) with (S754_zero false).
  pose proof (Qnum_sign v) as (Hz & Hp & _). rewrite Hz, Hp.
  destruct (Prim2SF c) as [s|s| |s m e]; try discriminate; injection Hv as <-.
  - cbn. split; split; (reflexivity || discriminate || lia).
  - pose proof (pow2_num_pos e) as He.
    destruct s; cbn; split; split; try discriminate; nia.
Qed.

Lemma orientation_of_value (p q r : Point) (v : Q) :
  F2Q (cross p q r) = Some v ->
  (orientation p q r = COLINEAR <-> (v == 0)%Q) /\
  (orientation p q r = CLOCKWISE <-> (0 < v)%Q) /\
  (orientation p q r = COUNTERCLOCKWISE <-> (v < 0)%Q).
Proof.
  intros Hv. destruct (F2Q_zero_tests _ _ Hv) as [Hz Hp].
  unfold orientation, COLINEAR, CLOCKWISE, COUNTERCLOCKWISE.
  destruct (cross p q r =? 0)%float, (0 <? cross p q r)%float.
  - assert (v == 0)%Q by (apply Hz; reflexivity).
    repeat split; intros; try discriminate; try reflexivity; try assumption; lra.
  - assert (v == 0)%Q by (apply Hz; reflexivity).
    repeat split; intros; try discriminate; try reflexivity; try assumption; lra.
  - assert (0 < v)%Q by (apply Hp; reflexivity).
    repeat split; intros; try discriminate; try reflexivity; try assumption; lra.
  - assert (~ (v == 0)%Q) by (intros H; apply Hz in H; discriminate).
    assert (~ (0 < v)%Q) by (intros H0; apply Hp in H0; discriminate).
    repeat split; intros; try discriminate; try reflexivity; try lra.
Qed.

Lemma Qcross_swap (xp yp xq yq xr yr : Q) :
  (Qcross xp yp xr yr xq yq == - Qcross xp yp xq yq xr yr)%Q.
Proof. unfold Qcross. ring. Qed.

Lemma exact_cross_swap (p q r : Point) (e : Q) :
  exact_cross p q r = Some e ->
  exists e', exact_cross p r q = Some e' /\ (e' == - e)%Q.
Proof.
  unfold exact_cross.
  destruct (F2Q (px p)), (F2Q (py p)), (F2Q (px q)), (F2Q (py q)),
           (F2Q (px r)), (F2Q (py r)); try discriminate.
  intros H. injection H as <-. eexists. split; [reflexivity|apply Qcross_swap].
Qed.

Lemma cross_exactb_spec (p q r : Point) :
  cross_exactb p q r = true ->
  exists v e, F2Q (cross p q r) = Some v /\ exact_cross p q r = Some e /\ (v == e)%Q.
Proof.
  unfold cross_exactb.
  destruct (F2Q (cross p q r)) as [v|], (exact_cross p q r) as [e|]; try discriminate.
  intros H. apply Qeq_bool_iff in H. eauto.
Qed.

(** [orientation] is the sign of the double it computes, whatever that
    double's relation to the exact cross product. *)
Lemma orientation_sign (p q r : Point) :
  (orientation p q r = COLINEAR <-> (cross p q r =? 0)%float = true) /\
  (orientation p q r = CLOCKWISE <->
     (cross p q r =? 0)%float = false /\ (0 <? cross p q r)%float = true) /\
  (orientation p q r = COUNTERCLOCKWISE <->
     (cross p q r =? 0)%float = false /\ (0 <? cross p q r)%float = false).
Proof.
  unfold orientation, COLINEAR, CLOCKWISE, COUNTERCLOCKWISE.
  destruct (cross p q r =? 0)%float, (0 <? cross p q r)%float;
    repeat split; intros; try discriminate; try reflexivity;
    match goal with H : _ /\ _ |- _ => destruct H; discriminate end.
Qed.

(** C5, as the claim states it, fails in double arithmetic. For
    p = (1.8, 1.0), q = (0.6, 0.4), r = (2.2, 1.2) (the doubles nearest to
    these decimals) both argument orders give Clockwise; and for
    p = (0.3, 0), q = (0.9, 0.2), r = (0.6, 0.1) the result is Colinear
    although the three doubles are not on one line. *)
Lemma orientation_rounding_breaks_claim :
  (let p := mkPoint 0x1.ccccccccccccdp+0 1 in
   let q := mkPoint 0x1.3333333333333p-1 0x1.999999999999ap-2 in
   let r := mkPoint 0x1.199999999999ap+1 0x1.3333333333333p+0 in
   orientation p q r = CLOCKWISE /\ orientation p r q <> COUNTERCLOCKWISE) /\
  (let p := mkPoint 0x1.3333333333333p-2 0 in
   let q := mkPoint 0x1.ccccccccccccdp-1 0x1.999999999999ap-3 in
   let r := mkPoint 0x1.3333333333333p-1 0x1.999999999999ap-4 in
   orientation p q r = COLINEAR /\ ~ collinear p q r).
Proof.
  split.
  - vm_compute. split; [reflexivity|discriminate].
  - split; [vm_compute; reflexivity|].
    intros (e & He & Hzero). vm_compute in He. injection He as <-.
    vm_compute in Hzero. discriminate.
Qed.

(** C5, amended. Where the double [val] is the exact cross product for
    both argument orders, swapping [q] and [r] exchanges Clockwise and
    CounterClockwise, and the result is Colinear exactly when the three points
    are collinear. *)
Theorem orientation_antisymmetric_when_exact (p q r : Point) :
  cross_exactb p q r = true -> cross_exactb p r q = true ->
  (orientation p q r = CLOCKWISE <-> orientation p r q = COUNTERCLOCKWISE) /\
  (orientation p q r = COUNTERCLOCKWISE <-> orientation p r q = CLOCKWISE) /\
  (orientation p q r = COLINEAR <-> orientation p r q = COLINEAR) /\
  (orientation p q r = COLINEAR <-> collinear p q r).
Proof.
  intros Hqr Hrq.
  apply cross_exactb_spec in Hqr as (v & e & Hv & He & Hve).
  apply cross_exactb_spec in Hrq as (v' & e' & Hv' & He' & Hve').
  destruct (exact_cross_swap p q r e He) as (e'' & He'' & Hswap).
  rewrite He' in He''. injection He'' as <-.
  destruct (orientation_of_value p q r v Hv) as (Hz & Hp & Hn).
  destruct (orientation_of_value p r q v' Hv') as (Hz' & Hp' & Hn').
  rewrite Hz, Hp, Hn, Hz', Hp', Hn'. unfold collinear. rewrite He.
  repeat split; intros H; try lra.
  - exists e. split; [reflexivity|lra].
  - destruct H as (e0 & He0 & H0). injection He0 as <-. lra.
Qed.

Lemma orientation_antisymmetric_when_exact_witness :
  let p := mkPoint 0 0 in
  let q := mkPoint 1 0 in
  let r := mkPoint 0.5 1.5 in
  (orientation p q r = CLOCKWISE <-> orientation p r q = COUNTERCLOCKWISE) /\
  (orientation p q r = COUNTERCLOCKWISE <-> orientation p r q = CLOCKWISE) /\
  (orientation p q r = COLINEAR <-> orientation p r q = COLINEAR) /\
  (orientation p q r = COLINEAR <-> collinear p q r).
Proof.
  intros p q r. apply (orientation_antisymmetric_when_exact p q r).
  - vm_compute. reflexivity.
  - vm_compute. reflexivity.
Defined.

Example orientation_antisymmetric_square :
  orientation (mkPoint 0 0) (mkPoint 1 0) (mkPoint 0.5 1.5) = COUNTERCLOCKWISE /\
  orientation (mkPoint 0 0) (mkPoint 0.5 1.5) (mkPoint 1 0) = CLOCKWISE.
Proof. vm_compute. split; reflexivity. Qed.

(** ** Binary64 rounding: results bounded by a power of two *)

Lemma fexp_eq (e : Z) : fexp prec emax e = Z.max (e - 53) (-1074).
Proof. reflexivity. Qed.

Lemma digits2_pos_bounds (m : positive) :
  2 ^ (Zpos (digits2_pos m) - 1) <= Zpos m < 2 ^ Zpos (digits2_pos m).
Proof.
  induction m as [m IH|m IH|]; cbn [digits2_pos].
  - rewrite Pos2Z.inj_succ. change (Zpos m~1) with (2 * Zpos m + 1).
    replace (Z.succ (Zpos (digits2_pos m)) - 1) with (Z.succ (Zpos (digits2_pos m) - 1)) by lia.
    rewrite !Z.pow_succ_r by lia. lia.
  - rewrite Pos2Z.inj_succ. change (Zpos m~0) with (2 * Zpos m).
    replace (Z.succ (Zpos (digits2_pos m)) - 1) with (Z.succ (Zpos (digits2_pos m) - 1)) by lia.
    rewrite !Z.pow_succ_r by lia. lia.
  - cbn. lia.
Qed.

Lemma shr_1_m (mrs : shr_record) :
  0 <= shr_m mrs -> shr_m (shr_1 mrs) = shr_m mrs / 2 /\ 0 <= shr_m (shr_1 mrs).
Proof.
  destruct mrs as [m r s]. cbn [shr_m]. intros Hm.
  destruct m as [|[p|p|]|p]; cbn [shr_1 shr_m]; try lia; (split; [|lia]).
  - reflexivity.
  - change (Zpos p~1) with (2 * Zpos p + 1).
    apply (Z.div_unique _ _ _ 1); lia.
  - change (Zpos p~0) with (2 * Zpos p).
    apply (Z.div_unique _ _ _ 0); lia.
  - reflexivity.
Qed.

(** Shifting right by [p] bits divides the mantissa by [2 ^ p]. *)
Lemma iter_shr_1_m (p : positive) :
  forall mrs, 0 <= shr_m mrs ->
    shr_m (SpecFloat.iter_pos shr_1 p mrs) = shr_m mrs / 2 ^ Zpos p /\
    0 <= shr_m (SpecFloat.iter_pos shr_1 p mrs).
Proof.
  induction p as [p IH|p IH|]; intros mrs Hm; cbn [SpecFloat.iter_pos].
  - destruct (shr_1_m mrs Hm) as [H1 H1'].
    destruct (IH _ H1') as [H2 H2'].
    destruct (IH _ H2') as [H3 H3'].
    split; [|assumption].
    rewrite H3, H2, H1, !Z.div_div by lia.
    f_equal. change (Zpos p~1) with (2 * Zpos p + 1).
    rewrite Z.pow_add_r, Z.pow_mul_r by lia.
    change (2 ^ 2) with 4. change (2 ^ 1) with 2.
    replace 4 with (2 * 2) by reflexivity. rewrite Z.pow_mul_l. lia.
  - destruct (IH _ Hm) as [H2 H2'].
    destruct (IH _ H2') as [H3 H3'].
    split; [|assumption].
    rewrite H3, H2, !Z.div_div by lia.
    f_equal. change (Zpos p~0) with (2 * Zpos p).
    rewrite Z.pow_mul_r by lia.
    change (2 ^ 2) with 4. replace 4 with (2 * 2) by reflexivity.
    rewrite Z.pow_mul_l. reflexivity.
  - destruct (shr_1_m mrs Hm) as [H1 H1']. split; [|assumption].
    rewrite H1. reflexivity.
Qed.

Lemma exact_record_loc (mrs : shr_record) :
  loc_of_shr_record mrs <> loc_Exact -> ~ exact_record mrs.
Proof.
  destruct mrs as [m [] []]; cbn; intros H [Hr Hs]; cbn in *;
    congruence.
Qed.

Lemma pow2_divide_l (a b m : Z) :
  0 <= a -> 0 <= b -> (2 ^ (a + b) | m) -> (2 ^ a | m).
Proof.
  intros Ha Hb [c Hc]. exists (c * 2 ^ b).
  rewrite Hc, Z.pow_add_r by lia. ring.
Qed.

Lemma pow2_divide_div (a b m : Z) :
  0 <= a -> 0 <= b -> (2 ^ (a + b) | m) -> (2 ^ b | m / 2 ^ a).
Proof.
  intros Ha Hb [c Hc]. exists c.
  rewrite Hc, Z.pow_add_r by lia.
  replace (c * (2 ^ a * 2 ^ b)) with (c * 2 ^ b * 2 ^ a) by ring.
  apply Z.div_mul. apply Z.pow_nonzero; lia.
Qed.

Lemma shr_1_exact (mrs : shr_record) :
  exact_record mrs -> (2 | shr_m mrs) -> exact_record (shr_1 mrs).
Proof.
  destruct mrs as [m r s]. intros [Hr Hs] [c Hc]. cbn in Hr, Hs, Hc. subst r s.
  destruct m as [|[p|p|]|[p|p|]]; cbn; split; try reflexivity; lia.
Qed.

(** A shift by [p] bits loses nothing when [2 ^ p] divides the mantissa. *)
Lemma iter_shr_1_exact (p : positive) :
  forall mrs, 0 <= shr_m mrs -> exact_record mrs -> (2 ^ Zpos p | shr_m mrs) ->
    exact_record (SpecFloat.iter_pos shr_1 p mrs).
Proof.
  induction p as [p IH|p IH|]; intros mrs Hm Hex Hdiv; cbn [SpecFloat.iter_pos].
  - replace (Zpos p~1) with (1 + (Zpos p + Zpos p)) in Hdiv by lia.
    destruct (shr_1_m mrs Hm) as [H1 H1'].
    assert (Hex1 : exact_record (shr_1 mrs)).
    { apply shr_1_exact; [assumption|].
      change 2 with (2 ^ 1) at 1. eapply pow2_divide_l; [| |exact Hdiv]; lia. }
    assert (Hdiv1 : (2 ^ (Zpos p + Zpos p) | shr_m (shr_1 mrs))).
    { rewrite H1. change 2 with (2 ^ 1) at 2.
      apply pow2_divide_div; [lia|lia|assumption]. }
    destruct (iter_shr_1_m p _ H1') as [H2 H2'].
    apply IH; [assumption| |].
    + apply IH; [assumption|assumption|].
      eapply pow2_divide_l; [| |exact Hdiv1]; lia.
    + rewrite H2. apply pow2_divide_div; [lia|lia|assumption].
  - replace (Zpos p~0) with (Zpos p + Zpos p) in Hdiv by lia.
    destruct (iter_shr_1_m p _ Hm) as [H2 H2'].
    apply IH; [assumption| |].
    + apply IH; [assumption|assumption|].
      eapply pow2_divide_l; [| |exact Hdiv]; lia.
    + rewrite H2. apply pow2_divide_div; [lia|lia|assumption].
  - apply shr_1_exact; assumption.
Qed.

Lemma below_shift (m e k n : Z) :
  0 <= m -> 0 < n -> below m e k -> below (m / 2 ^ n) (e + n) k.
Proof.
  intros Hm Hn [->|[He Hle]].
  - left. apply Z.div_0_l. apply Z.pow_nonzero; lia.
  - destruct (Z_le_gt_dec (e + n) k) as [Hk|Hk].
    + right. split; [assumption|].
      replace (k - e) with (n + (k - (e + n))) in Hle by lia.
      rewrite Z.pow_add_r in Hle by lia.
      apply Z.div_le_upper_bound; [apply Z.pow_pos_nonneg; lia|lia].
    + left. apply Z.div_small. split; [assumption|].
      apply Z.le_lt_trans with (2 ^ (k - e)); [assumption|].
      apply Z.pow_lt_mono_r; lia.
Qed.

Lemma strictly_below_shift (m e k n : Z) :
  0 <= m -> 0 < n -> e + n <= k ->
  m <= 2 ^ (k - e) -> (m < 2 ^ (k - e) \/ ~ (2 ^ n | m)) ->
  strictly_below (m / 2 ^ n) (e + n) k.
Proof.
  intros Hm Hn Hk Hle Hstrict. split; [assumption|].
  assert (Hpos : 0 < 2 ^ n) by (apply Z.pow_pos_nonneg; lia).
  assert (Hsplit : 2 ^ (k - e) = 2 ^ n * 2 ^ (k - (e + n))).
  { rewrite <- Z.pow_add_r by lia. f_equal. lia. }
  apply Z.div_lt_upper_bound; [assumption|].
  rewrite <- Hsplit.
  destruct Hstrict as [Hlt|Hndiv]; [assumption|].
  destruct (Z.eq_dec m (2 ^ (k - e))) as [Heq|Hne]; [|lia].
  exfalso. apply Hndiv. exists (2 ^ (k - (e + n))). rewrite Heq, Hsplit. ring.
Qed.

Lemma shr_record_of_loc_m (m : Z) (l : location) :
  shr_m (shr_record_of_loc m l) = m.
Proof. destruct l as [|[]]; reflexivity. Qed.

Lemma loc_of_shr_record_of_loc (m : Z) (l : location) :
  loc_of_shr_record (shr_record_of_loc m l) = l.
Proof. destruct l as [|[]]; reflexivity. Qed.

Lemma canonical_exponent_le (m e k : Z) :
  0 <= m -> e <= k -> m <= 2 ^ (k - e) -> -1074 <= k ->
  Z.max (Zdigits2 m + e - 53) (-1074) <= k.
Proof.
  intros Hm He Hle Hk. destruct m as [|p|p]; cbn [Zdigits2]; [lia| |lia].
  pose proof (digits2_pos_bounds p) as [Hd _].
  assert (Hpow : 2 ^ (Zpos (digits2_pos p) - 1) <= 2 ^ (k - e)) by lia.
  apply Z.pow_le_mono_r_iff in Hpow; lia.
Qed.

(** The shift to the canonical exponent keeps a mantissa under its bound. *)
Lemma shr_fexp_below (m e k : Z) (l : location) :
  0 <= m -> -1074 <= k -> below m e k ->
  (l <> loc_Exact -> strictly_below m e k) ->
  forall mrs' e', shr_fexp prec emax m e l = (mrs', e') ->
    0 <= shr_m mrs' /\ below (shr_m mrs') e' k /\
    (loc_of_shr_record mrs' <> loc_Exact -> strictly_below (shr_m mrs') e' k).
Proof.
  intros Hm Hk Hb Hs mrs' e'. unfold shr_fexp, shr. rewrite fexp_eq.
  destruct (Z.max (Zdigits2 m + e - 53) (-1074) - e) as [|p|p] eqn:En;
    intros H; injection H as <- <-.
  - rewrite shr_record_of_loc_m, loc_of_shr_record_of_loc. auto.
  - assert (Hm0 : 0 <= shr_m (shr_record_of_loc m l))
      by (rewrite shr_record_of_loc_m; assumption).
    destruct (iter_shr_1_m p _ Hm0) as [Hdiv Hnonneg].
    rewrite shr_record_of_loc_m in Hdiv. rewrite Hdiv.
    split; [apply Z.div_pos; [assumption|apply Z.pow_pos_nonneg; lia]|].
    split; [apply below_shift; [assumption|lia|assumption]|].
    intros Hinexact. apply exact_record_loc in Hinexact.
    assert (Hcases : l <> loc_Exact \/ ~ (2 ^ Zpos p | m)).
    { destruct l as [|c]; [right|left; discriminate].
      intros Hdivides. apply Hinexact.
      apply iter_shr_1_exact; [assumption|split; reflexivity|exact Hdivides]. }
    assert (Hfacts : e <= k /\ m <= 2 ^ (k - e) /\
                     (m < 2 ^ (k - e) \/ ~ (2 ^ Zpos p | m))).
    { destruct Hcases as [Hl|Hndiv].
      - destruct (Hs Hl) as [He Hlt]. repeat split; [assumption|lia|left; assumption].
      - destruct Hb as [->|[He Hle]].
        + exfalso. apply Hndiv. apply Z.divide_0_r.
        + repeat split; [assumption|assumption|right; assumption]. }
    destruct Hfacts as (He & Hle & Hstrict).
    pose proof (canonical_exponent_le m e k Hm He Hle Hk) as Hcanon.
    apply strictly_below_shift; [assumption|lia|lia|assumption|assumption].
  - rewrite shr_record_of_loc_m, loc_of_shr_record_of_loc. auto.
Qed.

Lemma round_nearest_even_below (m e k : Z) (l : location) :
  0 <= m -> below m e k -> (l <> loc_Exact -> strictly_below m e k) ->
  0 <= round_nearest_even m l /\ below (round_nearest_even m l) e k.
Proof.
  intros Hm Hb Hs.
  assert (Hup : l <> loc_Exact -> 0 <= m + 1 /\ below (m + 1) e k).
  { intros Hl. destruct (Hs Hl) as [He Hlt]. split; [lia|]. right. split; [assumption|lia]. }
  destruct l as [|[]]; cbn [round_nearest_even]; try destruct (Z.even m);
    auto; apply Hup; discriminate.
Qed.

(** Rounding to nearest even never crosses a power of two that is itself a
    binary64 value: a quantity at most [2 ^ k] is rounded to zero or to a
    finite float at most [2 ^ k]. *)
Lemma binary_round_aux_below (sx : bool) (mx ex k : Z) (lx : location) :
  0 <= mx -> -1074 <= k <= 971 -> below mx ex k ->
  (lx <> loc_Exact -> strictly_below mx ex k) ->
  binary_round_aux prec emax sx mx ex lx = S754_zero sx \/
  exists m e,
    binary_round_aux prec emax sx mx ex lx = S754_finite sx m e /\
    e <= k /\ Zpos m <= 2 ^ (k - e).
Proof.
  intros Hm Hk Hb Hs. unfold binary_round_aux.
  destruct (shr_fexp prec emax mx ex lx) as [mrs' e'] eqn:E1.
  apply shr_fexp_below with (k := k) in E1 as (H0 & Hb' & Hs'); try assumption; [|lia].
  destruct (round_nearest_even_below _ _ _ _ H0 Hb' Hs') as [Hr0 Hrb].
  destruct (shr_fexp prec emax (round_nearest_even (shr_m mrs') (loc_of_shr_record mrs'))
              e' loc_Exact) as [mrs'' e''] eqn:E2.
  apply shr_fexp_below with (k := k) in E2 as (H0' & Hb'' & _);
    try assumption; [|lia|congruence].
  destruct (shr_m mrs'') as [|m|m]; [left; reflexivity| |lia].
  right. destruct Hb'' as [Hzero|[He Hle]]; [discriminate|].
  exists m, e''. split; [|split; assumption].
  replace (e'' <=? emax - prec) with true; [reflexivity|].
  symmetry. apply Z.leb_le. change (emax - prec) with 971. lia.
Qed.

(** *** Conversion of an [int] *)

Lemma iter_xO_spec (m : positive) (d : positive) :
  Zpos (Pos.iter xO m d) = Zpos m * 2 ^ Zpos d /\
  Zpos (digits2_pos (Pos.iter xO m d)) = Zpos (digits2_pos m) + Zpos d.
Proof.
  induction d as [|d [IH1 IH2]] using Pos.peano_ind.
  - cbn [Pos.iter digits2_pos]. split; [|lia].
    change (Zpos m~0) with (2 * Zpos m). change (2 ^ 1) with 2. lia.
  - rewrite Pos.iter_succ. cbn [digits2_pos].
    change (Zpos (Pos.iter xO m d)~0) with (2 * Zpos (Pos.iter xO m d)).
    rewrite Pos2Z.inj_succ, Z.pow_succ_r by lia. lia.
Qed.

Lemma shl_align_spec (mx : positive) (ex ex' : Z) :
  ex' <= ex ->
  forall mz ez, shl_align mx ex ex' = (mz, ez) ->
    ez = ex' /\ Zpos mz = Zpos mx * 2 ^ (ex - ex') /\
    Zpos (digits2_pos mz) = Zpos (digits2_pos mx) + (ex - ex').
Proof.
  intros Hle mz ez. unfold shl_align.
  destruct (ex' - ex) as [|d|d] eqn:E; intros H; injection H as <- <-.
  - replace (ex - ex') with 0 by lia. cbn. lia.
  - lia.
  - destruct (iter_xO_spec mx d) as [H1 H2].
    replace (ex - ex') with (Zpos d) by lia. auto.
Qed.

(** A mantissa already at its canonical exponent is left as it is. *)
Lemma binary_round_aux_canonical (sx : bool) (m : positive) (e : Z) :
  Z.max (Zpos (digits2_pos m) + e - 53) (-1074) = e -> e <= 971 ->
  binary_round_aux prec emax sx (Zpos m) e loc_Exact = S754_finite sx m e.
Proof.
  intros Hcanon He. unfold binary_round_aux, shr_fexp. rewrite fexp_eq.
  cbn [Zdigits2]. rewrite Hcanon, Z.sub_diag.
  cbn [shr shr_record_of_loc shr_m loc_of_shr_record round_nearest_even].
  rewrite fexp_eq. cbn [Zdigits2]. rewrite Hcanon, Z.sub_diag.
  cbn [shr shr_record_of_loc shr_m].
  replace (e <=? emax - prec) with true; [reflexivity|].
  symmetry. apply Z.leb_le. change (emax - prec) with 971. lia.
Qed.

(** [(double)z] is [z] itself for every positive [int] (indeed up to 2^53):
    a 53-digit mantissa [z * 2 ^ (- e)] with an exponent in [-52, 0]. *)
Lemma double_of_int_exact (z : Z) :
  0 < z < 2 ^ 53 ->
  exists m e,
    Prim2SF (double_of_int z) = S754_finite false m e /\
    -52 <= e <= 0 /\ Zpos m = z * 2 ^ (- e) /\ Zpos (digits2_pos m) = 53.
Proof.
  intros Hz. unfold double_of_int.
  destruct (z <? 0) eqn:Eneg; [apply Z.ltb_lt in Eneg; lia|].
  rewrite of_uint63_spec, Uint63.of_Z_spec.
  rewrite Z.mod_small by (change Uint63Axioms.wB with (2 ^ 63); split; [lia|];
                          apply Z.lt_trans with (2 ^ 53); [lia|reflexivity]).
  destruct z as [|p|p]; try lia.
  unfold binary_normalize, binary_round. rewrite fexp_eq.
  pose proof (digits2_pos_bounds p) as [Hlow Hhigh].
  assert (Hd : Zpos (digits2_pos p) <= 53).
  { assert (H : 2 ^ (Zpos (digits2_pos p) - 1) < 2 ^ 53) by lia.
    apply Z.pow_lt_mono_r_iff in H; lia. }
  replace (Z.max (Zpos (digits2_pos p) + 0 - 53) (-1074))
    with (Zpos (digits2_pos p) - 53) by lia.
  destruct (shl_align p 0 (Zpos (digits2_pos p) - 53)) as [mz ez] eqn:Ealign.
  apply shl_align_spec in Ealign as (-> & Hmz & Hdz); [|lia].
  exists mz, (Zpos (digits2_pos p) - 53).
  split; [|split; [lia|split]].
  - apply binary_round_aux_canonical; lia.
  - rewrite Hmz, Z.sub_0_l. reflexivity.
  - lia.
Qed.

Lemma double_of_int_zero : Prim2SF (double_of_int 0) = S754_zero false.
Proof. reflexivity. Qed.

(** *** The quotient and its double *)

Lemma new_location_inexact (n r : Z) : new_location n r <> loc_Exact -> r <> 0.
Proof.
  intros H ->. apply H.
  unfold new_location, new_location_even, new_location_odd.
  destruct (Z.even n); reflexivity.
Qed.

(** The double quotient of two positive [int]s [r <= M] is at most 1. *)
Lemma SF64div_le_one (m1 m2 : positive) (e1 e2 r M : Z) :
  -52 <= e1 <= 0 -> -52 <= e2 <= 0 ->
  Zpos m1 = r * 2 ^ (- e1) -> Zpos m2 = M * 2 ^ (- e2) ->
  Zpos (digits2_pos m1) = 53 -> Zpos (digits2_pos m2) = 53 ->
  0 < r <= M ->
  SF64div (S754_finite false m1 e1) (S754_finite false m2 e2) = S754_zero false \/
  exists m e,
    SF64div (S754_finite false m1 e1) (S754_finite false m2 e2) = S754_finite false m e /\
    e <= 0 /\ Zpos m <= 2 ^ (0 - e).
Proof.
  intros He1 He2 Hm1 Hm2 Hd1 Hd2 Hr.
  unfold SF64div, SFdiv, SFdiv_core_binary. cbn [Zdigits2 xorb].
  rewrite Hd1, Hd2, fexp_eq.
  replace (Z.min (Z.max (53 + e1 - (53 + e2) - 53) (-1074)) (e1 - e2))
    with (e1 - e2 - 53) by lia.
  replace (e1 - e2 - (e1 - e2 - 53)) with 53 by lia.
  cbv iota zeta.
  rewrite Z.shiftl_mul_pow2 by lia.
  pose proof (Z_div_mod (Zpos m1 * 2 ^ 53) (Zpos m2) eq_refl) as Hdiv.
  destruct (Z.div_eucl (Zpos m1 * 2 ^ 53) (Zpos m2)) as [q rem].
  destruct Hdiv as [Heq Hrem].
  assert (Hpow : 0 < 2 ^ (- e2 - (e1 - e2 - 53))) by (apply Z.pow_pos_nonneg; lia).
  assert (Hscale : Zpos m1 * 2 ^ 53 = r * 2 ^ (- e2 - (e1 - e2 - 53))).
  { rewrite Hm1, <- Z.mul_assoc, <- Z.pow_add_r by lia. f_equal; f_equal; lia. }
  assert (Hbound : Zpos m2 * 2 ^ (0 - (e1 - e2 - 53)) = M * 2 ^ (- e2 - (e1 - e2 - 53))).
  { rewrite Hm2, <- Z.mul_assoc, <- Z.pow_add_r by lia. f_equal; f_equal; lia. }
  assert (Hq0 : 0 <= q) by nia.
  assert (Hle : Zpos m1 * 2 ^ 53 <= Zpos m2 * 2 ^ (0 - (e1 - e2 - 53))) by nia.
  apply binary_round_aux_below; [assumption|lia| |].
  - right. split; [lia|]. nia.
  - intros Hl. apply new_location_inexact in Hl. split; [lia|]. nia.
Qed.

(** A valid finite float bounded by [2 ^ k] is at most the float [2 ^ k]. *)
Lemma valid_below_key (m : positive) (e k : Z) :
  valid_binary (S754_finite false m e) = true ->
  -1022 <= k -> e <= k -> Zpos m <= 2 ^ (k - e) ->
  key_le (1, e, Zpos m) (1, k - 52, 2 ^ 52).
Proof.
  unfold SpecFloat.valid_binary, bounded, canonical_mantissa. rewrite fexp_eq.
  intros Hvalid Hk He Hle. apply andb_true_iff in Hvalid as [Hcanon _].
  apply Z.eqb_eq in Hcanon.
  pose proof (digits2_pos_bounds m) as [Hlow _].
  unfold key_le. right. split; [reflexivity|].
  destruct (Z_le_gt_dec e (-1074)) as [Hmin|Hnorm].
  - destruct (Z.eq_dec k (-1022)) as [->|Hne]; [|left; lia].
    right. split; [lia|]. replace e with (-1074) in * by lia. exact Hle.
  - assert (Hd : Zpos (digits2_pos m) = 53) by lia.
    rewrite Hd in Hlow. change (2 ^ (53 - 1)) with (2 ^ 52) in Hlow.
    assert (Hpow : 2 ^ 52 <= 2 ^ (k - e)) by lia.
    apply Z.pow_le_mono_r_iff in Hpow; [|lia|lia].
    destruct (Z.eq_dec e (k - 52)) as [->|Hne]; [|left; lia].
    right. split; [reflexivity|]. replace (k - (k - 52)) with 52 in Hle by lia.
    exact Hle.
Qed.

(** ** The sampling domain *)

Lemma SF64mul_two_le_two (z : spec_float) :
  (z = S754_zero false \/
   exists m e, z = S754_finite false m e /\ e <= 0 /\ Zpos m <= 2 ^ (0 - e)) ->
  SF64mul z (Prim2SF 2) = S754_zero false \/
  exists m e, SF64mul z (Prim2SF 2) = S754_finite false m e /\
              e <= 1 /\ Zpos m <= 2 ^ (1 - e).
Proof.
  change (Prim2SF 2) with (S754_finite false 4503599627370496 (-51)).
  intros [Hz|(m & e & Hz & He & Hm)]; subst z; [left; reflexivity|].
  unfold SF64mul, SFmul. cbn [xorb].
  apply binary_round_aux_below; [lia|lia| |congruence].
  right. split; [lia|].
  rewrite Pos2Z.inj_mul. change (Zpos 4503599627370496) with (2 ^ 52).
  replace (1 - (e + -51)) with (0 - e + 52) by lia.
  rewrite Z.pow_add_r by lia.
  apply Z.mul_le_mono_nonneg_r; [lia|assumption].
Qed.

Lemma in_range_of_bound (w : float) :
  (Prim2SF w = S754_zero false \/
   exists m e, Prim2SF w = S754_finite false m e /\ e <= 1 /\ Zpos m <= 2 ^ (1 - e)) ->
  in_range w.
Proof.
  intros Hw.
  assert (Hzero : fkey 0 = Some (0, 0, 0)) by reflexivity.
  assert (Htwo : fkey 2 = Some (1, 1 - 52, 2 ^ 52)) by reflexivity.
  pose proof (Prim2SF_valid w) as Hvalid.
  destruct Hw as [Hw|(m & e & Hw & He & Hm)].
  - assert (Hkey : fkey w = Some (0, 0, 0)) by (unfold fkey; rewrite Hw; reflexivity).
    split.
    + apply (leb_keys _ _ _ _ Hzero Hkey). cbn. lia.
    + apply (leb_keys _ _ _ _ Hkey Htwo). cbn. lia.
  - assert (Hkey : fkey w = Some (1, e, Zpos m)) by (unfold fkey; rewrite Hw; reflexivity).
    rewrite Hw in Hvalid. split.
    + apply (leb_keys _ _ _ _ Hzero Hkey). cbn. lia.
    + apply (leb_keys _ _ _ _ Hkey Htwo).
      apply valid_below_key; [assumption|lia|assumption|assumption].
Qed.

Section SampleDomain.
Variable RAND_MAX : Z.
Variable rand : nat -> Z.
Hypothesis RAND_MAX_range : 0 < RAND_MAX <= INT_MAX.
Hypothesis rand_range : forall k, 0 <= rand k <= RAND_MAX.

(** [(double)rand() / RAND_MAX * 2] lies in [0, 2] for every value [rand()]
    can return. *)
Lemma sample_coord_in_range (r : Z) :
  0 <= r <= RAND_MAX -> in_range (sample_coord RAND_MAX r).
Proof.
  intros Hr. unfold sample_coord. apply in_range_of_bound.
  rewrite FloatAxioms.mul_spec. apply SF64mul_two_le_two.
  rewrite FloatAxioms.div_spec.
  assert (H53 : INT_MAX < 2 ^ 53) by reflexivity.
  destruct (double_of_int_exact RAND_MAX) as (m2 & e2 & Hy & He2 & Hm2 & Hd2); [lia|].
  rewrite Hy.
  destruct (Z.eq_dec r 0) as [->|Hr0].
  - rewrite double_of_int_zero. left. reflexivity.
  - destruct (double_of_int_exact r) as (m1 & e1 & Hx & He1 & Hm1 & Hd1); [lia|].
    rewrite Hx.
    apply (SF64div_le_one m1 m2 e1 e2 r RAND_MAX); auto; lia.
Qed.

Lemma worker_step_pending (k : nat) (w : worker) (m m' : machine) :
  Forall pending_ok (workers m) ->
  workers m !! k = Some w ->
  worker_step RAND_MAX rand k w m = Some m' ->
  Forall pending_ok (workers m').
Proof.
  intros Hall Hk Hstep.
  assert (Hw : pending_ok w) by (eapply Forall_lookup_1; eauto).
  unfold pending_ok in Hw. unfold worker_step, set_worker in Hstep.
  destruct (w_pc w) eqn:Epc.
  - destruct (w_i w <? points_per_thread w);
      injection Hstep as <-; cbn [workers]; apply Forall_insert; try assumption.
    apply sample_coord_in_range, rand_range.
  - injection Hstep as <-; cbn [workers]; apply Forall_insert; [assumption|].
    split; [exact Hw|]. apply sample_coord_in_range, rand_range.
  - destruct (mutex (data m)); [discriminate|].
    injection Hstep as <-; cbn [workers]; apply Forall_insert; assumption.
  - injection Hstep as <-; cbn [workers]; apply Forall_insert; assumption.
  - injection Hstep as <-; cbn [workers]; apply Forall_insert; [assumption|exact I].
  - injection Hstep as <-; cbn [workers]; apply Forall_insert; [assumption|exact I].
  - discriminate.
Qed.

Lemma step_pending (th : thread) (m m' : machine) :
  Forall pending_ok (workers m) ->
  step RAND_MAX rand th m = Some m' ->
  Forall pending_ok (workers m').
Proof.
  intros Hall Hstep. destruct th as [k|]; cbn [step] in Hstep.
  - destruct (workers m !! k) as [w|] eqn:Hk; [|discriminate].
    eapply worker_step_pending; eauto.
  - unfold progress_step in Hstep.
    destruct (progress m); try discriminate;
      try destruct (mutex (data m)); try discriminate;
      injection Hstep as <-; assumption.
Qed.

Lemma run_pending (schedule : list thread) :
  forall m, Forall pending_ok (workers m) ->
            Forall pending_ok (workers (run RAND_MAX rand schedule m)).
Proof.
  induction schedule as [|th rest IH]; intros m Hall; cbn [run].
  - assumption.
  - destruct (step RAND_MAX rand th m) as [m'|] eqn:Hstep.
    + apply IH. eapply step_pending; eauto.
    + apply IH. assumption.
Qed.

(** C10. Every coordinate drawn as [(double)rand() / RAND_MAX * 2] lies in
    [0, 2]; so in every state the threads can reach, the point a worker is
    about to count in [points_checked] or to classify for [points_inside]
    lies in the square [0,2] x [0,2]. *)
Theorem counted_points_in_domain :
  (forall r, 0 <= r <= RAND_MAX -> in_range (sample_coord RAND_MAX r)) /\
  (forall (polygon : list Point) (n threads t : Z) (schedule : list thread)
          (k : nat) (w : worker) (p : Point),
      workers (run RAND_MAX rand schedule (spawn polygon n threads t)) !! k = Some w ->
      w_pc w = WCount p \/ w_pc w = WClassify p ->
      in_domain p).
Proof.
  split; [exact sample_coord_in_range|].
  intros polygon n threads t schedule k w p Hk Hpc.
  assert (Hall : Forall pending_ok
                   (workers (run RAND_MAX rand schedule (spawn polygon n threads t)))).
  { apply run_pending. unfold spawn. cbn [workers]. apply Forall_replicate. exact I. }
  pose proof (Forall_lookup_1 _ _ _ _ Hall Hk) as Hw. unfold pending_ok in Hw.
  destruct Hpc as [Hpc|Hpc]; rewrite Hpc in Hw; exact Hw.
Qed.

End SampleDomain.

Lemma lcg_rand_range (k : nat) : 0 <= lcg_rand k <= 32767.
Proof.
  unfold lcg_rand.
  pose proof (Z.mod_pos_bound (Z.of_nat k * 7919 + 13) 32768 eq_refl). lia.
Qed.

(** The first point worker 0 draws from [lcg_rand], when it is about to be
    classified against the unit square. *)
Lemma counted_points_in_domain_witness :
  in_range (sample_coord 32767 32767) /\
  in_domain (mkPoint (sample_coord 32767 (lcg_rand 0)) (sample_coord 32767 (lcg_rand 1))).
Proof.
  assert (Hmax : 0 < 32767 <= INT_MAX) by (unfold INT_MAX; lia).
  pose proof (counted_points_in_domain 32767 lcg_rand Hmax lcg_rand_range) as [Hcoord Hpoint].
  split.
  - apply Hcoord. lia.
  - apply (Hpoint unit_square 4 1 1 (replicate 4 (Worker 0)) 0%nat
             (mkWorker (WClassify (mkPoint (sample_coord 32767 (lcg_rand 0))
                                           (sample_coord 32767 (lcg_rand 1)))) 0 1)).
    + vm_compute. reflexivity.
    + right. reflexivity.
Defined.

Example sample_coord_ends :
  sample_coord 32767 0 = 0%float /\ sample_coord 32767 32767 = 2%float /\
  sample_coord 2147483647 1073741823 = 0x1.fffffffc00000p-1%float.
Proof. vm_compute. repeat split. Qed.

(** ** Sampling engine: what the counters hold *)

Lemma wrap_int_small z : -2147483648 <= z <= INT_MAX -> wrap_int z = z.
Proof.
  unfold wrap_int, INT_MAX. intros H.
  rewrite Z.mod_small by lia. lia.
Qed.

Lemma wrap_int_succ z : wrap_int (wrap_int z + 1) = wrap_int (z + 1).
Proof.
  unfold wrap_int.
  replace ((z + 2147483648) mod 4294967296 - 2147483648 + 1 + 2147483648)
    with ((z + 2147483648) mod 4294967296 + 1) by lia.
  rewrite Zplus_mod_idemp_l. f_equal. f_equal. lia.
Qed.

Lemma total_contributed_insert (ws : list worker) :
  forall (k : nat) (w w' : worker),
    ws !! k = Some w ->
    total_contributed (<[k := w']> ws) =
      total_contributed ws - contributed w + contributed w'.
Proof.
  unfold total_contributed.
  induction ws as [|w0 ws IH]; intros k w w' Hk.
  - discriminate.
  - destruct k as [|k].
    + cbn in *. injection Hk as ->. lia.
    + specialize (IH k w w' Hk).
      change (<[S k := w']> (w0 :: ws)) with (w0 :: <[k := w']> ws).
      cbn [fold_right]. lia.
Qed.

Lemma total_contributed_exited (t : Z) (ws : list worker) :
  Forall (worker_ok t) ws -> forallb worker_exited ws = true ->
  total_contributed ws = Z.of_nat (length ws) * t.
Proof.
  induction 1 as [|w ws Hw _ IH]; cbn [forallb total_contributed fold_right length].
  - reflexivity.
  - intros Hall. apply andb_true_iff in Hall as [Hexit Hrest].
    fold (total_contributed ws). rewrite (IH Hrest).
    destruct Hw as (_ & _ & Hpc). unfold worker_exited in Hexit.
    unfold contributed. destruct (w_pc w); try discriminate. lia.
Qed.

Section CounterProperties.
Variable RAND_MAX : Z.
Variable rand : nat -> Z.
Variable t : Z.
Hypothesis t_range : 0 <= t <= INT_MAX.

Lemma worker_step_counters (k : nat) (w : worker) (m m' : machine) :
  workers m !! k = Some w ->
  counters_inv t m ->
  worker_step RAND_MAX rand k w m = Some m' ->
  counters_inv t m'.
Proof.
  intros Hk [Hws Hchecked] Hstep.
  assert (Hw : worker_ok t w) by (eapply Forall_lookup_1; eauto).
  destruct Hw as (Hppt & Hi & Hpc).
  unfold worker_step, set_worker in Hstep.
  destruct (w_pc w) eqn:Epc.
  - destruct (w_i w <? points_per_thread w) eqn:Elt;
      injection Hstep as <-; unfold counters_inv; cbn [workers data]; split.
    + apply Forall_insert; [assumption|].
      apply Z.ltb_lt in Elt. repeat split; cbn; lia.
    + rewrite (total_contributed_insert _ k w _ Hk), Hchecked.
      unfold contributed. rewrite Epc. cbn. f_equal. lia.
    + apply Forall_insert; [assumption|].
      apply Z.ltb_ge in Elt. repeat split; cbn; lia.
    + rewrite (total_contributed_insert _ k w _ Hk), Hchecked.
      unfold contributed. rewrite Epc. cbn. f_equal. lia.
  - injection Hstep as <-; unfold counters_inv; cbn [workers data]; split.
    + apply Forall_insert; [assumption|]. repeat split; cbn; lia.
    + rewrite (total_contributed_insert _ k w _ Hk), Hchecked.
      unfold contributed. rewrite Epc. cbn. f_equal. lia.
  - destruct (mutex (data m)); [discriminate|].
    injection Hstep as <-; unfold counters_inv; cbn [workers data]; split.
    + apply Forall_insert; [assumption|]. repeat split; cbn; lia.
    + rewrite (total_contributed_insert _ k w _ Hk). cbn [set_mutex points_checked].
      rewrite Hchecked. unfold contributed. rewrite Epc. cbn. f_equal. lia.
  - injection Hstep as <-; unfold counters_inv; cbn [workers data]; split.
    + apply Forall_insert; [assumption|]. repeat split; cbn; lia.
    + rewrite (total_contributed_insert _ k w _ Hk). cbn [set_checked points_checked].
      rewrite Hchecked, wrap_int_succ. unfold contributed. rewrite Epc. cbn.
      f_equal. lia.
  - injection Hstep as <-; unfold counters_inv; cbn [workers data]; split.
    + apply Forall_insert; [assumption|]. repeat split; cbn; lia.
    + rewrite (total_contributed_insert _ k w _ Hk).
      assert (Hd : forall d' : SharedData,
                 d' = (if isInsidePolygon (polygon (data m)) (polygon_size (data m)) p
                       then set_inside (wrap_int (points_inside (data m) + 1)) (data m)
                       else data m) ->
                 points_checked d' = points_checked (data m)).
      { intros d' ->. destruct (isInsidePolygon _ _ _); reflexivity. }
      rewrite (Hd _ eq_refl), Hchecked. unfold contributed. rewrite Epc. cbn.
      f_equal. lia.
  - injection Hstep as <-; unfold counters_inv; cbn [workers data]; split.
    + apply Forall_insert; [assumption|].
      rewrite wrap_int_small by (unfold INT_MAX in *; lia).
      repeat split; cbn; lia.
    + rewrite (total_contributed_insert _ k w _ Hk). cbn [set_mutex points_checked].
      rewrite Hchecked. unfold contributed. rewrite Epc. cbn [w_pc w_i].
      rewrite (wrap_int_small (w_i w + 1)) by (unfold INT_MAX in *; lia).
      f_equal. lia.
  - discriminate.
Qed.

Lemma progress_step_counters (m m' : machine) :
  counters_inv t m ->
  progress_step m = Some m' ->
  counters_inv t m'.
Proof.
  intros [Hws Hchecked] Hstep. unfold progress_step in Hstep.
  destruct (progress m).
  - destruct (mutex (data m)); [discriminate|].
    injection Hstep as <-. split; assumption.
  - injection Hstep as <-. split; assumption.
  - injection Hstep as <-. split; assumption.
  - injection Hstep as <-. split; assumption.
  - discriminate.
Qed.

Lemma step_counters (th : thread) (m m' : machine) :
  counters_inv t m -> step RAND_MAX rand th m = Some m' -> counters_inv t m'.
Proof.
  intros Hinv Hstep. destruct th as [k|]; cbn [step] in Hstep.
  - destruct (workers m !! k) as [w|] eqn:Hk; [|discriminate].
    eapply worker_step_counters; eauto.
  - eapply progress_step_counters; eauto.
Qed.

Lemma run_counters (schedule : list thread) :
  forall m, counters_inv t m -> counters_inv t (run RAND_MAX rand schedule m).
Proof.
  induction schedule as [|th rest IH]; intros m Hinv; cbn [run].
  - assumption.
  - destruct (step RAND_MAX rand th m) as [m'|] eqn:Hstep.
    + apply IH. eapply step_counters; eauto.
    + apply IH. assumption.
Qed.

Lemma step_workers_length (th : thread) (m m' : machine) :
  step RAND_MAX rand th m = Some m' -> length (workers m') = length (workers m).
Proof.
  destruct th as [k|]; cbn [step].
  - destruct (workers m !! k) as [w|]; [|discriminate].
    unfold worker_step, set_worker.
    destruct (w_pc w); try discriminate;
      try destruct (w_i w <? points_per_thread w);
      try destruct (mutex (data m)); try discriminate;
      intros H; injection H as <-; cbn [workers]; apply length_insert.
  - unfold progress_step.
    destruct (progress m); try discriminate;
      try destruct (mutex (data m)); try discriminate;
      intros H; injection H as <-; reflexivity.
Qed.

Lemma run_workers_length (schedule : list thread) :
  forall m, length (workers (run RAND_MAX rand schedule m)) = length (workers m).
Proof.
  induction schedule as [|th rest IH]; intros m; cbn [run].
  - reflexivity.
  - destruct (step RAND_MAX rand th m) as [m'|] eqn:Hstep.
    + rewrite IH. eapply step_workers_length; eauto.
    + apply IH.
Qed.

Lemma spawn_counters (polygon : list Point) (n threads : Z) :
  counters_inv t (spawn polygon n threads t).
Proof.
  unfold spawn, counters_inv. cbn [workers data points_checked]. split.
  - apply Forall_replicate. repeat split; cbn; lia.
  - assert (H0 : forall k, total_contributed (replicate k (mkWorker WLoop 0 t)) = 0).
    { induction k as [|k IH]; [reflexivity|].
      unfold total_contributed in *. cbn [replicate fold_right]. rewrite IH.
      reflexivity. }
    rewrite H0. reflexivity.
Qed.

Lemma step_same_config (th : thread) (m m' : machine) :
  step RAND_MAX rand th m = Some m' -> same_config m m'.
Proof.
  destruct th as [k|]; cbn [step].
  - destruct (workers m !! k) as [w|]; [|discriminate].
    unfold worker_step, set_worker.
    destruct (w_pc w); try discriminate;
      try destruct (w_i w <? points_per_thread w);
      try destruct (mutex (data m)); try discriminate;
      try destruct (isInsidePolygon _ _ _);
      intros H; injection H as <-; repeat split.
  - unfold progress_step.
    destruct (progress m); try discriminate;
      try destruct (mutex (data m)); try discriminate;
      intros H; injection H as <-; repeat split.
Qed.

Lemma run_same_config (schedule : list thread) :
  forall m, same_config m (run RAND_MAX rand schedule m).
Proof.
  induction schedule as [|th rest IH]; intros m; cbn [run].
  - repeat split.
  - destruct (step RAND_MAX rand th m) as [m'|] eqn:Hstep; [|apply IH].
    destruct (step_same_config _ _ _ Hstep) as (H1 & H2 & H3).
    destruct (IH m') as (H1' & H2' & H3').
    repeat split; congruence.
Qed.

(** Once every thread is joined, each of the [threads] workers has counted
    [t] samples: [points_checked] holds [threads * t] (as an [int]). *)
Lemma run_joined_checked (polygon : list Point) (n threads : Z) (schedule : list thread) :
  0 <= threads ->
  let m := run RAND_MAX rand schedule (spawn polygon n threads t) in
  all_joined m = true ->
  points_checked (data m) = wrap_int (threads * t).
Proof.
  intros Hthreads m Hjoined.
  destruct (run_counters schedule _ (spawn_counters polygon n threads)) as [Hws Hchecked].
  fold m in Hws, Hchecked.
  unfold all_joined in Hjoined. apply andb_true_iff in Hjoined as [Hexited _].
  rewrite Hchecked, (total_contributed_exited t _ Hws Hexited).
  unfold m. rewrite run_workers_length. unfold spawn. cbn [workers].
  rewrite length_replicate, Z2Nat.id by assumption. reflexivity.
Qed.

End CounterProperties.

(** ** What the counters do satisfy *)

Lemma total_classified_insert (ws : list worker) :
  forall (k : nat) (w w' : worker),
    ws !! k = Some w ->
    total_classified (<[k := w']> ws) =
      total_classified ws - classified w + classified w'.
Proof.
  unfold total_classified.
  induction ws as [|w0 ws IH]; intros k w w' Hk.
  - discriminate.
  - destruct k as [|k].
    + cbn in *. injection Hk as ->. lia.
    + specialize (IH k w w' Hk).
      change (<[S k := w']> (w0 :: ws)) with (w0 :: <[k := w']> ws).
      cbn [fold_right]. lia.
Qed.

Lemma total_contributed_le (t : Z) (ws : list worker) :
  Forall (worker_ok t) ws -> total_contributed ws <= Z.of_nat (length ws) * t.
Proof.
  unfold total_contributed.
  induction 1 as [|w ws Hw _ IH]; cbn [fold_right length]; [lia|].
  destruct Hw as (_ & Hi & Hpc).
  assert (contributed w <= t) by (unfold contributed; destruct (w_pc w); lia).
  lia.
Qed.

Lemma total_classified_le (ws : list worker) :
  total_classified ws <= total_contributed ws.
Proof.
  unfold total_classified, total_contributed.
  induction ws as [|w ws IH]; cbn [fold_right]; [lia|].
  assert (classified w <= contributed w)
    by (unfold classified, contributed; destruct (w_pc w); lia).
  lia.
Qed.

(** A worker between its two increments is counted in [points_checked] and
    not yet in [points_inside]. *)
Lemma total_classified_lt (ws : list worker) :
  forall (k : nat) (w : worker),
    ws !! k = Some w -> classified w < contributed w ->
    total_classified ws < total_contributed ws.
Proof.
  unfold total_classified, total_contributed.
  induction ws as [|w0 ws IH]; intros k w Hk Hlt.
  - discriminate.
  - pose proof (total_classified_le ws) as Hrest.
    unfold total_classified, total_contributed in Hrest.
    assert (Hhead : classified w0 <= contributed w0)
      by (unfold classified, contributed; destruct (w_pc w0); lia).
    destruct k as [|k]; cbn [fold_right].
    + cbn in Hk. injection Hk as ->. lia.
    + specialize (IH k w Hk Hlt). lia.
Qed.

Section OrderedCounters.
Variable RAND_MAX : Z.
Variable rand : nat -> Z.
Variable t : Z.
Hypothesis t_range : 0 <= t <= INT_MAX.

Lemma step_ordered (th : thread) (m m' : machine) :
  Z.of_nat (length (workers m)) * t <= INT_MAX ->
  Forall (worker_ok t) (workers m) ->
  ordered_inv m ->
  step RAND_MAX rand th m = Some m' ->
  ordered_inv m' /\
  points_inside (data m) <= points_inside (data m') /\
  points_checked (data m) <= points_checked (data m').
Proof.
  intros Hbound Hws [Hinside Hchecked] Hstep.
  pose proof (total_contributed_le t _ Hws) as Htotal.
  pose proof (total_classified_le (workers m)) as Hcl.
  destruct th as [k|]; cbn [step] in Hstep.
  - destruct (workers m !! k) as [w|] eqn:Hk; [|discriminate].
    assert (Hw : worker_ok t w) by (eapply Forall_lookup_1; eauto).
    destruct Hw as (Hppt & Hi & Hpc).
    unfold worker_step, set_worker in Hstep.
    destruct (w_pc w) eqn:Epc.
    + destruct (w_i w <? points_per_thread w);
        injection Hstep as <-; unfold ordered_inv; cbn [workers data];
        rewrite (total_classified_insert _ k w _ Hk),
                (total_contributed_insert _ k w _ Hk);
        unfold classified, contributed; rewrite Epc; cbn; lia.
    + injection Hstep as <-; unfold ordered_inv; cbn [workers data];
        rewrite (total_classified_insert _ k w _ Hk),
                (total_contributed_insert _ k w _ Hk);
        unfold classified, contributed; rewrite Epc; cbn; lia.
    + destruct (mutex (data m)); [discriminate|].
      injection Hstep as <-; unfold ordered_inv; cbn [workers data];
        rewrite (total_classified_insert _ k w _ Hk),
                (total_contributed_insert _ k w _ Hk);
        unfold classified, contributed; rewrite Epc; cbn; lia.
    + assert (Hroom : total_contributed (workers m) + 1 <= Z.of_nat (length (workers m)) * t).
      { pose proof (total_contributed_insert _ k w (mkWorker (WClassify p) (w_i w) t) Hk) as Hins.
        assert (Hws' : Forall (worker_ok t)
                         (<[k := mkWorker (WClassify p) (w_i w) t]> (workers m)))
          by (apply Forall_insert; [assumption|repeat split; cbn; lia]).
        apply total_contributed_le in Hws'. rewrite length_insert, Hins in Hws'.
        unfold contributed in Hws'. rewrite Epc in Hws'. cbn in Hws'. lia. }
      injection Hstep as <-; unfold ordered_inv; cbn [workers data set_checked
        points_inside points_checked];
        rewrite (total_classified_insert _ k w _ Hk),
                (total_contributed_insert _ k w _ Hk);
        rewrite wrap_int_small by (unfold INT_MAX in *; lia);
        unfold classified, contributed; rewrite Epc; cbn; lia.
    + assert (Hlt : total_classified (workers m) < total_contributed (workers m)).
      { apply (total_classified_lt _ k w Hk).
        unfold classified, contributed. rewrite Epc. lia. }
      injection Hstep as <-; unfold ordered_inv; cbn [workers data].
      rewrite (total_classified_insert _ k w _ Hk),
              (total_contributed_insert _ k w _ Hk).
      unfold classified, contributed. rewrite Epc. cbn [w_pc w_i].
      destruct (isInsidePolygon _ _ _); cbn [set_inside points_inside points_checked];
        try rewrite wrap_int_small by (unfold INT_MAX in *; lia); lia.
    + injection Hstep as <-; unfold ordered_inv; cbn [workers data set_mutex
        points_inside points_checked];
        rewrite (total_classified_insert _ k w _ Hk),
                (total_contributed_insert _ k w _ Hk);
        rewrite wrap_int_small by (unfold INT_MAX in *; lia);
        unfold classified, contributed; rewrite Epc; cbn; lia.
    + discriminate.
  - unfold progress_step in Hstep.
    destruct (progress m); try discriminate;
      try destruct (mutex (data m)); try discriminate;
      injection Hstep as <-; unfold ordered_inv; cbn [workers data set_mutex
        points_inside points_checked]; lia.
Qed.

(** X6. Without overflow ([threads * t] fits an [int]), in every state the
    threads can reach [0 <= points_inside <= points_checked <= threads * t]. *)
Lemma run_ordered (polygon : list Point) (n threads : Z) (schedule : list thread) :
  0 <= threads -> threads * t <= INT_MAX ->
  let m := run RAND_MAX rand schedule (spawn polygon n threads t) in
  0 <= points_inside (data m) <= points_checked (data m) /\
  points_checked (data m) <= threads * t.
Proof.
  intros Hthreads Hbound.
  assert (Hgen : forall s m,
             length (workers m) = Z.to_nat threads ->
             counters_inv t m -> ordered_inv m ->
             let m' := run RAND_MAX rand s m in
             length (workers m') = Z.to_nat threads /\
             counters_inv t m' /\ ordered_inv m').
  { induction s as [|th rest IH]; intros m Hlen Hcnt Hord; cbn [run].
    - auto.
    - destruct (step RAND_MAX rand th m) as [m1|] eqn:Hstep; [|apply IH; assumption].
      apply IH.
      + rewrite (step_workers_length _ _ _ _ _ Hstep). assumption.
      + eapply step_counters; eauto.
      + eapply step_ordered; eauto; [rewrite Hlen, Z2Nat.id by lia; assumption|apply Hcnt]. }
  destruct (Hgen schedule (spawn polygon n threads t)) as (Hlen & [Hws _] & [Hinside Hchecked]).
  - unfold spawn. cbn [workers]. apply length_replicate.
  - apply spawn_counters. assumption.
  - unfold ordered_inv, spawn. cbn [workers data points_inside points_checked].
    assert (H0 : forall c, total_classified (replicate c (mkWorker WLoop 0 t)) = 0 /\
                           total_contributed (replicate c (mkWorker WLoop 0 t)) = 0).
    { induction c as [|c [IH1 IH2]]; [split; reflexivity|].
      unfold total_classified, total_contributed in *. cbn [replicate fold_right].
      rewrite IH1, IH2. split; reflexivity. }
    destruct (H0 (Z.to_nat threads)) as [-> ->]. lia.
  - cbn zeta. pose proof (total_contributed_le t _ Hws) as Hle.
    rewrite Hlen, Z2Nat.id in Hle by lia.
    pose proof (total_classified_le
                  (workers (run RAND_MAX rand schedule (spawn polygon n threads t)))) as Hcl.
    lia.
Qed.

End OrderedCounters.

(** C1, on the code. Each worker loops [data->total_points] times, not over
    a share of them: whenever [main] finishes, [points_checked] holds
    [num_threads * num_pontos_aleatorios] (as an [int]), which is the
    configured total only for a single worker. *)
Theorem main_checked_is_threads_times_points
  (RAND_MAX : Z) (rand : nat -> Z) (inp : Input) (schedule : list thread)
  (o : outcome) (m : machine) :
  num_pontos_aleatorios inp <= INT_MAX ->
  main RAND_MAX rand inp schedule = Some o ->
  final o = Some m ->
  total_points (data m) = num_pontos_aleatorios inp /\
  points_checked (data m) = wrap_int (num_threads inp * num_pontos_aleatorios inp).
Proof.
  unfold main, failure. intros Hmax Hmain Hfinal.
  destruct (negb (argc inp =? 4)); [injection Hmain as <-; discriminate|].
  destruct ((num_threads inp <=? 0) || (num_pontos_aleatorios inp <=? 0)) eqn:Ecounts;
    [injection Hmain as <-; discriminate|].
  apply orb_false_iff in Ecounts as [Et Ep]. apply Z.leb_gt in Et, Ep.
  destruct (negb (open_ok inp)); [injection Hmain as <-; discriminate|].
  destruct (negb (malloc_ok inp)); [injection Hmain as <-; discriminate|].
  destruct (read_polygon MAX_POINTS (scanned inp) [] 0) as [[polygon n]|];
    [|injection Hmain as <-; discriminate].
  destruct (n <? 3); [injection Hmain as <-; discriminate|].
  destruct (all_joined _) eqn:Ejoined; [|discriminate].
  injection Hmain as <-. cbn [final] in Hfinal. injection Hfinal as <-.
  split.
  - apply (run_same_config RAND_MAX rand schedule
             (spawn polygon n (num_threads inp) (num_pontos_aleatorios inp))).
  - apply run_joined_checked; auto; lia.
Qed.

Lemma main_checked_is_threads_times_points_witness :
  let inp := mkInput 4 2 1 true true unit_square in
  let schedule := worker_alone 0 1 ++ worker_alone 1 1 ++ progress_alone in
  exists o m,
    main 32767 lcg_rand inp schedule = Some o /\ final o = Some m /\
    total_points (data m) = 1 /\ points_checked (data m) = 2.
Proof.
  intros inp schedule.
  destruct (main 32767 lcg_rand inp schedule) as [o|] eqn:Emain;
    [|vm_compute in Emain; discriminate].
  destruct (final o) as [m|] eqn:Efinal;
    [|vm_compute in Emain; injection Emain as <-; discriminate].
  exists o, m. split; [reflexivity|]. split; [exact Efinal|].
  apply (main_checked_is_threads_times_points 32767 lcg_rand inp schedule o m);
    [vm_compute; discriminate|exact Emain|exact Efinal].
Defined.

(** C2, on the code. With two workers and one configured point the
    progress thread, holding the mutex, reads [points_checked = 2] while
    [total_points = 1], and prints 200 percent. *)
Lemma progress_reads_checked_above_total :
  let schedule := worker_alone 0 1 ++ worker_alone 1 1 ++ [Progress; Progress] in
  let m := run 32767 lcg_rand schedule (spawn unit_square 4 2 1) in
  progress m = PUnlock 2 /\
  total_points (data m) = 1 /\
  ~ points_checked (data m) <= total_points (data m) /\
  printed (run 32767 lcg_rand [Progress; Progress] m) = [200].
Proof. vm_compute. repeat split; discriminate || (intros H; apply H; reflexivity). Qed.

(** ** Driver: validation and the estimate *)

Lemma read_polygon_spec capacity :
  forall lines polygon n polygon' n',
    read_polygon capacity lines polygon n = Some (polygon', n') ->
    polygon' = polygon ++ lines /\ n' = n + Z.of_nat (length lines).
Proof.
  induction lines as [|pt rest IH]; intros polygon n polygon' n' H; cbn in H.
  - injection H as <- <-. rewrite app_nil_r. cbn. split; [reflexivity|lia].
  - destruct (n + 1 >=? capacity); [discriminate|].
    apply IH in H as [-> ->]. rewrite <- app_assoc. cbn [length app].
    split; [reflexivity|lia].
Qed.

Lemma read_polygon_complete capacity :
  forall lines polygon n,
    n + Z.of_nat (length lines) < capacity ->
    read_polygon capacity lines polygon n =
      Some (polygon ++ lines, n + Z.of_nat (length lines)).
Proof.
  induction lines as [|pt rest IH]; intros polygon n H; cbn [read_polygon].
  - rewrite app_nil_r. cbn. f_equal. f_equal. lia.
  - cbn [length] in H.
    destruct (n + 1 >=? capacity) eqn:E; [lia|].
    rewrite IH by lia. rewrite <- app_assoc. cbn [length app].
    f_equal. f_equal. lia.
Qed.

Section DriverProperties.
Variable RAND_MAX : Z.
Variable rand : nat -> Z.

(** C9. With a non-positive number of points or of threads, or with fewer
    than three vertices read from the polygon file, [main] writes one error
    message and returns a non-zero status whatever the schedule: no thread is
    created, no progress or estimate line is printed, and the shared data
    (hence its counters and the random generator) is never touched. *)
Theorem main_fails_fast (inp : Input) (schedule : list thread) :
  num_pontos_aleatorios inp <= 0 \/ num_threads inp <= 0 \/
  Z.of_nat (length (scanned inp)) < 3 ->
  exists e,
    main RAND_MAX rand inp schedule = Some (mkOutcome EXIT_FAILURE [Stderr e] None) /\
    EXIT_FAILURE <> 0.
Proof.
  intros Hbad. unfold main, failure.
  destruct (negb (argc inp =? 4)); [exists Usage; easy|].
  destruct ((num_threads inp <=? 0) || (num_pontos_aleatorios inp <=? 0)) eqn:Ecounts;
    [exists InvalidCounts; easy|].
  apply orb_false_iff in Ecounts as [Et Ep].
  apply Z.leb_gt in Et, Ep.
  destruct (negb (open_ok inp)); [exists OpenFailed; easy|].
  destruct (negb (malloc_ok inp)); [exists MallocFailed; easy|].
  destruct (read_polygon MAX_POINTS (scanned inp) [] 0) as [[polygon n]|] eqn:Eread;
    [|exists TooManyPoints; easy].
  apply read_polygon_spec in Eread as [_ ->].
  destruct (0 + Z.of_nat (length (scanned inp)) <? 3) eqn:En;
    [exists InvalidPolygon; easy|].
  apply Z.ltb_ge in En. lia.
Qed.

End DriverProperties.

Lemma main_fails_fast_witness :
  exists e,
    main 32767 lcg_rand (mkInput 4 2 0 true true unit_square) [] =
      Some (mkOutcome EXIT_FAILURE [Stderr e] None) /\
    EXIT_FAILURE <> 0.
Proof.
  apply (main_fails_fast 32767 lcg_rand (mkInput 4 2 0 true true unit_square) []).
  left. cbn. lia.
Defined.

(** ** Every valid run can finish *)

Section Termination.
Variable RAND_MAX : Z.
Variable rand : nat -> Z.
Variable t : Z.
Hypothesis t_range : 0 <= t <= INT_MAX.

Lemma run_app (s1 s2 : list thread) :
  forall m, run RAND_MAX rand (s1 ++ s2) m = run RAND_MAX rand s2 (run RAND_MAX rand s1 m).
Proof.
  induction s1 as [|th s1 IH]; intros m; cbn [run app].
  - reflexivity.
  - destruct (step RAND_MAX rand th m); apply IH.
Qed.

(** One iteration of the loop of worker [k], with nobody in its way. *)
Lemma worker_iteration (k : nat) (i : Z) (m : machine) :
  workers m !! k = Some (mkWorker WLoop i t) ->
  0 <= i < t -> mutex (data m) = None ->
  exists d',
    run RAND_MAX rand (replicate 6 (Worker k)) m =
      mkMachine d' (<[k := mkWorker WLoop (i + 1) t]> (workers m)) (progress m)
                (S (S (rand_calls m))) (printed m) /\
    mutex d' = None /\ total_points d' = total_points (data m).
Proof.
  intros Hk Hi Hfree.
  assert (Hlen : (k < length (workers m))%nat) by (eapply lookup_lt_Some; eauto).
  destruct m as [d ws pr rc out]. cbn [workers data progress rand_calls printed] in *.
  assert (Hlt : (i <? t) = true) by (apply Z.ltb_lt; lia).
  eexists.
  cbn [replicate run step workers]. rewrite Hk.
  unfold worker_step at 1. cbn [w_pc w_i points_per_thread data workers progress rand_calls printed].
  rewrite Hlt.
  cbn [run step workers]. rewrite list_lookup_insert_eq by assumption.
  unfold worker_step at 1. cbn [w_pc w_i points_per_thread data workers progress rand_calls printed].
  cbn [run step workers]. rewrite list_lookup_insert_eq by (rewrite length_insert; assumption).
  unfold worker_step at 1. cbn [w_pc w_i points_per_thread data workers progress rand_calls printed].
  rewrite Hfree.
  cbn [run step workers].
  rewrite list_lookup_insert_eq by (rewrite !length_insert; assumption).
  unfold worker_step at 1. cbn [w_pc w_i points_per_thread data workers progress rand_calls printed].
  cbn [run step workers].
  rewrite list_lookup_insert_eq by (rewrite !length_insert; assumption).
  unfold worker_step at 1. cbn [w_pc w_i points_per_thread data workers progress rand_calls printed].
  cbn [run step workers].
  rewrite list_lookup_insert_eq by (rewrite !length_insert; assumption).
  unfold worker_step at 1. cbn [w_pc w_i points_per_thread data workers progress rand_calls printed].
  rewrite !list_insert_insert_eq.
  rewrite (wrap_int_small (i + 1)) by (unfold INT_MAX in *; lia).
  split; [reflexivity|].
  split; [reflexivity|].
  destruct (isInsidePolygon _ _ _); reflexivity.
Qed.

Lemma worker_iterations (k : nat) (n : nat) :
  forall (i : Z) (m : machine),
    workers m !! k = Some (mkWorker WLoop i t) ->
    0 <= i -> i + Z.of_nat n <= t -> mutex (data m) = None ->
    exists d' rc',
      run RAND_MAX rand (concat (replicate n (replicate 6 (Worker k)))) m =
        mkMachine d' (<[k := mkWorker WLoop (i + Z.of_nat n) t]> (workers m))
                  (progress m) rc' (printed m) /\
      mutex d' = None /\ total_points d' = total_points (data m).
Proof.
  induction n as [|n IH]; intros i m Hk Hi Hn Hfree.
  - exists (data m), (rand_calls m). cbn [replicate concat run].
    rewrite Z.add_0_r, (list_insert_id _ _ _ Hk).
    destruct m; auto.
  - assert (Hlen : (k < length (workers m))%nat) by (eapply lookup_lt_Some; eauto).
    rewrite replicate_S. cbn [concat]. rewrite run_app.
    destruct (worker_iteration k i m Hk) as (d1 & -> & Hfree1 & Htotal1);
      [lia|assumption|].
    destruct (IH (i + 1) (mkMachine d1 (<[k := mkWorker WLoop (i + 1) t]> (workers m))
                                    (progress m) (S (S (rand_calls m))) (printed m)))
      as (d2 & rc2 & -> & Hfree2 & Htotal2); cbn [workers data];
      [apply list_lookup_insert_eq; assumption|lia|lia|assumption|].
    exists d2, rc2. cbn [workers data progress printed] in *.
    rewrite list_insert_insert_eq.
    replace (i + 1 + Z.of_nat n) with (i + Z.of_nat (S n)) by lia.
    repeat split; congruence.
Qed.

(** A fresh worker running alone counts its [t] samples and returns. *)
Lemma worker_alone_exits (k : nat) (m : machine) :
  workers m !! k = Some (fresh t) -> mutex (data m) = None ->
  exists d' rc',
    run RAND_MAX rand (worker_alone k (Z.to_nat t)) m =
      mkMachine d' (<[k := exited t]> (workers m)) (progress m) rc' (printed m) /\
    mutex d' = None /\ total_points d' = total_points (data m).
Proof.
  intros Hk Hfree. unfold worker_alone. rewrite run_app.
  assert (Hlen : (k < length (workers m))%nat) by (eapply lookup_lt_Some; eauto).
  destruct (worker_iterations k (Z.to_nat t) 0 m Hk) as (d1 & rc1 & -> & Hfree1 & Htotal1);
    [lia|lia|assumption|].
  rewrite Z.add_0_l, Z2Nat.id by lia.
  cbn [run step workers]. rewrite list_lookup_insert_eq by assumption.
  unfold worker_step, set_worker. cbn [w_pc w_i points_per_thread data workers progress rand_calls printed].
  rewrite Z.ltb_irrefl, list_insert_insert_eq.
  exists d1, rc1. auto.
Qed.

(** The progress thread, finding every configured point checked, prints
    once and returns. *)
Lemma progress_alone_exits (m : machine) :
  mutex (data m) = None -> progress m = PSleep ->
  total_points (data m) <= points_checked (data m) ->
  exists out',
    run RAND_MAX rand progress_alone m =
      mkMachine (data m) (workers m) PExit (rand_calls m) out'.
Proof.
  destruct m as [d ws pr rc out]. cbn [data progress workers rand_calls].
  intros Hfree -> Hdone.
  unfold progress_alone. cbn [replicate run step progress_step progress data].
  rewrite Hfree.
  cbn [run step progress_step progress data workers rand_calls printed set_mutex
       points_checked total_points polygon polygon_size points_inside].
  replace (points_checked d >=? total_points d) with true
    by (symmetry; apply Z.geb_le; assumption).
  eexists. f_equal. destruct d. cbn in Hfree. subst. reflexivity.
Qed.

Lemma workers_in_turn (c : nat) :
  forall (j : nat) (m : machine),
    workers m = replicate j (exited t) ++ replicate c (fresh t) ->
    mutex (data m) = None ->
    exists d' rc',
      run RAND_MAX rand
          (concat (map (fun k => worker_alone k (Z.to_nat t)) (seq j c))) m =
        mkMachine d' (replicate (j + c) (exited t)) (progress m) rc' (printed m).
Proof.
  induction c as [|c IH]; intros j m Hws Hfree.
  - exists (data m), (rand_calls m). cbn [seq map concat run].
    rewrite Nat.add_0_r. cbn [replicate] in Hws. rewrite app_nil_r in Hws.
    rewrite <- Hws. destruct m; reflexivity.
  - cbn [seq map concat]. rewrite run_app.
    assert (Hj : workers m !! j = Some (fresh t)).
    { rewrite Hws. cbn [replicate]. apply list_lookup_middle.
      rewrite length_replicate. reflexivity. }
    destruct (worker_alone_exits j m Hj Hfree) as (d1 & rc1 & -> & Hfree1 & _).
    destruct (IH (S j) (mkMachine d1 (<[j := exited t]> (workers m)) (progress m) rc1 (printed m)))
      as (d2 & rc2 & ->); cbn [workers data progress printed].
    + rewrite Hws, insert_app_r_alt by (rewrite length_replicate; lia).
      rewrite length_replicate, Nat.sub_diag, (replicate_S_end j), <- app_assoc.
      reflexivity.
    + assumption.
    + exists d2, rc2. f_equal. f_equal. lia.
Qed.

Lemma total_contributed_fresh (c : nat) :
  total_contributed (replicate c (fresh t)) = 0.
Proof.
  induction c as [|c IH]; [reflexivity|].
  unfold total_contributed in *. cbn [replicate fold_right]. rewrite IH. reflexivity.
Qed.

Lemma forallb_exited (c : nat) :
  forallb worker_exited (replicate c (exited t)) = true.
Proof. induction c as [|c IH]; [reflexivity|]. cbn. exact IH. Qed.

(** Under the sequential order every thread of a run returns. *)
Lemma sequential_joins (polygon : list Point) (n threads : Z) :
  0 < threads ->
  all_joined (run RAND_MAX rand (sequential (Z.to_nat threads) t)
                  (spawn polygon n threads t)) = true.
Proof.
  intros Hthreads. unfold sequential. rewrite !run_app.
  pose proof (run_counters RAND_MAX rand t t_range (worker_alone 0 (Z.to_nat t)) _
                (spawn_counters t t_range polygon n threads)) as [_ Hchecked].
  revert Hchecked. unfold spawn.
  destruct (Z.to_nat threads) as [|c] eqn:Ethreads; [lia|].
  change (mkWorker WLoop 0 t) with (fresh t).
  destruct (worker_alone_exits 0
              (mkMachine (mkSharedData polygon n t 0 0 None) (replicate (S c) (fresh t))
                         PSleep 0 []))
    as (d1 & rc1 & -> & Hfree1 & Htotal1); [reflexivity|reflexivity|].
  cbn [data workers progress printed total_points] in *.
  intros Hchecked.
  rewrite (total_contributed_insert _ 0%nat (fresh t)) in Hchecked by reflexivity.
  rewrite total_contributed_fresh in Hchecked.
  replace (0 - contributed (fresh t) + contributed (exited t))
    with t in Hchecked by (unfold contributed; cbn; lia).
  rewrite wrap_int_small in Hchecked by (unfold INT_MAX in *; lia).
  destruct (progress_alone_exits
              (mkMachine d1 (<[0%nat := exited t]> (replicate (S c) (fresh t)))
                         PSleep rc1 [])) as (out2 & ->).
  - assumption.
  - reflexivity.
  - cbn [data]. rewrite Htotal1, Hchecked. lia.
  - cbn [data workers rand_calls Nat.sub]. rewrite Nat.sub_0_r.
    destruct (workers_in_turn c 1
                (mkMachine d1 (<[0%nat := exited t]> (replicate (S c) (fresh t)))
                           PExit rc1 out2)) as (d3 & rc3 & ->).
    + reflexivity.
    + assumption.
    + unfold all_joined. cbn [workers progress]. rewrite forallb_exited. reflexivity.
Qed.
End Termination.

(** With valid arguments and a readable polygon of at least three vertices
    [main] can run to its end: under the sequential order it prints the
    estimate and returns [EXIT_SUCCESS]. *)
Lemma main_completes (RAND_MAX : Z) (rand : nat -> Z) (inp : Input) :
  argc inp = 4 -> 0 < num_threads inp -> 0 < num_pontos_aleatorios inp <= INT_MAX ->
  open_ok inp = true -> malloc_ok inp = true ->
  3 <= Z.of_nat (length (scanned inp)) < MAX_POINTS ->
  exists o,
    main RAND_MAX rand inp
         (sequential (Z.to_nat (num_threads inp)) (num_pontos_aleatorios inp)) = Some o /\
    exit_status o = EXIT_SUCCESS.
Proof.
  intros Hargc Hthreads Hpoints Hopen Hmalloc Hscanned. unfold main.
  rewrite Hargc, Hopen, Hmalloc. cbn [Z.eqb Pos.eqb negb].
  replace (num_threads inp <=? 0) with false by (symmetry; apply Z.leb_gt; lia).
  replace (num_pontos_aleatorios inp <=? 0) with false by (symmetry; apply Z.leb_gt; lia).
  cbn [orb].
  rewrite read_polygon_complete by lia.
  replace (0 + Z.of_nat (length (scanned inp)) <? 3) with false
    by (symmetry; apply Z.ltb_ge; lia).
  rewrite sequential_joins by lia.
  eexists. split; reflexivity.
Qed.

(** C8. For valid arguments and a readable polygon of at least three
    vertices, [main] can run to its end, and whenever it does it returns
    [EXIT_SUCCESS] and the last line it prints is the estimate
    [(double)points_inside / num_pontos_aleatorios * 4.0]: a function of the
    final counter and the configured number of points only, printed after
    the thread creations and the progress lines. *)
Theorem main_prints_estimate (RAND_MAX : Z) (rand : nat -> Z) (inp : Input) :
  argc inp = 4 -> 0 < num_threads inp -> 0 < num_pontos_aleatorios inp <= INT_MAX ->
  open_ok inp = true -> malloc_ok inp = true ->
  3 <= Z.of_nat (length (scanned inp)) < MAX_POINTS ->
  (exists schedule o, main RAND_MAX rand inp schedule = Some o) /\
  (forall schedule o,
      main RAND_MAX rand inp schedule = Some o ->
      exit_status o = EXIT_SUCCESS /\
      exists m,
        final o = Some m /\
        events o =
          created (num_threads inp) ++ map Progresso (printed m) ++
          [AreaEstimada (double_of_int (points_inside (data m)) /
                         double_of_int (num_pontos_aleatorios inp) * 4)%float]).
Proof.
  intros Hargc Hthreads Hpoints Hopen Hmalloc Hscanned. split.
  - destruct (main_completes RAND_MAX rand inp) as (o & Hmain & _); eauto.
  - intros schedule o. unfold main.
    rewrite Hargc, Hopen, Hmalloc. cbn [Z.eqb Pos.eqb negb].
    replace (num_threads inp <=? 0) with false by (symmetry; apply Z.leb_gt; lia).
    replace (num_pontos_aleatorios inp <=? 0) with false by (symmetry; apply Z.leb_gt; lia).
    cbn [orb].
    rewrite read_polygon_complete by lia.
    replace (0 + Z.of_nat (length (scanned inp)) <? 3) with false
      by (symmetry; apply Z.ltb_ge; lia).
    destruct (all_joined _); [|discriminate].
    intros Hmain. injection Hmain as <-. cbn [exit_status final events].
    split; [reflexivity|]. eexists. split; reflexivity.
Qed.

(** One worker, four points, the unit square: the estimate printed is
    [(double)points_inside / 4 * 4.0]. *)
Lemma main_prints_estimate_witness :
  let inp := mkInput 4 1 4 true true unit_square in
  let schedule := worker_alone 0 4 ++ progress_alone in
  exists o m,
    main 32767 lcg_rand inp schedule = Some o /\
    exit_status o = EXIT_SUCCESS /\
    final o = Some m /\
    events o =
      created 1 ++ map Progresso (printed m) ++
      [AreaEstimada (double_of_int (points_inside (data m)) / double_of_int 4 * 4)%float].
Proof.
  intros inp schedule.
  assert (Hvalid : 3 <= Z.of_nat (length (scanned inp)) < MAX_POINTS)
    by (vm_compute; split; [discriminate|reflexivity]).
  assert (Hpoints : 0 < num_pontos_aleatorios inp <= INT_MAX)
    by (vm_compute; split; [reflexivity|discriminate]).
  destruct (main_prints_estimate 32767 lcg_rand inp eq_refl eq_refl Hpoints eq_refl eq_refl Hvalid)
    as [_ Hprints].
  destruct (main 32767 lcg_rand inp schedule) as [o|] eqn:Emain;
    [|vm_compute in Emain; discriminate].
  destruct (Hprints schedule o Emain) as (Hstatus & m & Hfinal & Hevents).
  exists o, m. auto.
Defined.

(** * Further properties of the code *)

(** ** [isInsidePolygon]: the crossing count and the array bounds *)

Lemma land_1_odd (z : Z) : 0 <= z -> negb (Z.land z 1 =? 0) = Z.odd z.
Proof. destruct z as [|[p|p|]|p]; intros Hz; try reflexivity; lia. Qed.

(** Without an early return the loop counts the edges the ray meets. *)
Lemma edge_loop_counts polygon n p :
  forall fuel count a,
    (Z.of_nat a < n) -> (Z.to_nat n - a <= fuel)%nat ->
    (forall j, Z.of_nat a <= j < n -> colinear_hit polygon n p j = false) ->
    edge_loop fuel polygon n p (extreme_of p) count (Z.of_nat a) =
      Some (negb (Z.land (count + Z.of_nat (length
              (List.filter (fun i => ray_hit polygon n p (Z.of_nat i))
                           (seq a (Z.to_nat n - a))))) 1 =? 0)).
Proof.
  induction fuel as [|fuel IH]; intros count a Ha Hf Hnone.
  - lia.
  - cbn [edge_loop].
    assert (Hhere : colinear_hit polygon n p (Z.of_nat a) = false) by (apply Hnone; lia).
    unfold colinear_hit, next_index in Hhere. rewrite Hhere. clear Hhere.
    replace (Z.to_nat n - a)%nat with (S (Z.to_nat n - S a)) by lia.
    cbn [seq List.filter]. unfold ray_hit at 1. unfold next_index.
    destruct (Z.eq_dec (Z.of_nat a + 1) n) as [Heq|Hne].
    + rewrite Heq, Z.rem_same by lia. cbn [Z.eqb].
      replace (Z.to_nat n - S a)%nat with 0%nat by lia. cbn [seq List.filter].
      destruct (doIntersect _ _ _ _); cbn [length]; cbv iota; do 4 f_equal; lia.
    + rewrite Z.rem_small by lia.
      destruct (Z.of_nat a + 1 =? 0) eqn:E; [lia|].
      replace (Z.of_nat a + 1) with (Z.of_nat (S a)) by lia.
      rewrite IH; [|lia|lia|intros j Hj; apply Hnone; lia].
      destruct (doIntersect _ _ _ _); cbn [length]; cbv iota; do 4 f_equal; lia.
Qed.

(** X1. When no edge met by the ray is colinear with the point, the result
    of [isInsidePolygon] is the parity of the number of edges the ray from
    the point to (2.5, p.y) meets: odd is inside. *)
Theorem isInsidePolygon_parity (polygon : list Point) (n : Z) (p : Point) :
  n = Z.of_nat (length polygon) -> 3 <= n ->
  (forall j, 0 <= j < n -> colinear_hit polygon n p j = false) ->
  isInsidePolygon polygon n p = Z.odd (Z.of_nat (length (crossing_edges polygon n p))).
Proof.
  intros _ Hn Hnone. unfold isInsidePolygon, isInsidePolygon_fuel, crossing_edges.
  destruct (n <? 3) eqn:E; [apply Z.ltb_lt in E; lia|].
  pose proof (edge_loop_counts polygon n p (Z.to_nat n) 0 0%nat) as Hloop.
  change (Z.of_nat 0) with 0 in Hloop.
  rewrite Hloop; [|lia|lia|exact Hnone].
  rewrite Nat.sub_0_r, Z.add_0_l. apply land_1_odd. lia.
Qed.

(** The centre of the unit square: its ray meets the right-hand edge only. *)
Lemma isInsidePolygon_parity_witness :
  isInsidePolygon unit_square 4 (mkPoint 0.5 0.5) =
    Z.odd (Z.of_nat (length (crossing_edges unit_square 4 (mkPoint 0.5 0.5)))) /\
  crossing_edges unit_square 4 (mkPoint 0.5 0.5) = [1%nat].
Proof.
  split; [|vm_compute; reflexivity].
  apply isInsidePolygon_parity; [reflexivity|lia|].
  intros j Hj.
  assert (Hcases : j = 0 \/ j = 1 \/ j = 2 \/ j = 3) by lia.
  destruct Hcases as [->|[->|[->| ->]]]; vm_compute; reflexivity.
Defined.

Lemma vertex_app (polygon rest : list Point) (i : Z) :
  0 <= i < Z.of_nat (length polygon) ->
  vertex (polygon ++ rest) i = vertex polygon i.
Proof.
  intros Hi. unfold vertex. apply app_nth1. lia.
Qed.

Lemma edge_loop_app polygon rest n p e :
  n = Z.of_nat (length polygon) ->
  forall fuel count i,
    0 <= i < n ->
    edge_loop fuel (polygon ++ rest) n p e count i = edge_loop fuel polygon n p e count i.
Proof.
  intros Hn. induction fuel as [|fuel IH]; intros count i Hi; [reflexivity|].
  cbn [edge_loop].
  assert (Hnext : 0 <= Z.rem (i + 1) n < n).
  { destruct (Z.eq_dec (i + 1) n) as [Heq|Hne].
    - rewrite Heq, Z.rem_same by lia. lia.
    - rewrite Z.rem_small by lia. lia. }
  rewrite !vertex_app by lia.
  destruct (doIntersect _ _ _ _ && _); [reflexivity|].
  destruct (Z.rem (i + 1) n =? 0); [reflexivity|].
  apply IH. lia.
Qed.

(** X2. [isInsidePolygon] reads the first [n] entries of the array only:
    whatever lies behind them (the rest of the buffer [main] allocates) does
    not change the result. *)
Theorem isInsidePolygon_reads_first_n
  (polygon rest : list Point) (n : Z) (p : Point) :
  n = Z.of_nat (length polygon) ->
  isInsidePolygon (polygon ++ rest) n p = isInsidePolygon polygon n p.
Proof.
  intros Hn. unfold isInsidePolygon, isInsidePolygon_fuel.
  destruct (n <? 3) eqn:E; [reflexivity|]. apply Z.ltb_ge in E.
  rewrite (edge_loop_app polygon rest n p (extreme_of p) Hn); [reflexivity|lia].
Qed.

Lemma isInsidePolygon_reads_first_n_witness :
  isInsidePolygon (unit_square ++ [mkPoint 9 9; mkPoint (-3) 0.25]) 4 (mkPoint 0.5 0.5) =
  isInsidePolygon unit_square 4 (mkPoint 0.5 0.5).
Proof. apply isInsidePolygon_reads_first_n. reflexivity. Defined.

(** ** [onSegment]: the two end points *)

Lemma is_nan_true_fkey (x : float) : is_nan x = true -> fkey x = None.
Proof.
  intros H. destruct (fkey x) as [k|] eqn:E; [|reflexivity].
  assert (is_nan x = false) by (apply is_nan_fkey; eauto). congruence.
Qed.

(** A comparison looks at the key of a float only. *)
Lemma leb_same_key_r (x a b : float) :
  fkey a = fkey b -> (x <=? a)%float = (x <=? b)%float.
Proof.
  intros Hab. destruct (fkey a) as [k|] eqn:Ha.
  - symmetry in Hab. destruct (fkey x) as [kx|] eqn:Hx.
    + pose proof (leb_keys x a _ _ Hx Ha) as H1.
      pose proof (leb_keys x b _ _ Hx Hab) as H2.
      destruct (x <=? a)%float, (x <=? b)%float; try reflexivity.
      * symmetry. apply H2, H1. reflexivity.
      * apply H1, H2. reflexivity.
    + rewrite !(leb_nan_l x) by assumption. reflexivity.
  - symmetry in Hab. rewrite (leb_nan_r x a), (leb_nan_r x b) by assumption. reflexivity.
Qed.

Lemma leb_same_key_l (x a b : float) :
  fkey a = fkey b -> (a <=? x)%float = (b <=? x)%float.
Proof.
  intros Hab. destruct (fkey a) as [k|] eqn:Ha.
  - symmetry in Hab. destruct (fkey x) as [kx|] eqn:Hx.
    + pose proof (leb_keys a x _ _ Ha Hx) as H1.
      pose proof (leb_keys b x _ _ Hab Hx) as H2.
      destruct (a <=? x)%float, (b <=? x)%float; try reflexivity.
      * symmetry. apply H2, H1. reflexivity.
      * apply H1, H2. reflexivity.
    + rewrite (leb_nan_r a x), (leb_nan_r b x) by assumption. reflexivity.
  - symmetry in Hab. rewrite (leb_nan_l a x), (leb_nan_l b x) by assumption. reflexivity.
Qed.

(** [fmax] and [fmin] return the same number for both orders of their
    arguments (the sign of a zero apart). *)
Lemma fmax_fmin_swap_key (a b : float) :
  fkey (fmax a b) = fkey (fmax b a) /\ fkey (fmin a b) = fkey (fmin b a).
Proof.
  unfold fmax, fmin.
  destruct (is_nan a) eqn:Na, (is_nan b) eqn:Nb.
  - apply is_nan_true_fkey in Na, Nb. rewrite Na, Nb. split; reflexivity.
  - split; reflexivity.
  - split; reflexivity.
  - apply is_nan_fkey in Na as [ka Ha], Nb as [kb Hb].
    pose proof (ltb_keys a b _ _ Ha Hb) as Hab.
    pose proof (ltb_keys b a _ _ Hb Ha) as Hba.
    destruct ka as [[ca ea] ma], kb as [[cb eb] mb]. unfold key_lt in *.
    destruct (a <? b)%float, (b <? a)%float; try (split; reflexivity).
    + exfalso. apply proj1 in Hab, Hba.
      specialize (Hab eq_refl). specialize (Hba eq_refl). lia.
    + assert (~ (ca < cb \/ ca = cb /\ (ea < eb \/ ea = eb /\ ma < mb)))
        by (intros H; apply Hab in H; discriminate).
      assert (~ (cb < ca \/ cb = ca /\ (eb < ea \/ eb = ea /\ mb < ma)))
        by (intros H0; apply Hba in H0; discriminate).
      rewrite Ha, Hb. split; f_equal; f_equal; [f_equal| |f_equal|]; lia.
Qed.

(** X3. [onSegment] treats the two end points of the segment alike:
    swapping [p] and [r] does not change its result, for all doubles. *)
Theorem onSegment_endpoints_swap (p q r : Point) :
  onSegment p q r = onSegment r q p.
Proof.
  unfold onSegment.
  destruct (fmax_fmin_swap_key (px p) (px r)) as [Hmaxx Hminx].
  destruct (fmax_fmin_swap_key (py p) (py r)) as [Hmaxy Hminy].
  rewrite (leb_same_key_r (px q) _ _ Hmaxx), (leb_same_key_l (px q) _ _ Hminx).
  rewrite (leb_same_key_r (py q) _ _ Hmaxy), (leb_same_key_l (py q) _ _ Hminy).
  reflexivity.
Qed.

(** ** The mutex: mutual exclusion and no deadlock *)

(** How a statement of worker [k] may change the mutex and its own place. *)
Lemma worker_update_lock_inv (m : machine) (k : nat) (w w' : worker)
      (d' : SharedData) (rc : nat) (out : list Z) :
  workers m !! k = Some w ->
  lock_inv m ->
  (mutex d' = mutex (data m) /\ in_critical w' = in_critical w) \/
  (mutex (data m) = None /\ mutex d' = Some (Worker k) /\ in_critical w' = true) \/
  (in_critical w = true /\ mutex d' = None /\ in_critical w' = false) ->
  lock_inv (mkMachine d' (<[k := w']> (workers m)) (progress m) rc out).
Proof.
  intros Hk Hinv Hcases.
  assert (Hlen : (k < length (workers m))%nat) by (eapply lookup_lt_Some; eauto).
  assert (Hself : critical m (Worker k) = in_critical w) by (cbn; rewrite Hk; reflexivity).
  assert (Hother : forall th, th <> Worker k ->
            critical (mkMachine d' (<[k := w']> (workers m)) (progress m) rc out) th =
            critical m th).
  { intros [j|] Hne; cbn [critical workers progress]; [|reflexivity].
    rewrite list_lookup_insert_ne by congruence. reflexivity. }
  assert (Hnew : critical (mkMachine d' (<[k := w']> (workers m)) (progress m) rc out)
                          (Worker k) = in_critical w').
  { cbn [critical workers]. rewrite list_lookup_insert_eq by assumption. reflexivity. }
  pose proof (Hinv (Worker k)) as Hown. rewrite Hself in Hown.
  intros th. cbn [data].
  assert (Hdec : th = Worker k \/ th <> Worker k).
  { destruct th as [j|]; [|right; discriminate].
    destruct (Nat.eq_dec j k); [left|right]; congruence. }
  destruct Hdec as [->|Hne].
  - rewrite Hnew.
    destruct Hcases as [[Hm Hc]|[(Hfree & Hm & Hc)|(Hc & Hm & Hc')]].
    + rewrite Hm, Hc. exact Hown.
    + rewrite Hm, Hc. split; reflexivity.
    + rewrite Hm, Hc'. split; discriminate.
  - rewrite (Hother th Hne). specialize (Hinv th).
    destruct Hcases as [[Hm Hc]|[(Hfree & Hm & Hc)|(Hc & Hm & Hc')]].
    + rewrite Hm. exact Hinv.
    + rewrite Hm. rewrite Hfree in Hinv. split; [|congruence].
      intros H. apply Hinv in H. discriminate.
    + rewrite Hm. split; [|discriminate].
      intros H. apply Hinv in H. apply Hown in Hc. congruence.
Qed.

Section LockDiscipline.
Variable RAND_MAX : Z.
Variable rand : nat -> Z.

Lemma step_lock_inv (th : thread) (m m' : machine) :
  lock_inv m -> step RAND_MAX rand th m = Some m' -> lock_inv m'.
Proof.
  intros Hinv Hstep. destruct th as [k|]; cbn [step] in Hstep.
  - destruct (workers m !! k) as [w|] eqn:Hk; [|discriminate].
    unfold worker_step, set_worker in Hstep.
    destruct (w_pc w) eqn:Epc.
    + destruct (w_i w <? points_per_thread w); injection Hstep as <-;
        refine (worker_update_lock_inv m k w _ _ _ _ Hk Hinv _);
        left; unfold in_critical; rewrite Epc; split; reflexivity.
    + injection Hstep as <-. refine (worker_update_lock_inv m k w _ _ _ _ Hk Hinv _).
      left. unfold in_critical. rewrite Epc. split; reflexivity.
    + destruct (mutex (data m)) eqn:Hfree; [discriminate|].
      injection Hstep as <-. refine (worker_update_lock_inv m k w _ _ _ _ Hk Hinv _).
      right. left. split; [exact Hfree|split; reflexivity].
    + injection Hstep as <-. refine (worker_update_lock_inv m k w _ _ _ _ Hk Hinv _).
      left. unfold in_critical. rewrite Epc. split; reflexivity.
    + injection Hstep as <-. refine (worker_update_lock_inv m k w _ _ _ _ Hk Hinv _).
      left. unfold in_critical. rewrite Epc.
      destruct (isInsidePolygon _ _ _); split; reflexivity.
    + injection Hstep as <-. refine (worker_update_lock_inv m k w _ _ _ _ Hk Hinv _).
      right. right. unfold in_critical. rewrite Epc. repeat split.
    + discriminate.
  - assert (Hworkers : forall d' pr rc out j,
               critical (mkMachine d' (workers m) pr rc out) (Worker j) =
               critical m (Worker j)) by reflexivity.
    pose proof (Hinv Progress) as Hown. cbn [critical] in Hown.
    unfold progress_step in Hstep.
    destruct (progress m) eqn:Epc.
    + destruct (mutex (data m)) eqn:Hfree; [discriminate|].
      injection Hstep as <-. intros [j|]; cbn [data set_mutex mutex].
      * rewrite Hworkers. specialize (Hinv (Worker j)). rewrite Hfree in Hinv.
        split; [|congruence]. intros H. apply Hinv in H. discriminate.
      * cbn. split; reflexivity.
    + injection Hstep as <-. intros [j|]; cbn [data].
      * rewrite Hworkers. apply Hinv.
      * cbn [critical progress progress_critical]. exact Hown.
    + injection Hstep as <-. intros [j|]; cbn [data set_mutex mutex].
      * rewrite Hworkers. specialize (Hinv (Worker j)).
        split; [|discriminate]. intros H. apply Hinv in H.
        assert (mutex (data m) = Some Progress) by (apply Hown; reflexivity).
        congruence.
      * cbn. split; discriminate.
    + injection Hstep as <-. intros [j|]; cbn [data].
      * rewrite Hworkers. apply Hinv.
      * cbn [critical progress]. cbn [progress_critical] in Hown.
        destruct (checked >=? total_points (data m)); exact Hown.
    + discriminate.
Qed.

Lemma run_lock_inv (schedule : list thread) :
  forall m, lock_inv m -> lock_inv (run RAND_MAX rand schedule m).
Proof.
  induction schedule as [|th rest IH]; intros m Hinv; cbn [run].
  - assumption.
  - destruct (step RAND_MAX rand th m) as [m'|] eqn:Hstep.
    + apply IH. eapply step_lock_inv; eauto.
    + apply IH. assumption.
Qed.

Lemma spawn_lock_inv (polygon : list Point) (n threads t : Z) :
  lock_inv (spawn polygon n threads t).
Proof.
  intros [k|]; unfold spawn; cbn [critical workers progress data mutex progress_critical].
  - split; [|discriminate].
    destruct (replicate (Z.to_nat threads) (mkWorker WLoop 0 t) !! k) as [w|] eqn:E;
      [|discriminate].
    apply lookup_replicate_1 in E as [-> _]. discriminate.
  - split; discriminate.
Qed.

(** X4. Mutual exclusion. In every state the threads can reach, a thread is
    between its lock and its unlock exactly when it owns the mutex; so no two
    threads (workers or the progress thread) are ever inside their critical
    sections together. *)
Theorem mutual_exclusion
  (polygon : list Point) (n threads t : Z) (schedule : list thread) :
  let m := run RAND_MAX rand schedule (spawn polygon n threads t) in
  (forall th, critical m th = true <-> mutex (data m) = Some th) /\
  (forall th1 th2, critical m th1 = true -> critical m th2 = true -> th1 = th2).
Proof.
  intros m.
  assert (Hinv : lock_inv m) by (apply run_lock_inv, spawn_lock_inv).
  split; [exact Hinv|].
  intros th1 th2 H1 H2. apply Hinv in H1, H2. congruence.
Qed.

Lemma forallb_false_lookup (ws : list worker) :
  forallb worker_exited ws = false ->
  exists k w, ws !! k = Some w /\ worker_exited w = false.
Proof.
  induction ws as [|w ws IH]; [discriminate|].
  cbn [forallb]. destruct (worker_exited w) eqn:E.
  - intros H. destruct (IH H) as (k & w' & Hk & Hw). exists (S k), w'. auto.
  - intros _. exists 0%nat, w. auto.
Qed.

(** X5. No deadlock. In every state the threads can reach, unless every
    thread has returned some thread can run its next statement: the owner of
    the mutex if there is one, any thread that has not returned otherwise. *)
Theorem no_deadlock
  (polygon : list Point) (n threads t : Z) (schedule : list thread) :
  let m := run RAND_MAX rand schedule (spawn polygon n threads t) in
  all_joined m = false ->
  exists th m', step RAND_MAX rand th m = Some m'.
Proof.
  intros m Hrunning.
  assert (Hinv : lock_inv m) by (apply run_lock_inv, spawn_lock_inv).
  destruct (mutex (data m)) as [[k|]|] eqn:Hmutex.
  - pose proof (proj2 (Hinv (Worker k)) Hmutex) as Hcrit. cbn [critical] in Hcrit.
    destruct (workers m !! k) as [w|] eqn:Hk; [|discriminate].
    exists (Worker k). cbn [step]. rewrite Hk. unfold worker_step, in_critical in *.
    destruct (w_pc w); try discriminate; eauto.
  - pose proof (proj2 (Hinv Progress) Hmutex) as Hcrit. cbn [critical] in Hcrit.
    exists Progress. cbn [step]. unfold progress_step.
    destruct (progress m); try discriminate; eauto.
  - unfold all_joined in Hrunning. apply andb_false_iff in Hrunning as [Hws|Hpr].
    + destruct (forallb_false_lookup _ Hws) as (k & w & Hk & Hw).
      exists (Worker k). cbn [step]. rewrite Hk. unfold worker_step, set_worker.
      rewrite Hmutex. unfold worker_exited in Hw.
      destruct (w_pc w); try discriminate; eauto.
      destruct (w_i w <? points_per_thread w); eauto.
    + exists Progress. cbn [step]. unfold progress_step, progress_exited in *.
      rewrite Hmutex. destruct (progress m); try discriminate; eauto.
Qed.

End LockDiscipline.

(** Two workers, the second waiting for the mutex the first holds. *)
Lemma no_deadlock_witness :
  let m := run 32767 lcg_rand [Worker 0; Worker 0; Worker 0; Worker 1; Worker 1; Worker 1]
               (spawn unit_square 4 2 1) in
  step 32767 lcg_rand (Worker 1) m = None /\
  exists th m', step 32767 lcg_rand th m = Some m'.
Proof.
  split; [vm_compute; reflexivity|].
  apply (no_deadlock 32767 lcg_rand unit_square 4 2 1). vm_compute. reflexivity.
Defined.

(** ** The counters along a run *)

Section EngineInvariant.
Variable RAND_MAX : Z.
Variable rand : nat -> Z.
Variable threads t : Z.
Hypothesis threads_nonneg : 0 <= threads.
Hypothesis t_range : 0 <= t <= INT_MAX.
Hypothesis no_overflow : threads * t <= INT_MAX.

Lemma spawn_engine_inv (polygon : list Point) (n : Z) :
  engine_inv threads t (spawn polygon n threads t).
Proof.
  split; [|split].
  - unfold spawn. cbn [workers]. apply length_replicate.
  - apply spawn_counters. assumption.
  - unfold ordered_inv, spawn. cbn [workers data points_inside points_checked].
    assert (H0 : forall c, total_classified (replicate c (mkWorker WLoop 0 t)) = 0 /\
                           total_contributed (replicate c (mkWorker WLoop 0 t)) = 0).
    { induction c as [|c [IH1 IH2]]; [split; reflexivity|].
      unfold total_classified, total_contributed in *. cbn [replicate fold_right].
      rewrite IH1, IH2. split; reflexivity. }
    destruct (H0 (Z.to_nat threads)) as [-> ->]. lia.
Qed.

Lemma step_engine_inv (th : thread) (m m' : machine) :
  engine_inv threads t m ->
  step RAND_MAX rand th m = Some m' ->
  engine_inv threads t m' /\
  points_inside (data m) <= points_inside (data m') /\
  points_checked (data m) <= points_checked (data m').
Proof.
  intros (Hlen & Hcnt & Hord) Hstep.
  destruct (step_ordered RAND_MAX rand t t_range th m m') as (Hord' & Hmono);
    [rewrite Hlen, Z2Nat.id by lia; assumption|apply Hcnt|assumption|assumption|].
  split; [|exact Hmono].
  split; [|split].
  - rewrite (step_workers_length _ _ _ _ _ Hstep). assumption.
  - eapply step_counters; eauto.
  - assumption.
Qed.

Lemma run_engine_inv (schedule : list thread) :
  forall m,
    engine_inv threads t m ->
    engine_inv threads t (run RAND_MAX rand schedule m) /\
    points_inside (data m) <= points_inside (data (run RAND_MAX rand schedule m)) /\
    points_checked (data m) <= points_checked (data (run RAND_MAX rand schedule m)).
Proof.
  induction schedule as [|th rest IH]; intros m Hinv; cbn [run].
  - split; [assumption|lia].
  - destruct (step RAND_MAX rand th m) as [m1|] eqn:Hstep; [|apply IH; assumption].
    destruct (step_engine_inv th m m1 Hinv Hstep) as (Hinv1 & Hin & Hch).
    destruct (IH m1 Hinv1) as (Hinv' & Hin' & Hch').
    split; [assumption|lia].
Qed.

(** X7. Without overflow ([threads * t] fits an [int]) the two counters
    never decrease: what a run holds after a prefix of a schedule is at most
    what it holds after the whole schedule. *)
Theorem counters_monotone
  (polygon : list Point) (n : Z) (s1 s2 : list thread) :
  let m1 := run RAND_MAX rand s1 (spawn polygon n threads t) in
  let m2 := run RAND_MAX rand (s1 ++ s2) (spawn polygon n threads t) in
  points_inside (data m1) <= points_inside (data m2) /\
  points_checked (data m1) <= points_checked (data m2).
Proof.
  intros m1 m2. unfold m2. rewrite run_app. fold m1.
  assert (Hinv1 : engine_inv threads t m1)
    by (apply run_engine_inv, spawn_engine_inv).
  apply (run_engine_inv s2 m1 Hinv1).
Qed.

End EngineInvariant.

Lemma counters_monotone_witness :
  let m1 := run 32767 lcg_rand (worker_alone 0 1) (spawn unit_square 4 2 3) in
  let m2 := run 32767 lcg_rand (worker_alone 0 1 ++ worker_alone 1 2)
                (spawn unit_square 4 2 3) in
  points_inside (data m1) <= points_inside (data m2) /\
  points_checked (data m1) <= points_checked (data m2).
Proof.
  apply (counters_monotone 32767 lcg_rand 2 3); unfold INT_MAX; lia.
Defined.

(** Two workers and three points: between worker 1's two increments. *)
Lemma run_ordered_witness :
  let m := run 32767 lcg_rand (worker_alone 0 3 ++ replicate 4 (Worker 1))
               (spawn unit_square 4 2 3) in
  0 <= points_inside (data m) <= points_checked (data m) /\
  points_checked (data m) <= 2 * 3.
Proof.
  apply (run_ordered 32767 lcg_rand 3); unfold INT_MAX; lia.
Defined.

(** ** Calls of the random generator *)

Lemma worker_sum_insert (f : worker -> Z) (ws : list worker) :
  forall (k : nat) (w w' : worker),
    ws !! k = Some w ->
    worker_sum f (<[k := w']> ws) = worker_sum f ws - f w + f w'.
Proof.
  unfold worker_sum.
  induction ws as [|w0 ws IH]; intros k w w' Hk.
  - discriminate.
  - destruct k as [|k].
    + cbn in *. injection Hk as ->. lia.
    + specialize (IH k w w' Hk).
      change (<[S k := w']> (w0 :: ws)) with (w0 :: <[k := w']> ws).
      cbn [fold_right]. lia.
Qed.

Lemma worker_sum_draws_le (t : Z) (ws : list worker) :
  Forall (worker_ok t) ws -> worker_sum draws ws <= 2 * (Z.of_nat (length ws) * t).
Proof.
  unfold worker_sum.
  induction 1 as [|w ws Hw _ IH]; cbn [fold_right length]; [lia|].
  destruct Hw as (_ & Hi & Hpc).
  assert (draws w <= 2 * t) by (unfold draws; destruct (w_pc w); lia).
  lia.
Qed.

Lemma worker_sum_draws_exited (t : Z) (ws : list worker) :
  Forall (worker_ok t) ws -> forallb worker_exited ws = true ->
  worker_sum draws ws = 2 * (Z.of_nat (length ws) * t).
Proof.
  unfold worker_sum.
  induction 1 as [|w ws Hw _ IH]; cbn [forallb fold_right length]; [reflexivity|].
  intros Hall. apply andb_true_iff in Hall as [Hexit Hrest].
  rewrite (IH Hrest). destruct Hw as (_ & _ & Hpc).
  unfold worker_exited in Hexit. unfold draws.
  destruct (w_pc w); try discriminate. lia.
Qed.

Section RandCalls.
Variable RAND_MAX : Z.
Variable rand : nat -> Z.
Variable t : Z.
Hypothesis t_range : 0 <= t <= INT_MAX.

Lemma step_rand_calls (th : thread) (m m' : machine) :
  Forall (worker_ok t) (workers m) ->
  Z.of_nat (rand_calls m) = worker_sum draws (workers m) ->
  step RAND_MAX rand th m = Some m' ->
  Z.of_nat (rand_calls m') = worker_sum draws (workers m').
Proof.
  intros Hws Hcalls Hstep. destruct th as [k|]; cbn [step] in Hstep.
  - destruct (workers m !! k) as [w|] eqn:Hk; [|discriminate].
    assert (Hw : worker_ok t w) by (eapply Forall_lookup_1; eauto).
    destruct Hw as (Hppt & Hi & Hpc).
    unfold worker_step, set_worker in Hstep.
    destruct (w_pc w) eqn:Epc;
      try destruct (w_i w <? points_per_thread w);
      try destruct (mutex (data m)); try discriminate;
      injection Hstep as <-; cbn [workers rand_calls];
      rewrite (worker_sum_insert draws _ k w _ Hk), <- Hcalls;
      unfold draws; rewrite Epc; cbn [w_pc w_i];
      try rewrite (wrap_int_small (w_i w + 1)) by (unfold INT_MAX in *; lia);
      lia.
  - unfold progress_step in Hstep.
    destruct (progress m); try discriminate;
      try destruct (mutex (data m)); try discriminate;
      injection Hstep as <-; assumption.
Qed.

Lemma run_rand_calls (schedule : list thread) :
  forall m,
    counters_inv t m ->
    Z.of_nat (rand_calls m) = worker_sum draws (workers m) ->
    Z.of_nat (rand_calls (run RAND_MAX rand schedule m)) =
      worker_sum draws (workers (run RAND_MAX rand schedule m)).
Proof.
  induction schedule as [|th rest IH]; intros m Hcnt Hcalls; cbn [run].
  - assumption.
  - destruct (step RAND_MAX rand th m) as [m1|] eqn:Hstep; [|apply IH; assumption].
    apply IH.
    + eapply step_counters; eauto.
    + eapply step_rand_calls; eauto. apply Hcnt.
Qed.

(** X8. Two calls of [rand()] per sample and no more: in every state the
    threads can reach the generator has been called at most
    [2 * threads * t] times, and exactly that often once every thread has
    returned. *)
Theorem rand_calls_two_per_sample
  (polygon : list Point) (n threads : Z) (schedule : list thread) :
  0 <= threads ->
  let m := run RAND_MAX rand schedule (spawn polygon n threads t) in
  Z.of_nat (rand_calls m) <= 2 * (threads * t) /\
  (all_joined m = true -> Z.of_nat (rand_calls m) = 2 * (threads * t)).
Proof.
  intros Hthreads m.
  pose proof (run_counters RAND_MAX rand t t_range schedule _
                (spawn_counters t t_range polygon n threads)) as Hcnt.
  fold m in Hcnt.
  assert (Hcalls : Z.of_nat (rand_calls m) = worker_sum draws (workers m)).
  { apply run_rand_calls; [apply spawn_counters; assumption|].
    unfold spawn. cbn [rand_calls workers].
    induction (Z.to_nat threads) as [|c IH]; [reflexivity|].
    unfold worker_sum in *. cbn [replicate fold_right]. rewrite <- IH. reflexivity. }
  assert (Hlen : Z.of_nat (length (workers m)) = threads).
  { unfold m. rewrite run_workers_length. unfold spawn. cbn [workers].
    rewrite length_replicate. lia. }
  destruct Hcnt as [Hws _]. rewrite Hcalls. split.
  - rewrite <- Hlen. apply worker_sum_draws_le. assumption.
  - intros Hjoined. unfold all_joined in Hjoined.
    apply andb_true_iff in Hjoined as [Hexited _].
    rewrite <- Hlen. apply worker_sum_draws_exited; assumption.
Qed.

End RandCalls.

Lemma rand_calls_two_per_sample_witness :
  let m := run 32767 lcg_rand (sequential 2 3) (spawn unit_square 4 2 3) in
  Z.of_nat (rand_calls m) <= 2 * (2 * 3) /\
  (all_joined m = true -> Z.of_nat (rand_calls m) = 2 * (2 * 3)) /\
  all_joined m = true.
Proof.
  split; [|split].
  - apply (rand_calls_two_per_sample 32767 lcg_rand 3); unfold INT_MAX; lia.
  - apply (rand_calls_two_per_sample 32767 lcg_rand 3); unfold INT_MAX; lia.
  - vm_compute. reflexivity.
Defined.

(** ** The percentages of the progress thread *)

Lemma StronglySorted_snoc (l : list Z) (y : Z) :
  StronglySorted Z.le l -> Forall (fun x => x <= y) l ->
  StronglySorted Z.le (l ++ [y]).
Proof.
  induction 1 as [|x l Hl IH Hx]; intros Hy; cbn [app].
  - constructor; constructor.
  - apply Forall_cons in Hy as [Hxy Hy].
    constructor; [apply IH; assumption|].
    apply Forall_app. split; [assumption|]. constructor; [assumption|constructor].
Qed.

Lemma worker_step_frame (RAND_MAX : Z) (rand : nat -> Z) (k : nat) (m m' : machine) :
  step RAND_MAX rand (Worker k) m = Some m' ->
  progress m' = progress m /\ printed m' = printed m.
Proof.
  cbn [step]. destruct (workers m !! k) as [w|]; [|discriminate].
  unfold worker_step, set_worker.
  destruct (w_pc w); try discriminate;
    try destruct (w_i w <? points_per_thread w);
    try destruct (mutex (data m)); try discriminate;
    intros H; injection H as <-; split; reflexivity.
Qed.

Section ProgressOutput.
Variable RAND_MAX : Z.
Variable rand : nat -> Z.
Variable threads t : Z.
Hypothesis threads_nonneg : 0 <= threads.
Hypothesis t_range : 0 < t <= INT_MAX.
Hypothesis no_overflow : threads * t * 100 <= INT_MAX.

Lemma checked_bound (m : machine) :
  engine_inv threads t m -> points_checked (data m) <= threads * t.
Proof.
  intros (Hlen & (Hws & _) & (_ & ->)).
  pose proof (total_contributed_le t _ Hws) as Hle.
  rewrite Hlen, Z2Nat.id in Hle by assumption. exact Hle.
Qed.

Lemma step_progress_inv (th : thread) (m m' : machine) :
  engine_inv threads t m -> progress_inv t m ->
  step RAND_MAX rand th m = Some m' ->
  progress_inv t m'.
Proof.
  intros Heng (Htot & Hsorted & Hlog & Hseen & Hout) Hstep.
  assert (Hnov : threads * t <= INT_MAX) by nia.
  assert (Ht : 0 <= t <= INT_MAX) by lia.
  destruct (step_engine_inv RAND_MAX rand threads t threads_nonneg Ht Hnov
              th m m' Heng Hstep) as (Heng' & _ & Hmono).
  pose proof (checked_bound m Heng) as Hbound.
  destruct (step_same_config _ _ _ _ _ Hstep) as (_ & _ & Htot').
  destruct th as [k|].
  - destruct (worker_step_frame _ _ _ _ _ Hstep) as [Hpr Hprinted].
    unfold progress_inv, seen, progress_exited in *.
    rewrite Hpr, Hprinted.
    split; [congruence|]. split; [assumption|]. split; [assumption|].
    destruct (progress m); (split; [lia|]); try assumption;
      (eapply Forall_impl; [exact Hout|]); cbv beta; intros p [Hp0 Hp];
      (split; [assumption|]);
      (etransitivity; [exact Hp|]); apply Z.quot_le_mono; lia.
  - cbn [step] in Hstep. unfold progress_step in Hstep.
    unfold progress_inv, seen, progress_exited in *.
    destruct (progress m) as [| |c|c|] eqn:Epr; try discriminate.
    + destruct (mutex (data m)); [discriminate|]. injection Hstep as <-.
      cbn [data progress printed set_mutex total_points points_checked].
      repeat split; try assumption; lia.
    + injection Hstep as <-.
      cbn [data progress printed total_points points_checked].
      repeat split; try assumption; lia.
    + injection Hstep as <-.
      cbn [data progress printed set_mutex total_points points_checked].
      repeat split; try assumption; lia.
    + injection Hstep as <-. rewrite Htot.
      rewrite (wrap_int_small (c * 100)) by (unfold INT_MAX in *; nia).
      cbn [data progress printed total_points points_checked].
      assert (Hpct0 : 0 <= Z.quot (c * 100) t) by (apply Z.quot_pos; lia).
      assert (Hup : Z.quot (c * 100) t <= Z.quot (points_checked (data m) * 100) t)
        by (apply Z.quot_le_mono; lia).
      assert (Hold : Forall (fun p => p <= Z.quot (c * 100) t) (printed m))
        by (eapply Forall_impl; [exact Hout|]; cbv beta; intros p Hp; lia).
      split; [assumption|].
      split; [apply StronglySorted_snoc; assumption|].
      split.
      * destruct (c >=? t) eqn:Ec.
        -- exists (printed m), (Z.quot (c * 100) t).
           split; [reflexivity|]. split; [exact Hlog|].
           apply Z.geb_le in Ec.
           replace 100 with (Z.quot (100 * t) t) at 1 by (apply Z.quot_mul; lia).
           apply Z.quot_le_mono; lia.
        -- apply Forall_app. split; [exact Hlog|].
           constructor; [|constructor].
           apply Z.quot_lt_upper_bound; [lia|lia|].
           destruct (Z.geb_spec c t); [discriminate|]. lia.
      * assert (Hall : Forall (fun p => 0 <= p <= Z.quot (points_checked (data m) * 100) t)
                         (printed m ++ [Z.quot (c * 100) t])).
        { apply Forall_app. split.
          - eapply Forall_impl; [exact Hout|]. cbv beta. intros p Hp. lia.
          - constructor; [lia|constructor]. }
        destruct (c >=? t); (split; [lia|exact Hall]).
Qed.

Lemma run_progress_inv (schedule : list thread) :
  forall m,
    engine_inv threads t m -> progress_inv t m ->
    engine_inv threads t (run RAND_MAX rand schedule m) /\
    progress_inv t (run RAND_MAX rand schedule m).
Proof.
  assert (Hnov : threads * t <= INT_MAX) by nia.
  assert (Ht : 0 <= t <= INT_MAX) by lia.
  induction schedule as [|th rest IH]; intros m Heng Hinv; cbn [run].
  - split; assumption.
  - destruct (step RAND_MAX rand th m) as [m1|] eqn:Hstep; [|apply IH; assumption].
    apply IH.
    + apply (step_engine_inv RAND_MAX rand threads t threads_nonneg Ht Hnov
               th m m1 Heng Hstep).
    + eapply step_progress_inv; eauto.
Qed.

Lemma spawn_progress_inv (polygon : list Point) (n : Z) :
  progress_inv t (spawn polygon n threads t).
Proof.
  unfold progress_inv, seen, progress_exited, spawn.
  cbn [data progress printed total_points points_checked progress_log].
  repeat split; try constructor; lia.
Qed.

(** X9. When [100 * threads * t] fits an [int] and [t > 0], the percentages
    the progress thread prints never go down, and each lies between 0 and
    [100 * threads]. *)
Theorem progress_percentages_nondecreasing
  (polygon : list Point) (n : Z) (schedule : list thread) :
  let m := run RAND_MAX rand schedule (spawn polygon n threads t) in
  StronglySorted Z.le (printed m) /\
  Forall (fun p => 0 <= p <= 100 * threads) (printed m).
Proof.
  intros m.
  assert (Hnov : threads * t <= INT_MAX) by nia.
  assert (Ht : 0 <= t <= INT_MAX) by lia.
  destruct (run_progress_inv schedule (spawn polygon n threads t)
              (spawn_engine_inv threads t Ht polygon n)
              (spawn_progress_inv polygon n))
    as (Heng & _ & Hsorted & _ & Hseen & Hout).
  fold m in Heng, Hsorted, Hseen, Hout.
  split; [assumption|].
  pose proof (checked_bound m Heng) as Hbound.
  eapply Forall_impl; [exact Hout|]. cbv beta. intros p [Hp0 Hp].
  split; [assumption|]. etransitivity; [exact Hp|].
  replace (100 * threads) with (Z.quot (100 * threads * t) t)
    by (apply Z.quot_mul; lia).
  apply Z.quot_le_mono; nia.
Qed.

(** X10. Under the same bounds the progress thread stops at the first
    percentage that reaches 100: while it loops every line printed is below
    100, and once it has returned the last line, and no other, is at least
    100. *)
Theorem progress_stops_at_100
  (polygon : list Point) (n : Z) (schedule : list thread) :
  let m := run RAND_MAX rand schedule (spawn polygon n threads t) in
  progress_log (progress_exited m) (printed m).
Proof.
  intros m.
  assert (Ht : 0 <= t <= INT_MAX) by lia.
  destruct (run_progress_inv schedule (spawn polygon n threads t)
              (spawn_engine_inv threads t Ht polygon n)
              (spawn_progress_inv polygon n))
    as (_ & _ & _ & Hlog & _).
  exact Hlog.
Qed.

End ProgressOutput.

(** Two workers, three points each: the lines printed are relative to the
    three points of one worker. *)
Lemma progress_percentages_nondecreasing_witness :
  let schedule := worker_alone 0 1 ++ progress_alone ++ worker_alone 1 1 ++
                  progress_alone ++ worker_alone 0 2 ++ progress_alone in
  let m := run 32767 lcg_rand schedule (spawn unit_square 4 2 3) in
  (StronglySorted Z.le (printed m) /\
   Forall (fun p => 0 <= p <= 100 * 2) (printed m)) /\
  printed m = [33; 66; 133].
Proof.
  split; [|vm_compute; reflexivity].
  apply (progress_percentages_nondecreasing 32767 lcg_rand 2 3);
    unfold INT_MAX; lia.
Defined.

Lemma progress_stops_at_100_witness :
  let schedule := worker_alone 0 3 ++ progress_alone ++ progress_alone in
  let m := run 32767 lcg_rand schedule (spawn unit_square 4 2 3) in
  progress_log (progress_exited m) (printed m) /\
  progress_exited m = true /\ printed m = [100].
Proof.
  split; [|vm_compute; split; reflexivity].
  apply (progress_stops_at_100 32767 lcg_rand 2 3); unfold INT_MAX; lia.
Defined.

(** ** The estimate *)

Lemma SF64mul_four_le_four (z : spec_float) :
  (z = S754_zero false \/
   exists m e, z = S754_finite false m e /\ e <= 0 /\ Zpos m <= 2 ^ (0 - e)) ->
  SF64mul z (Prim2SF 4) = S754_zero false \/
  exists m e, SF64mul z (Prim2SF 4) = S754_finite false m e /\
              e <= 2 /\ Zpos m <= 2 ^ (2 - e).
Proof.
  change (Prim2SF 4) with (S754_finite false 4503599627370496 (-50)).
  intros [Hz|(m & e & Hz & He & Hm)]; subst z; [left; reflexivity|].
  unfold SF64mul, SFmul. cbn [xorb].
  apply binary_round_aux_below; [lia|lia| |congruence].
  right. split; [lia|].
  rewrite Pos2Z.inj_mul. change (Zpos 4503599627370496) with (2 ^ 52).
  replace (2 - (e + -50)) with (0 - e + 52) by lia.
  rewrite Z.pow_add_r by lia.
  apply Z.mul_le_mono_nonneg_r; [lia|assumption].
Qed.

Lemma estimated_area_rounded (d : SharedData) (num_pontos : Z) :
  0 < num_pontos <= INT_MAX ->
  0 <= points_inside d <= num_pontos ->
  Prim2SF (estimated_area d num_pontos) = S754_zero false \/
  exists m e, Prim2SF (estimated_area d num_pontos) = S754_finite false m e /\
              e <= 2 /\ Zpos m <= 2 ^ (2 - e).
Proof.
  intros Hn Hin. unfold estimated_area. cbv zeta.
  rewrite FloatAxioms.mul_spec. apply SF64mul_four_le_four.
  rewrite FloatAxioms.div_spec.
  assert (H53 : INT_MAX < 2 ^ 53) by reflexivity.
  destruct (double_of_int_exact num_pontos) as (m2 & e2 & Hy & He2 & Hm2 & Hd2); [lia|].
  rewrite Hy.
  destruct (Z.eq_dec (points_inside d) 0) as [->|Hr0].
  - rewrite double_of_int_zero. left. reflexivity.
  - destruct (double_of_int_exact (points_inside d))
      as (m1 & e1 & Hx & He1 & Hm1 & Hd1); [lia|].
    rewrite Hx.
    apply (SF64div_le_one m1 m2 e1 e2 (points_inside d) num_pontos); auto; lia.
Qed.

Lemma between_zero_and_four (a : float) :
  (Prim2SF a = S754_zero false \/
   exists m e, Prim2SF a = S754_finite false m e /\ e <= 2 /\ Zpos m <= 2 ^ (2 - e)) ->
  (0 <=? a)%float = true /\ (a <=? 4)%float = true.
Proof.
  intros Hbound.
  assert (Hzero : fkey 0 = Some (0, 0, 0)) by reflexivity.
  assert (Hfour : fkey 4 = Some (1, 2 - 52, 2 ^ 52)) by reflexivity.
  pose proof (Prim2SF_valid a) as Hvalid.
  destruct Hbound as [Hw|(m & e & Hw & He & Hm)].
  - assert (Hkey : fkey a = Some (0, 0, 0)) by (unfold fkey; rewrite Hw; reflexivity).
    split.
    + apply (leb_keys _ _ _ _ Hzero Hkey). cbn. lia.
    + apply (leb_keys _ _ _ _ Hkey Hfour). cbn. lia.
  - assert (Hkey : fkey a = Some (1, e, Zpos m)) by (unfold fkey; rewrite Hw; reflexivity).
    rewrite Hw in Hvalid. split.
    + apply (leb_keys _ _ _ _ Hzero Hkey). cbn. lia.
    + apply (leb_keys _ _ _ _ Hkey Hfour).
      apply valid_below_key; [assumption|lia|assumption|assumption].
Qed.

(** X11. The estimate is a fraction of the reference square: whenever
    [0 <= points_inside <= num_pontos] and [num_pontos] is a positive [int],
    the double [(double)points_inside / num_pontos * 4.0] lies in [0, 4],
    rounding included. *)
Theorem estimated_area_in_reference (d : SharedData) (num_pontos : Z) :
  0 < num_pontos <= INT_MAX ->
  0 <= points_inside d <= num_pontos ->
  (0 <=? estimated_area d num_pontos)%float = true /\
  (estimated_area d num_pontos <=? 4)%float = true.
Proof.
  intros Hn Hin. apply between_zero_and_four, estimated_area_rounded; assumption.
Qed.

Lemma estimated_area_in_reference_witness :
  let d := mkSharedData unit_square 4 8 3 8 None in
  (0 <=? estimated_area d 8)%float = true /\
  (estimated_area d 8 <=? 4)%float = true /\
  estimated_area d 8 = 1.5%float.
Proof.
  intros d.
  destruct (estimated_area_in_reference d 8) as [Hlow Hhigh];
    [unfold INT_MAX; lia|cbn; lia|].
  split; [exact Hlow|]. split; [exact Hhigh|]. vm_compute. reflexivity.
Defined.

Lemma engine_inv_ordered (threads t : Z) (m : machine) :
  0 <= threads -> engine_inv threads t m ->
  0 <= points_inside (data m) <= points_checked (data m) /\
  points_checked (data m) <= threads * t.
Proof.
  intros Hthreads (Hlen & (Hws & _) & (Hin & Hch)).
  pose proof (total_classified_le (workers m)) as Hcl.
  pose proof (total_contributed_le t _ Hws) as Hle.
  rewrite Hlen, Z2Nat.id in Hle by assumption. lia.
Qed.

(** X12. With a single worker thread every run of [main] that ends with
    [EXIT_SUCCESS] prints, as its last line, an estimate between 0 and 4,
    the area of the reference square. *)
Theorem main_single_worker_estimate
  (RAND_MAX : Z) (rand : nat -> Z) (inp : Input) (schedule : list thread)
  (o : outcome) :
  num_threads inp = 1 -> num_pontos_aleatorios inp <= INT_MAX ->
  main RAND_MAX rand inp schedule = Some o ->
  exit_status o = EXIT_SUCCESS ->
  exists lines a,
    events o = lines ++ [AreaEstimada a] /\
    (0 <=? a)%float = true /\ (a <=? 4)%float = true.
Proof.
  intros Hone Hmax. unfold main. rewrite Hone. cbn [Z.leb Z.compare orb].
  destruct (negb (argc inp =? 4)); [intros H; injection H as <-; discriminate|].
  destruct (num_pontos_aleatorios inp <=? 0) eqn:Epts;
    [intros H; injection H as <-; discriminate|].
  apply Z.leb_gt in Epts.
  destruct (negb (open_ok inp)); [intros H; injection H as <-; discriminate|].
  destruct (negb (malloc_ok inp)); [intros H; injection H as <-; discriminate|].
  destruct (read_polygon MAX_POINTS (scanned inp) [] 0) as [[polygon n]|];
    [|intros H; injection H as <-; discriminate].
  destruct (n <? 3); [intros H; injection H as <-; discriminate|].
  set (m := run RAND_MAX rand schedule (spawn polygon n 1 (num_pontos_aleatorios inp))).
  destruct (all_joined m); [|discriminate].
  intros H _. injection H as <-. cbn [events].
  exists (created 1 ++ map Progresso (printed m)),
         (estimated_area (data m) (num_pontos_aleatorios inp)).
  split; [rewrite <- app_assoc; reflexivity|].
  apply between_zero_and_four, estimated_area_rounded; [lia|].
  assert (Ht : 0 <= num_pontos_aleatorios inp <= INT_MAX) by lia.
  assert (Hnov : 1 * num_pontos_aleatorios inp <= INT_MAX) by lia.
  assert (Heng : engine_inv 1 (num_pontos_aleatorios inp) m).
  { apply (run_engine_inv RAND_MAX rand 1 (num_pontos_aleatorios inp)
             ltac:(lia) Ht Hnov schedule).
    apply spawn_engine_inv. exact Ht. }
  destruct (engine_inv_ordered 1 _ m ltac:(lia) Heng) as [Hin Hch]. lia.
Qed.

Lemma main_single_worker_estimate_witness :
  let inp := mkInput 4 1 4 true true unit_square in
  let schedule := worker_alone 0 4 ++ progress_alone in
  exists o lines a,
    main 32767 lcg_rand inp schedule = Some o /\
    events o = lines ++ [AreaEstimada a] /\
    (0 <=? a)%float = true /\ (a <=? 4)%float = true.
Proof.
  intros inp schedule.
  destruct (main 32767 lcg_rand inp schedule) as [o|] eqn:Emain;
    [|vm_compute in Emain; discriminate].
  assert (Hstatus : exit_status o = EXIT_SUCCESS)
    by (vm_compute in Emain; injection Emain as <-; reflexivity).
  destruct (main_single_worker_estimate 32767 lcg_rand inp schedule o eq_refl
              ltac:(vm_compute; discriminate) Emain Hstatus)
    as (lines & a & Hevents & Hlow & Hhigh).
  exists o, lines, a. auto.
Defined.

(** ** The read loop *)

Lemma split_lf_nonempty (s : list Byte.byte) : split_lf s <> [].
Proof.
  destruct s as [|b rest]; cbn [split_lf]; [discriminate|].
  destruct (Byte.eqb b LF); [discriminate|].
  destruct (split_lf rest); discriminate.
Qed.

Lemma split_lf_line (token : list Byte.byte) :
  ~ In LF token -> split_lf token = [token].
Proof.
  induction token as [|b token IH]; intros Hin; cbn [split_lf]; [reflexivity|].
  destruct (Byte.eqb b LF) eqn:Eb.
  - apply Byte.byte_dec_bl in Eb. subst b. exfalso. apply Hin. left. reflexivity.
  - rewrite IH; [reflexivity|]. intros H. apply Hin. right. exact H.
Qed.

Lemma split_lf_line_lf (token r : list Byte.byte) :
  ~ In LF token -> split_lf (token ++ LF :: r) = token :: split_lf r.
Proof.
  induction token as [|b token IH]; intros Hin; cbn [split_lf app].
  - reflexivity.
  - destruct (Byte.eqb b LF) eqn:Eb.
    + apply Byte.byte_dec_bl in Eb. subst b. exfalso. apply Hin. left. reflexivity.
    + rewrite IH; [reflexivity|]. intros H. apply Hin. right. exact H.
Qed.

Lemma lines_of_token (token : list Byte.byte) :
  token <> [] -> ~ In LF token -> lines_of token = [token].
Proof.
  intros Hne Hin. unfold lines_of. rewrite split_lf_line by assumption.
  destruct token; [congruence|reflexivity].
Qed.

Lemma lines_of_token_lf (token r : list Byte.byte) :
  token <> [] -> ~ In LF token -> lines_of (token ++ LF :: r) = token :: lines_of r.
Proof.
  intros Hne Hin. unfold lines_of. rewrite split_lf_line_lf by assumption.
  destruct token; [congruence|reflexivity].
Qed.

Lemma c_string_app (token e : list Byte.byte) :
  ~ In NUL token -> c_string (token ++ e) = token ++ c_string e.
Proof.
  induction token as [|b token IH]; intros Hin; cbn [c_string app]; [reflexivity|].
  destruct (Byte.eqb b NUL) eqn:Eb.
  - apply Byte.byte_dec_bl in Eb. subst b. exfalso. apply Hin. left. reflexivity.
  - rewrite IH; [reflexivity|]. intros H. apply Hin. right. exact H.
Qed.

Lemma c_string_id (s : list Byte.byte) : ~ In NUL s -> c_string s = s.
Proof.
  intros Hin. rewrite <- (app_nil_r s) at 1. rewrite c_string_app by assumption.
  cbn [c_string]. apply app_nil_r.
Qed.

Lemma c_string_terminated (chunk : list Byte.byte) :
  c_string (chunk ++ [NUL]) = c_string chunk.
Proof.
  induction chunk as [|b chunk IH]; cbn [c_string app]; [reflexivity|].
  destruct (Byte.eqb b NUL); [reflexivity|]. rewrite IH. reflexivity.
Qed.

Lemma skip_delim_spec (s : list Byte.byte) :
  exists pre,
    s = pre ++ skip_delim s /\ Forall (eq LF) pre /\
    lines_of (c_string (skip_delim s)) = lines_of (c_string s) /\
    match skip_delim s with [] => True | b :: _ => b <> LF end.
Proof.
  induction s as [|b s (pre & Hs & Hpre & Hlines & Hhead)]; cbn [skip_delim].
  - exists []. repeat split. constructor.
  - destruct (Byte.eqb b LF) eqn:Eb.
    + apply Byte.byte_dec_bl in Eb. subst b.
      exists (LF :: pre). split; [cbn [app]; congruence|].
      split; [constructor; [reflexivity|assumption]|].
      split; [|assumption]. rewrite Hlines. reflexivity.
    + exists []. split; [reflexivity|]. split; [constructor|].
      split; [reflexivity|]. apply Byte.eqb_false. exact Eb.
Qed.

Lemma until_delim_spec (s : list Byte.byte) :
  forall token e,
    until_delim s = (token, e) ->
    s = token ++ e /\ ~ In LF token /\ ~ In NUL token /\
    match e with [] => True | c :: _ => c = LF \/ c = NUL end.
Proof.
  induction s as [|b s IH]; intros token e H; cbn [until_delim] in H.
  - injection H as <- <-. repeat split; auto.
  - destruct (Byte.eqb b LF) eqn:Elf; cbn [orb] in H.
    + injection H as <- <-. apply Byte.byte_dec_bl in Elf. repeat split; auto.
    + destruct (Byte.eqb b NUL) eqn:Enul.
      * injection H as <- <-. apply Byte.byte_dec_bl in Enul. repeat split; auto.
      * destruct (until_delim s) as [token0 e0].
        injection H as <- <-.
        destruct (IH token0 e0 eq_refl) as (-> & Hlf & Hnul & He).
        apply Byte.eqb_false in Elf, Enul.
        split; [reflexivity|].
        split; [intros [Heq|Hin]; [congruence|contradiction]|].
        split; [intros [Heq|Hin]; [congruence|contradiction]|].
        exact He.
Qed.

Lemma until_delim_head (b : Byte.byte) (r token e : list Byte.byte) :
  b <> LF -> b <> NUL -> until_delim (b :: r) = (token, e) -> token <> [].
Proof.
  intros Hlf Hnul. cbn [until_delim].
  destruct (Byte.eqb b LF) eqn:Elf; [apply Byte.byte_dec_bl in Elf; contradiction|].
  destruct (Byte.eqb b NUL) eqn:Enul; [apply Byte.byte_dec_bl in Enul; contradiction|].
  cbn [orb]. destruct (until_delim r). intros H. injection H as <- _. discriminate.
Qed.

(** What one call of [strtok_r] does to the lines that are left. *)
Lemma strtok_r_lines (s : list Byte.byte) :
  match lines_of (c_string s) with
  | [] => fst (strtok_r s) = None
  | l :: ls =>
      exists s', strtok_r s = (Some l, s') /\
                 lines_of (c_string s') = ls /\ (length s' < length s)%nat
  end.
Proof.
  destruct (skip_delim_spec s) as (pre & Hs & _ & Hlines & Hhead).
  assert (Hlen : (length (skip_delim s) <= length s)%nat)
    by (rewrite Hs at 2; rewrite length_app; lia).
  rewrite <- Hlines. unfold strtok_r.
  destruct (skip_delim s) as [|b r]; [reflexivity|].
  destruct (Byte.eqb b NUL) eqn:Eb.
  - cbn [c_string]. rewrite Eb. reflexivity.
  - apply Byte.eqb_false in Eb.
    destruct (until_delim (b :: r)) as [token e] eqn:Eu.
    pose proof (until_delim_head b r token e Hhead Eb Eu) as Hne.
    destruct (until_delim_spec _ _ _ Eu) as (Hsplit & Hlf & Hnul & He).
    assert (Hlen' : (length token + length e <= length s)%nat)
      by (rewrite <- length_app, <- Hsplit; exact Hlen).
    assert (Htok : (0 < length token)%nat)
      by (destruct token; [congruence|cbn [length]; lia]).
    rewrite Hsplit, c_string_app by assumption.
    destruct e as [|c rest].
    + cbn [c_string]. rewrite app_nil_r, lines_of_token by assumption.
      exists []. repeat split. cbn [length]. lia.
    + destruct (Byte.eqb c NUL) eqn:Ec.
      * cbn [c_string]. rewrite Ec, app_nil_r, lines_of_token by assumption.
        exists (c :: rest). split; [reflexivity|].
        split; [cbn [c_string]; rewrite Ec; reflexivity|lia].
      * destruct He as [-> | ->]; [|discriminate].
        cbn [c_string]. rewrite Ec, lines_of_token_lf by assumption.
        exists rest. split; [reflexivity|]. split; [reflexivity|].
        cbn [length] in Hlen'. lia.
Qed.

Lemma read_polygon_app (capacity : Z) (l1 l2 : list Point) :
  forall polygon n,
    read_polygon capacity (l1 ++ l2) polygon n =
      match read_polygon capacity l1 polygon n with
      | Some (polygon', n') => read_polygon capacity l2 polygon' n'
      | None => None
      end.
Proof.
  induction l1 as [|pt l1 IH]; intros polygon n; cbn [read_polygon app].
  - reflexivity.
  - destruct (n + 1 >=? capacity); [reflexivity|]. apply IH.
Qed.

Lemma read_polygon_limit (capacity : Z) :
  forall lines polygon n,
    n < capacity ->
    read_polygon capacity lines polygon n =
      if n + Z.of_nat (length lines) <? capacity
      then Some (polygon ++ lines, n + Z.of_nat (length lines))
      else None.
Proof.
  induction lines as [|pt rest IH]; intros polygon n Hn; cbn [read_polygon length].
  - replace (n + Z.of_nat 0) with n by lia.
    destruct (Z.ltb_spec n capacity); [|lia]. rewrite app_nil_r. reflexivity.
  - destruct (Z.geb_spec (n + 1) capacity) as [Hge|Hlt].
    + destruct (Z.ltb_spec (n + Z.of_nat (S (length rest))) capacity); [lia|reflexivity].
    + rewrite IH by lia. rewrite <- app_assoc. cbn [app].
      replace (n + 1 + Z.of_nat (length rest)) with (n + Z.of_nat (S (length rest))) by lia.
      reflexivity.
Qed.

Section ReadLoopProperties.
Variable sscanf_point : list Byte.byte -> option Point.

Lemma scan_lines_spec (capacity : Z) :
  forall fuel s polygon n,
    (length s <= fuel)%nat ->
    scan_lines sscanf_point fuel capacity (fst (strtok_r s)) (snd (strtok_r s)) polygon n =
      Some (read_polygon capacity (omap sscanf_point (lines_of (c_string s))) polygon n).
Proof.
  induction fuel as [|fuel IH]; intros s polygon n Hfuel;
    pose proof (strtok_r_lines s) as Hs;
    destruct (lines_of (c_string s)) as [|l ls].
  - rewrite Hs. reflexivity.
  - destruct Hs as (s' & _ & _ & Hlt). lia.
  - rewrite Hs. reflexivity.
  - destruct Hs as (s' & -> & <- & Hlt). cbn [fst snd scan_lines].
    change (omap sscanf_point (l :: lines_of (c_string s')))
      with (match sscanf_point l with
            | Some pt => pt :: omap sscanf_point (lines_of (c_string s'))
            | None => omap sscanf_point (lines_of (c_string s'))
            end).
    destruct (sscanf_point l) as [pt|].
    + cbn [read_polygon]. destruct (n + 1 >=? capacity); [reflexivity|].
      apply IH. lia.
    + apply IH. lia.
Qed.

Lemma read_loop_spec (capacity : Z) :
  forall chunks polygon n,
    read_loop sscanf_point capacity chunks polygon n =
      Some (read_polygon capacity (scanned_points sscanf_point chunks) polygon n).
Proof.
  induction chunks as [|chunk rest IH]; intros polygon n;
    unfold scanned_points; cbn [read_loop map concat].
  - reflexivity.
  - rewrite scan_lines_spec by lia.
    rewrite c_string_terminated, read_polygon_app.
    destruct (read_polygon capacity _ polygon n) as [[polygon' n']|]; [|reflexivity].
    apply IH.
Qed.

(** X13. The read loop stores, in the order of the file, the points that
    [sscanf] gets out of the non-empty lines of each chunk [read] returns,
    a chunk ending at its first NUL byte; it gives up exactly when these are
    [MAX_POINTS] or more. The loop never runs out of lines to look at. *)
Theorem read_loop_scans_lines (chunks : list (list Byte.byte)) :
  let points := scanned_points sscanf_point chunks in
  read_loop sscanf_point MAX_POINTS chunks [] 0 =
    Some (if Z.of_nat (length points) <? MAX_POINTS
          then Some (points, Z.of_nat (length points))
          else None).
Proof.
  intros points. rewrite read_loop_spec. fold points.
  rewrite read_polygon_limit by reflexivity. reflexivity.
Qed.

End ReadLoopProperties.

Lemma split_lf_app (a b : list Byte.byte) :
  exists init last_a first_b rest,
    split_lf a = init ++ [last_a] /\
    split_lf b = first_b :: rest /\
    split_lf (a ++ b) = init ++ (last_a ++ first_b) :: rest.
Proof.
  induction a as [|x a (init & la & fb & rest & Ha & Hb & Hab)].
  - destruct (split_lf b) as [|fb rest] eqn:Eb; [destruct (split_lf_nonempty b Eb)|].
    exists [], [], fb, rest. cbn [split_lf app]. rewrite Eb. repeat split.
  - cbn [split_lf app]. rewrite Ha, Hab, Hb.
    destruct (Byte.eqb x LF).
    + exists ([] :: init), la, fb, rest. repeat split.
    + destruct init as [|i0 init]; cbn [app].
      * exists [], (x :: la), fb, rest. repeat split.
      * exists ((x :: i0) :: init), la, fb, rest. repeat split.
Qed.

Lemma filter_nonempty_snoc (init : list (list Byte.byte)) (l : list Byte.byte) :
  l <> [] -> List.filter nonempty (init ++ [l]) = List.filter nonempty init ++ [l].
Proof.
  intros Hl. rewrite List.filter_app. cbn [List.filter].
  destruct l; [congruence|reflexivity].
Qed.

(** The lines of two pieces of text, cut inside a line, and of the whole. *)
Lemma lines_of_cut (a b : list Byte.byte) (x y : Byte.byte) :
  x <> LF -> y <> LF ->
  exists init l1 l2 rest,
    l1 <> [] /\ l2 <> [] /\
    lines_of (a ++ [x]) = init ++ [l1] /\
    lines_of (y :: b) = l2 :: rest /\
    lines_of ((a ++ [x]) ++ y :: b) = init ++ [l1 ++ l2] ++ rest.
Proof.
  intros Hx Hy.
  destruct (split_lf_app a [x]) as (init & la & fx & rx & Ha & Hsx & Hax).
  assert (Esx : split_lf [x] = [[x]]).
  { cbn [split_lf]. destruct (Byte.eqb x LF) eqn:Ex; [|reflexivity].
    apply Byte.byte_dec_bl in Ex. contradiction. }
  rewrite Esx in Hsx. injection Hsx as <- <-.
  destruct (split_lf_app (a ++ [x]) (y :: b))
    as (init' & lax & fb & rest & Hax' & Hb & Hab).
  rewrite Hax in Hax'.
  change (init ++ (la ++ [x]) :: []) with (init ++ [la ++ [x]]) in Hax'.
  apply app_inj_tail in Hax' as [<- <-].
  assert (Hfb : fb <> []).
  { cbn [split_lf] in Hb. destruct (Byte.eqb y LF) eqn:Ey;
      [apply Byte.byte_dec_bl in Ey; contradiction|].
    destruct (split_lf b); injection Hb as <- _; discriminate. }
  assert (Hla : la ++ [x] <> []) by (destruct la; discriminate).
  exists (List.filter nonempty init), (la ++ [x]), fb, (List.filter nonempty rest).
  split; [assumption|]. split; [assumption|].
  unfold lines_of. rewrite Hax, Hb, Hab.
  change (init ++ (la ++ [x]) :: []) with (init ++ [la ++ [x]]).
  rewrite filter_nonempty_snoc by assumption.
  split; [reflexivity|].
  split; [cbn [List.filter]; destruct fb; [congruence|reflexivity]|].
  rewrite List.filter_app. cbn [List.filter app].
  destruct ((la ++ [x]) ++ fb) eqn:E; [|reflexivity].
  apply app_eq_nil in E as [E _]. contradiction.
Qed.

(** X14. A line that [read] delivers in two pieces is scanned as two lines:
    when one chunk ends and the next begins inside a line (no NUL bytes),
    the loop hands [sscanf] the two halves [l1] and [l2] one after the
    other, where a single [read] of the same bytes would have handed it the
    line [l1 ++ l2]. *)
Theorem line_across_reads_is_split
  (sscanf_point : list Byte.byte -> option Point)
  (a b : list Byte.byte) (x y : Byte.byte) :
  x <> LF -> y <> LF -> ~ In NUL (a ++ [x]) -> ~ In NUL (y :: b) ->
  exists init l1 l2 rest,
    l1 <> [] /\ l2 <> [] /\
    (forall capacity,
        read_loop sscanf_point capacity [(a ++ [x]) ++ y :: b] [] 0 =
          Some (read_polygon capacity
                  (omap sscanf_point (init ++ [l1 ++ l2] ++ rest)) [] 0)) /\
    (forall capacity,
        read_loop sscanf_point capacity [a ++ [x]; y :: b] [] 0 =
          Some (read_polygon capacity
                  (omap sscanf_point (init ++ [l1; l2] ++ rest)) [] 0)).
Proof.
  intros Hx Hy Ha Hb.
  destruct (lines_of_cut a b x y Hx Hy)
    as (init & l1 & l2 & rest & Hl1 & Hl2 & Hla & Hlb & Hlab).
  assert (Hab : ~ In NUL ((a ++ [x]) ++ y :: b))
    by (intros H; apply in_app_or in H as [H|H]; contradiction).
  exists init, l1, l2, rest. split; [assumption|]. split; [assumption|].
  split; intros capacity; rewrite read_loop_spec; unfold scanned_points;
    cbn [map concat]; rewrite ?app_nil_r.
  - rewrite c_string_id, Hlab by assumption. reflexivity.
  - rewrite !c_string_id, Hla, Hlb by assumption.
    rewrite <- omap_app, <- app_assoc. reflexivity.
Qed.

(** X15. Every line [strtok_r] returns is a non-empty run of bytes of the
    string, with no line feed and no NUL in it, that comes after line feeds
    only and ends at a line feed, at the terminator, or where the bytes end;
    [saveptr] moves past the line feed, or rests on the terminator, and in a
    terminated buffer it stays in front of the terminator. *)
Theorem strtok_r_line (s line saveptr : list Byte.byte) :
  strtok_r s = (Some line, saveptr) ->
  exists pre post,
    s = pre ++ line ++ post /\ Forall (eq LF) pre /\
    line <> [] /\ ~ In LF line /\ ~ In NUL line /\
    (post = LF :: saveptr \/
     (saveptr = post /\ (post = [] \/ exists r, post = NUL :: r))) /\
    (forall u, s = u ++ [NUL] -> exists u', saveptr = u' ++ [NUL]).
Proof.
  unfold strtok_r.
  destruct (skip_delim_spec s) as (pre & Hs & Hpre & _ & Hhead).
  destruct (skip_delim s) as [|b r]; [discriminate|].
  destruct (Byte.eqb b NUL) eqn:Eb; [discriminate|].
  apply Byte.eqb_false in Eb.
  destruct (until_delim (b :: r)) as [token e] eqn:Eu.
  pose proof (until_delim_head b r token e Hhead Eb Eu) as Hne.
  destruct (until_delim_spec _ _ _ Eu) as (Hsplit & Hlf & Hnul & He).
  rewrite Hsplit in Hs.
  assert (Hlast : forall (u v w : list Byte.byte),
             v <> [] -> u ++ [NUL] = w ++ v -> exists v', v = v' ++ [NUL]).
  { intros u v w Hv Heq.
    destruct (exists_last Hv) as (v' & c & ->).
    rewrite app_assoc in Heq. apply app_inj_tail in Heq as [_ ->].
    exists v'. reflexivity. }
  destruct e as [|c rest].
  - intros H. injection H as <- <-. exists pre, [].
    repeat split; auto.
    intros u Hu. exfalso. rewrite Hs, app_nil_r in Hu.
    destruct (exists_last Hne) as (t' & c & Ht). rewrite Ht in Hu, Hnul.
    rewrite app_assoc in Hu. apply app_inj_tail in Hu as [_ ->].
    apply Hnul. apply in_or_app. right. left. reflexivity.
  - destruct (Byte.eqb c NUL) eqn:Ec.
    + intros H. injection H as <- <-. apply Byte.byte_dec_bl in Ec. subst c.
      exists pre, (NUL :: rest).
      split; [assumption|]. split; [assumption|]. split; [assumption|].
      split; [assumption|]. split; [assumption|].
      split; [right; split; [reflexivity|right; exists rest; reflexivity]|].
      intros u Hu. rewrite Hs, app_assoc in Hu.
      apply (Hlast u (NUL :: rest) (pre ++ token)); [discriminate|symmetry; exact Hu].
    + intros H. injection H as <- <-.
      destruct He as [-> | ->]; [|discriminate].
      exists pre, (LF :: rest).
      split; [assumption|]. split; [assumption|]. split; [assumption|].
      split; [assumption|]. split; [assumption|].
      split; [left; reflexivity|].
      intros u Hu. rewrite Hs in Hu.
      replace (pre ++ token ++ LF :: rest)
        with ((pre ++ token ++ [LF]) ++ rest) in Hu
        by (rewrite <- !app_assoc; reflexivity).
      destruct rest as [|c0 sp].
      * exfalso. rewrite app_nil_r, !app_assoc in Hu.
        apply app_inj_tail in Hu as [_ Hu]. discriminate.
      * apply (Hlast u (c0 :: sp) (pre ++ token ++ [LF])); [discriminate|symmetry; exact Hu].
Qed.

(** The text "0 0", a line feed, "2 0", a line feed, read at once and read
    with the second line cut after "2 ": the point (2, 0) is lost. *)
Lemma line_across_reads_is_split_witness :
  let a := line_0_0 ++ [LF] ++ [Byte.x32] in
  let b := [LF] in
  (exists init l1 l2 rest,
      l1 <> [] /\ l2 <> [] /\
      (forall capacity,
          read_loop digit_point capacity [(a ++ [Byte.x20]) ++ Byte.x30 :: b] [] 0 =
            Some (read_polygon capacity
                    (omap digit_point (init ++ [l1 ++ l2] ++ rest)) [] 0)) /\
      (forall capacity,
          read_loop digit_point capacity [a ++ [Byte.x20]; Byte.x30 :: b] [] 0 =
            Some (read_polygon capacity
                    (omap digit_point (init ++ [l1; l2] ++ rest)) [] 0))) /\
  (a ++ [Byte.x20]) ++ Byte.x30 :: b = line_0_0 ++ [LF] ++ line_2_0 ++ [LF] /\
  read_loop digit_point MAX_POINTS [(a ++ [Byte.x20]) ++ Byte.x30 :: b] [] 0 =
    Some (Some ([mkPoint 0 0; mkPoint 2 0], 2)) /\
  read_loop digit_point MAX_POINTS [a ++ [Byte.x20]; Byte.x30 :: b] [] 0 =
    Some (Some ([mkPoint 0 0], 1)).
Proof.
  intros a b. split; [|repeat split; vm_compute; reflexivity].
  apply (line_across_reads_is_split digit_point a b Byte.x20 Byte.x30);
    try discriminate; vm_compute; intuition discriminate.
Defined.

(** Two empty lines, "0 0", a line feed, "2 0" and the terminator. *)
Lemma strtok_r_line_witness :
  let s := [LF; LF] ++ line_0_0 ++ [LF] ++ line_2_0 ++ [NUL] in
  strtok_r s = (Some line_0_0, line_2_0 ++ [NUL]) /\
  exists pre post,
    s = pre ++ line_0_0 ++ post /\ Forall (eq LF) pre /\
    line_0_0 <> [] /\ ~ In LF line_0_0 /\ ~ In NUL line_0_0 /\
    (post = LF :: line_2_0 ++ [NUL] \/
     (line_2_0 ++ [NUL] = post /\ (post = [] \/ exists r, post = NUL :: r))) /\
    (forall u, s = u ++ [NUL] -> exists u', line_2_0 ++ [NUL] = u' ++ [NUL]).
Proof.
  intros s. split; [vm_compute; reflexivity|].
  apply (strtok_r_line s). vm_compute. reflexivity.
Defined.

(** ** What a single worker counts *)

Lemma inside_count_S (RAND_MAX : Z) (rand : nat -> Z) (poly : list Point) (size : Z)
    (k : nat) :
  inside_count RAND_MAX rand poly size (S k) =
    inside_count RAND_MAX rand poly size k +
    (if isInsidePolygon poly size (sample_point RAND_MAX rand k) then 1 else 0).
Proof.
  unfold inside_count. rewrite seq_S, List.filter_app, length_app.
  cbn [List.filter Nat.add].
  destruct (isInsidePolygon poly size (sample_point RAND_MAX rand k)); cbn [length]; lia.
Qed.

Lemma inside_count_bounds (RAND_MAX : Z) (rand : nat -> Z) (poly : list Point) (size : Z)
    (k : nat) :
  0 <= inside_count RAND_MAX rand poly size k <= Z.of_nat k.
Proof.
  induction k as [|k IH]; [unfold inside_count; cbn; lia|].
  rewrite inside_count_S.
  destruct (isInsidePolygon poly size (sample_point RAND_MAX rand k)); lia.
Qed.

Section SingleWorker.
Variable RAND_MAX : Z.
Variable rand : nat -> Z.
Variable poly : list Point.
Variable size t : Z.
Hypothesis t_range : 0 <= t <= INT_MAX.

Lemma step_single_inv (th : thread) (m m' : machine) :
  single_inv RAND_MAX rand poly size t m ->
  step RAND_MAX rand th m = Some m' ->
  single_inv RAND_MAX rand poly size t m'.
Proof.
  intros (Hpoly & Hsize & w & Hws & Hok & Hcalls & Hin & Hpend) Hstep.
  pose proof Hok as (Hppt & Hi & Hpc).
  pose proof (inside_count_bounds RAND_MAX rand poly size (Z.to_nat (classified w)))
    as Hbound.
  destruct th as [k|]; cbn [step] in Hstep.
  - rewrite Hws in Hstep.
    destruct k as [|k]; [|destruct k; discriminate].
    change ([w] !! 0%nat) with (Some w) in Hstep.
    unfold worker_step, set_worker in Hstep. rewrite Hws in Hstep.
    change (<[0%nat := ?x]> [w]) with [x] in Hstep.
    unfold single_inv.
    destruct (w_pc w) eqn:Epc.
    + destruct (w_i w <? points_per_thread w) eqn:Elt; injection Hstep as <-;
        cbn [data workers rand_calls]; (split; [assumption|]); (split; [assumption|]);
        eexists; (split; [reflexivity|]);
        unfold worker_ok, draws, classified in *; rewrite Epc in *;
        cbn [w_pc w_i points_per_thread].
      * apply Z.ltb_lt in Elt.
        split; [lia|]. split; [lia|]. split; [assumption|].
        rewrite Hcalls. f_equal. f_equal. lia.
      * apply Z.ltb_ge in Elt.
        split; [lia|]. split; [lia|]. split; [assumption|]. exact I.
    + injection Hstep as <-.
      cbn [data workers rand_calls]. split; [assumption|]. split; [assumption|].
      eexists. split; [reflexivity|].
      unfold worker_ok, draws, classified in *. rewrite Epc in *.
      cbn [w_pc w_i points_per_thread].
      split; [lia|]. split; [lia|]. split; [assumption|].
      unfold sample_point. rewrite Hpend, Hcalls. f_equal. f_equal. f_equal. lia.
    + destruct (mutex (data m)); [discriminate|]. injection Hstep as <-.
      cbn [data workers rand_calls set_mutex polygon polygon_size points_inside].
      split; [assumption|]. split; [assumption|].
      eexists. split; [reflexivity|].
      unfold worker_ok, draws, classified in *. rewrite Epc in *.
      cbn [w_pc w_i points_per_thread]. auto.
    + injection Hstep as <-.
      cbn [data workers rand_calls set_checked polygon polygon_size points_inside].
      split; [assumption|]. split; [assumption|].
      eexists. split; [reflexivity|].
      unfold worker_ok, draws, classified in *. rewrite Epc in *.
      cbn [w_pc w_i points_per_thread]. auto.
    + injection Hstep as <-. rewrite Hpoly, Hsize, Hpend.
      unfold worker_ok, draws, classified in *. rewrite Epc in *.
      replace (w_i w + 0) with (w_i w) in * by lia.
      assert (Hnext : Z.to_nat (w_i w + 1) = S (Z.to_nat (w_i w))) by lia.
      pose proof (inside_count_S RAND_MAX rand poly size (Z.to_nat (w_i w))) as HS.
      destruct (isInsidePolygon poly size (sample_point RAND_MAX rand (Z.to_nat (w_i w))));
        cbn [data workers rand_calls set_inside polygon polygon_size points_inside];
        (split; [assumption|]); (split; [assumption|]);
        eexists; (split; [reflexivity|]);
        cbn [w_pc w_i points_per_thread];
        (split; [lia|]); (split; [lia|]); (split; [|exact I]);
        rewrite Hnext, HS, <- Hin.
      * apply wrap_int_small. unfold INT_MAX in *. lia.
      * lia.
    + injection Hstep as <-.
      cbn [data workers rand_calls set_mutex polygon polygon_size points_inside].
      split; [assumption|]. split; [assumption|].
      eexists. split; [reflexivity|].
      unfold worker_ok, draws, classified in *. rewrite Epc in *.
      cbn [w_pc w_i points_per_thread].
      rewrite (wrap_int_small (w_i w + 1)) by (unfold INT_MAX in *; lia).
      split; [lia|]. split; [lia|].
      split; [|exact I]. rewrite Hin. f_equal. lia.
    + discriminate.
  - unfold progress_step in Hstep. unfold single_inv.
    destruct (progress m); try discriminate;
      try destruct (mutex (data m)); try discriminate;
      injection Hstep as <-;
      cbn [data workers rand_calls set_mutex polygon polygon_size points_inside];
      (split; [assumption|]); (split; [assumption|]);
      exists w; repeat (split; [assumption|]); assumption.
Qed.

Lemma run_single_inv (schedule : list thread) :
  forall m,
    single_inv RAND_MAX rand poly size t m ->
    single_inv RAND_MAX rand poly size t (run RAND_MAX rand schedule m).
Proof.
  induction schedule as [|th rest IH]; intros m Hinv; cbn [run].
  - assumption.
  - destruct (step RAND_MAX rand th m) as [m1|] eqn:Hstep; [|apply IH; assumption].
    apply IH. eapply step_single_inv; eauto.
Qed.

(** X16. What a single worker counts. With one worker thread,
    [points_inside] is at every moment the number of points that
    [isInsidePolygon] accepts among the first [k] the worker drew, for some
    [k <= t], the [i]-th point being made of the calls [2 i] and [2 i + 1]
    of [rand()]; once the threads are joined, [k = t]. *)
Theorem single_worker_counts_inside_samples (schedule : list thread) :
  let m := run RAND_MAX rand schedule (spawn poly size 1 t) in
  (exists k, (k <= Z.to_nat t)%nat /\
             points_inside (data m) = inside_count RAND_MAX rand poly size k) /\
  (all_joined m = true ->
   points_inside (data m) = inside_count RAND_MAX rand poly size (Z.to_nat t)).
Proof.
  intros m.
  assert (Hinv : single_inv RAND_MAX rand poly size t m).
  { apply run_single_inv. unfold single_inv, spawn.
    cbn [data workers rand_calls polygon polygon_size points_inside].
    split; [reflexivity|]. split; [reflexivity|].
    eexists. split; [reflexivity|].
    unfold worker_ok, draws, classified. cbn [w_pc w_i points_per_thread].
    repeat split; lia. }
  destruct Hinv as (_ & _ & w & Hws & (Hppt & Hi & Hpc) & _ & Hin & _).
  split.
  - exists (Z.to_nat (classified w)). split; [|exact Hin].
    unfold classified. destruct (w_pc w); lia.
  - unfold all_joined. rewrite Hws. cbn [forallb]. unfold worker_exited.
    intros Hjoined. rewrite Hin. f_equal. unfold classified.
    destruct (w_pc w); try discriminate. rewrite Hpc. f_equal. lia.
Qed.

End SingleWorker.

(** One worker, four points, the unit square. *)
Lemma single_worker_counts_inside_samples_witness :
  let m := run 32767 lcg_rand (sequential 1 4) (spawn unit_square 4 1 4) in
  ((exists k, (k <= Z.to_nat 4)%nat /\
              points_inside (data m) = inside_count 32767 lcg_rand unit_square 4 k) /\
   (all_joined m = true ->
    points_inside (data m) = inside_count 32767 lcg_rand unit_square 4 (Z.to_nat 4))) /\
  all_joined m = true /\
  inside_count 32767 lcg_rand unit_square 4 (Z.to_nat 4) = points_inside (data m).
Proof.
  split; [|vm_compute; split; reflexivity].
  apply (single_worker_counts_inside_samples 32767 lcg_rand unit_square 4 4).
  unfold INT_MAX. lia.
Defined.

(** ** The threads can always finish *)

Lemma worker_sum_remaining_nonneg (t : Z) (ws : list worker) :
  Forall (worker_ok t) ws -> 0 <= worker_sum remaining ws.
Proof.
  unfold worker_sum.
  induction 1 as [|w ws Hw _ IH]; cbn [fold_right]; [lia|].
  destruct Hw as (Hppt & Hi & Hpc).
  assert (0 <= remaining w) by (unfold remaining; cbv zeta; destruct (w_pc w); lia).
  lia.
Qed.

Lemma forallb_exited_lookup (ws : list worker) :
  forall k w, forallb worker_exited ws = true -> ws !! k = Some w ->
              worker_exited w = true.
Proof.
  induction ws as [|w0 ws IH]; intros k w Hall Hk; [discriminate|].
  cbn [forallb] in Hall. apply andb_true_iff in Hall as [H0 Hrest].
  destruct k as [|k].
  - cbn in Hk. injection Hk as <-. exact H0.
  - apply (IH k w Hrest Hk).
Qed.

Section Liveness.
Variable RAND_MAX : Z.
Variable rand : nat -> Z.
Variable threads t : Z.
Hypothesis threads_pos : 1 <= threads.
Hypothesis t_range : 0 <= t <= INT_MAX.
Hypothesis no_overflow : threads * t <= INT_MAX.

Lemma run_live_inv (schedule : list thread) (m : machine) :
  live_inv threads t m -> live_inv threads t (run RAND_MAX rand schedule m).
Proof.
  intros (Hlen & Hcnt & Hlock & Htot).
  split; [rewrite run_workers_length; assumption|].
  split; [apply run_counters; assumption|].
  split; [apply run_lock_inv; assumption|].
  destruct (run_same_config RAND_MAX rand schedule m) as (_ & _ & ->). assumption.
Qed.

Lemma spawn_live_inv (polygon : list Point) (n : Z) :
  live_inv threads t (spawn polygon n threads t).
Proof.
  split; [unfold spawn; cbn [workers]; apply length_replicate|].
  split; [apply spawn_counters; assumption|].
  split; [apply spawn_lock_inv|reflexivity].
Qed.

Lemma worker_step_remaining (k : nat) (w : worker) (m m' : machine) :
  worker_ok t w ->
  worker_step RAND_MAX rand k w m = Some m' ->
  exists w', workers m' = <[k := w']> (workers m) /\ remaining w' = remaining w - 1.
Proof.
  intros (Hppt & Hi & Hpc). unfold worker_step, set_worker. intros Hstep.
  destruct (w_pc w) eqn:Epc;
    try destruct (w_i w <? points_per_thread w) eqn:Elt;
    try destruct (mutex (data m)); try discriminate;
    injection Hstep as <-; cbn [workers]; eexists; (split; [reflexivity|]);
    unfold remaining; rewrite Epc; cbn [w_pc w_i points_per_thread]; cbv zeta;
    try rewrite (wrap_int_small (w_i w + 1)) by (unfold INT_MAX in *; lia);
    try apply Z.ltb_ge in Elt; lia.
Qed.

Lemma worker_can_step (m : machine) :
  lock_inv m -> progress_critical (progress m) = false ->
  forallb worker_exited (workers m) = false ->
  exists k w m',
    workers m !! k = Some w /\ worker_step RAND_MAX rand k w m = Some m'.
Proof.
  intros Hlock Hpr Hws.
  destruct (mutex (data m)) as [[k|]|] eqn:Hmutex.
  - pose proof (proj2 (Hlock (Worker k)) Hmutex) as Hcrit. cbn [critical] in Hcrit.
    destruct (workers m !! k) as [w|] eqn:Hk; [|discriminate].
    exists k, w. unfold worker_step, in_critical in *.
    destruct (w_pc w); try discriminate; eauto.
  - pose proof (proj2 (Hlock Progress) Hmutex) as Hcrit. cbn [critical] in Hcrit.
    congruence.
  - destruct (forallb_false_lookup _ Hws) as (k & w & Hk & Hw).
    exists k, w. unfold worker_step, set_worker. rewrite Hmutex.
    unfold worker_exited in Hw.
    destruct (w_pc w); try discriminate; eauto.
    destruct (w_i w <? points_per_thread w); eauto.
Qed.

(** The workers can all return, the progress thread standing still. *)
Lemma workers_can_finish (N : nat) :
  forall m,
    live_inv threads t m -> progress_critical (progress m) = false ->
    worker_sum remaining (workers m) <= Z.of_nat N ->
    exists s,
      forallb worker_exited (workers (run RAND_MAX rand s m)) = true /\
      progress (run RAND_MAX rand s m) = progress m.
Proof.
  induction N as [|N IH]; intros m Hinv Hpr Hsum;
    (destruct (forallb worker_exited (workers m)) eqn:Hws;
     [exists []; split; [exact Hws|reflexivity]|]);
    pose proof Hinv as (Hlen & (Hok & _) & Hlock & Htot);
    destruct (worker_can_step m Hlock Hpr Hws) as (k & w & m1 & Hk & Hstep);
    assert (Hw : worker_ok t w) by (eapply Forall_lookup_1; eauto);
    destruct (worker_step_remaining k w m m1 Hw Hstep) as (w' & Hws1 & Hrem);
    assert (Hstep' : step RAND_MAX rand (Worker k) m = Some m1)
      by (cbn [step]; rewrite Hk; exact Hstep);
    assert (Hrun : run RAND_MAX rand [Worker k] m = m1)
      by (cbn [run]; rewrite Hstep'; reflexivity);
    assert (Hinv1 : live_inv threads t m1)
      by (rewrite <- Hrun; apply run_live_inv; assumption);
    destruct (worker_step_frame _ _ _ _ _ Hstep') as [Hpr1 _];
    assert (Hsum1 : worker_sum remaining (workers m1) =
                    worker_sum remaining (workers m) - 1)
      by (rewrite Hws1, (worker_sum_insert remaining _ k w w' Hk); lia);
    pose proof (worker_sum_remaining_nonneg t (workers m1)
                  (proj1 (proj1 (proj2 Hinv1)))) as Hnonneg.
  - lia.
  - destruct (IH m1 Hinv1) as (s & Hdone & Hsame); [congruence|lia|].
    exists (Worker k :: s). cbn [run]. rewrite Hstep'.
    split; [exact Hdone|congruence].
Qed.

(** The progress thread, if it holds the mutex, can release it. *)
Lemma progress_can_release (m : machine) :
  exists s, progress_critical (progress (run RAND_MAX rand s m)) = false.
Proof.
  destruct (progress m) as [| |c|c|] eqn:Epr.
  - exists []. cbn [run]. rewrite Epr. reflexivity.
  - exists [Progress; Progress]. cbn [run step]. unfold progress_step. rewrite Epr.
    cbn [progress]. reflexivity.
  - exists [Progress]. cbn [run step]. unfold progress_step. rewrite Epr.
    reflexivity.
  - exists []. cbn [run]. rewrite Epr. reflexivity.
  - exists []. cbn [run]. rewrite Epr. reflexivity.
Qed.

(** Once the workers have returned, the progress thread can return too. *)
Lemma progress_can_finish (m : machine) :
  live_inv threads t m -> progress_critical (progress m) = false ->
  forallb worker_exited (workers m) = true ->
  exists s, all_joined (run RAND_MAX rand s m) = true.
Proof.
  intros (Hlen & (Hok & Hchecked) & Hlock & Htot) Hpr Hws.
  assert (Hfree : mutex (data m) = None).
  { destruct (mutex (data m)) as [[k|]|] eqn:Hmutex; [| |reflexivity].
    - pose proof (proj2 (Hlock (Worker k)) Hmutex) as Hcrit. cbn [critical] in Hcrit.
      destruct (workers m !! k) as [w|] eqn:Hk; [|discriminate].
      pose proof (forallb_exited_lookup _ k w Hws Hk) as Hexit.
      unfold worker_exited in Hexit. unfold in_critical in Hcrit.
      destruct (w_pc w); discriminate.
    - pose proof (proj2 (Hlock Progress) Hmutex) as Hcrit. cbn [critical] in Hcrit.
      congruence. }
  assert (Hdone : total_points (data m) <= points_checked (data m)).
  { rewrite Htot, Hchecked, (total_contributed_exited t _ Hok Hws), Hlen.
    rewrite Z2Nat.id by lia. rewrite wrap_int_small by (unfold INT_MAX in *; nia). nia. }
  destruct (progress m) as [| |c|c|] eqn:Epr; try discriminate.
  - destruct (progress_alone_exits RAND_MAX rand m Hfree Epr Hdone) as (out & Hrun).
    exists progress_alone. rewrite Hrun. unfold all_joined, progress_exited.
    cbn [workers progress]. rewrite Hws. reflexivity.
  - destruct (c >=? total_points (data m)) eqn:Ec.
    + exists [Progress]. cbn [run step]. unfold progress_step. rewrite Epr, Ec.
      unfold all_joined, progress_exited. cbn [workers progress]. rewrite Hws.
      reflexivity.
    + set (m1 := mkMachine (data m) (workers m) PSleep (rand_calls m)
                   (printed m ++ [Z.quot (wrap_int (c * 100)) (total_points (data m))])).
      destruct (progress_alone_exits RAND_MAX rand m1 Hfree eq_refl Hdone) as (out & Hrun).
      exists (Progress :: progress_alone). cbn [run step]. unfold progress_step at 1.
      rewrite Epr, Ec. fold m1. rewrite Hrun.
      unfold all_joined, progress_exited. cbn [workers progress m1]. rewrite Hws.
      reflexivity.
  - exists []. cbn [run]. unfold all_joined, progress_exited. rewrite Hws, Epr.
    reflexivity.
Qed.

(** X17. The threads can always finish. When [threads * t] fits an [int],
    whatever the threads have done so far there is a way for them to go on
    after which every worker and the progress thread have returned, so that
    the joins of [main] can all return. *)
Theorem threads_can_always_finish
  (polygon : list Point) (n : Z) (schedule : list thread) :
  exists rest,
    all_joined (run RAND_MAX rand (schedule ++ rest) (spawn polygon n threads t)) = true.
Proof.
  set (m0 := run RAND_MAX rand schedule (spawn polygon n threads t)).
  assert (Hinv0 : live_inv threads t m0) by (apply run_live_inv, spawn_live_inv).
  destruct (progress_can_release m0) as (s1 & Hpr1).
  set (m1 := run RAND_MAX rand s1 m0) in *.
  assert (Hinv1 : live_inv threads t m1) by (apply run_live_inv; assumption).
  pose proof (worker_sum_remaining_nonneg t (workers m1) (proj1 (proj1 (proj2 Hinv1))))
    as Hnonneg.
  destruct (workers_can_finish (Z.to_nat (worker_sum remaining (workers m1))) m1
              Hinv1 Hpr1) as (s2 & Hws2 & Hpr2); [lia|].
  set (m2 := run RAND_MAX rand s2 m1) in *.
  assert (Hinv2 : live_inv threads t m2) by (apply run_live_inv; assumption).
  destruct (progress_can_finish m2 Hinv2) as (s3 & Hjoined); [congruence|assumption|].
  exists (s1 ++ s2 ++ s3). rewrite !run_app. exact Hjoined.
Qed.

End Liveness.

(** Two workers, three points: worker 0 holds the mutex, worker 1 is half
    way through drawing its first point. *)
Lemma threads_can_always_finish_witness :
  let schedule := [Worker 0; Worker 0; Worker 0; Worker 1; Worker 0; Progress] in
  let m := run 32767 lcg_rand schedule (spawn unit_square 4 2 3) in
  mutex (data m) = Some (Worker 0) /\
  exists rest,
    all_joined (run 32767 lcg_rand (schedule ++ rest) (spawn unit_square 4 2 3)) = true.
Proof.
  split; [vm_compute; reflexivity|].
  apply (threads_can_always_finish 32767 lcg_rand 2 3); unfold INT_MAX; lia.
Defined.

(** ** Reads that end at a line end *)

Lemma lines_of_line_end (a b : list Byte.byte) :
  lines_of ((a ++ [LF]) ++ b) = lines_of (a ++ [LF]) ++ lines_of b.
Proof.
  destruct (split_lf_app a [LF]) as (init & la & fx & rx & Ha & Hlf & Hal).
  change (split_lf [LF]) with [@nil Byte.byte; []] in Hlf. injection Hlf as <- <-.
  destruct (split_lf_app (a ++ [LF]) b) as (init' & la' & fb & rest & Hal' & Hb & Hab).
  rewrite Hal in Hal'.
  change (init ++ (la ++ []) :: [[]]) with (init ++ [la ++ []] ++ [[]]) in Hal'.
  rewrite !app_assoc in Hal'. apply app_inj_tail in Hal' as [<- <-].
  unfold lines_of. rewrite Hab, Hal, Hb.
  change (init ++ (la ++ []) :: [[]]) with (init ++ [la ++ []] ++ [[]]).
  rewrite !app_assoc, !List.filter_app. cbn [List.filter nonempty app].
  rewrite !app_nil_r. reflexivity.
Qed.

Lemma scanned_points_line_ends
  (sscanf_point : list Byte.byte -> option Point) (chunks : list (list Byte.byte))
  (last_chunk : list Byte.byte) :
  Forall (fun chunk => ~ In NUL chunk /\ exists text, chunk = text ++ [LF]) chunks ->
  ~ In NUL last_chunk ->
  ~ In NUL (concat chunks ++ last_chunk) /\
  scanned_points sscanf_point (chunks ++ [last_chunk]) =
    omap sscanf_point (lines_of (concat chunks ++ last_chunk)).
Proof.
  intros Hchunks Hlast. unfold scanned_points.
  induction Hchunks as [|chunk chunks (Hnul & text & ->) _ (IHnul & IH)];
    cbn [concat map app].
  - rewrite app_nil_r, c_string_id by assumption. split; [assumption|reflexivity].
  - split.
    + intros H. apply in_app_or in H as [H|H]; [|contradiction].
      apply in_app_or in H as [H|H]; [contradiction|].
      apply IHnul. apply in_or_app. left. exact H.
    + rewrite IH, c_string_id by assumption.
      rewrite <- (app_assoc (text ++ [LF])), lines_of_line_end, omap_app.
      reflexivity.
Qed.

(** X18. Reads that end at line ends lose nothing: when every chunk [read]
    returns, except perhaps the last, ends with a line feed (and the file
    has no NUL byte), the loop stores the same points as it would had the
    whole file come in a single chunk. *)
Theorem reads_at_line_ends_lose_nothing
  (sscanf_point : list Byte.byte -> option Point) (chunks : list (list Byte.byte))
  (last_chunk : list Byte.byte) (capacity : Z) :
  Forall (fun chunk => ~ In NUL chunk /\ exists text, chunk = text ++ [LF]) chunks ->
  ~ In NUL last_chunk ->
  read_loop sscanf_point capacity (chunks ++ [last_chunk]) [] 0 =
    read_loop sscanf_point capacity [concat chunks ++ last_chunk] [] 0.
Proof.
  intros Hchunks Hlast.
  destruct (scanned_points_line_ends sscanf_point chunks last_chunk Hchunks Hlast)
    as (Hnul & Hpoints).
  rewrite !read_loop_spec, Hpoints. unfold scanned_points. cbn [map concat].
  rewrite app_nil_r, c_string_id by assumption. reflexivity.
Qed.

(** "0 0" and "2 0", each with its line feed, in two reads and in one. *)
Lemma reads_at_line_ends_lose_nothing_witness :
  read_loop digit_point MAX_POINTS ([line_0_0 ++ [LF]] ++ [line_2_0 ++ [LF]]) [] 0 =
    read_loop digit_point MAX_POINTS [concat [line_0_0 ++ [LF]] ++ line_2_0 ++ [LF]] [] 0 /\
  read_loop digit_point MAX_POINTS ([line_0_0 ++ [LF]] ++ [line_2_0 ++ [LF]]) [] 0 =
    Some (Some ([mkPoint 0 0; mkPoint 2 0], 2)).
Proof.
  split; [|vm_compute; reflexivity].
  apply (reads_at_line_ends_lose_nothing digit_point [line_0_0 ++ [LF]]
           (line_2_0 ++ [LF]) MAX_POINTS).
  - constructor; [|constructor].
    split; [vm_compute; intuition discriminate|exists line_0_0; reflexivity].
  - vm_compute. intuition discriminate.
Defined.
